(** * Resilient fetch orchestration of moff-tarkin: a shallow embedding

    The development follows the Python sources:
    - [src/scrapers/base_scraper.py]   (BaseScraper: fetch cascade, batch_scrape,
                                        captcha detection)
    - [src/scrapers/captcha_solver.py] (CloudflareBypasser, CaptchaSolver)
    - [src/utils/antidetect.py]        (ProxyRotator, TLSClient)
    - [src/storage/database.py]        (SQLiteStorage, StorageManager)
    - [src/agents/llm_calls.py]        (LLM.fw_basic_call: think-block stripping;
                                        LLM.fw_tool_call: streamed tool calls)
    - [src/scrapers/script_scrapers.py] (UniversalScriptScraper.scrape,
                                        CharacterSceneExtractor)
    - [src/models/scene.py]            (Scene, SceneCollection)
    - [src/main.py]                    (ExtractionPipeline)

    Python [str] values are modelled as [string] (the bytes of their UTF-8
    encoding), dictionaries as [gmap], sets as [gset], lists as [list],
    [Optional] values as [option].  Effects -- mutation of the scraper,
    network requests, exceptions -- are modelled by a state-and-exception
    monad over the mutable attributes of the instance; the network is an
    oracle that is consulted at every request, and every request is logged.
    A call runs to its end before the next one starts, except where
    [fetch_start] and [fetch_resume] split a [fetch] call at its wait for
    FlareSolverr, to follow two calls that overlap in time.

    The first part holds the embedding, the second part the properties. *)

From Stdlib Require Import ZArith Ascii String List Lia Bool.
From stdpp Require Import base option list gmap sets strings pretty.

Local Open Scope string_scope.
Local Open Scope Z_scope.

(** ** Python string primitives *)

Module PyStr.

(** [needle in s] decided at the head of [s]: [s.startswith(needle)]. *)
Fixpoint startswith (needle s : string) : bool :=
  match needle, s with
  | EmptyString, _ => true
  | String a n', String b s' => if Ascii.eqb a b then startswith n' s' else false
  | String _ _, EmptyString => false
  end.

(** [s.find(needle)] as a natural number, [None] standing for [-1]. *)
Fixpoint find_nat (needle s : string) : option nat :=
  if startswith needle s then Some 0%nat
  else match s with
       | EmptyString => None
       | String _ s' => option_map S (find_nat needle s')
       end.

(** [s.find(needle)]: lowest index of an occurrence, [-1] when absent. *)
Definition find (s needle : string) : Z :=
  match find_nat needle s with
  | Some i => Z.of_nat i
  | None => -1
  end.

(** [needle in s]. *)
Definition contains (needle s : string) : bool :=
  match find_nat needle s with Some _ => true | None => false end.

Fixpoint drop (n : nat) (s : string) : string :=
  match n, s with
  | O, _ => s
  | S n', String _ s' => drop n' s'
  | S _, EmptyString => EmptyString
  end.

Fixpoint take (n : nat) (s : string) : string :=
  match n, s with
  | O, _ => EmptyString
  | S n', String a s' => String a (take n' s')
  | S _, EmptyString => EmptyString
  end.

Definition len (s : string) : Z := Z.of_nat (String.length s).

(** Python's index normalisation for slices: negative indices count from
    the end, and the result is clamped to [0, len]. *)
Definition clamp (s : string) (i : Z) : nat :=
  let i' := if i <? 0 then Z.max 0 (len s + i) else Z.min i (len s) in
  Z.to_nat i'.

(** [s[i:]] *)
Definition slice_from (s : string) (i : Z) : string := drop (clamp s i) s.

(** [s[i:j]] *)
Definition slice (s : string) (i j : Z) : string :=
  let a := clamp s i in
  let b := clamp s j in
  take (b - a) (drop a s).

Definition newline : ascii := Ascii.ascii_of_nat 10.

(** [s.lstrip("\n")] *)
Fixpoint lstrip_nl (s : string) : string :=
  match s with
  | String a s' => if Ascii.eqb a newline then lstrip_nl s' else s
  | EmptyString => EmptyString
  end.

(** [bool(s)] for a string: non-empty. *)
Definition truthy (s : string) : bool :=
  match s with EmptyString => false | String _ _ => true end.

(** ["".join(chunks)] *)
Definition join (chunks : list string) : string :=
  fold_right String.append EmptyString chunks.

(** Number of occurrences of a character; [len(s.split(c)) = count c s + 1]. *)
Fixpoint count_char (c : ascii) (s : string) : nat :=
  match s with
  | EmptyString => O
  | String a s' => (if Ascii.eqb a c then 1 else 0) + count_char c s'
  end%nat.

(** A run of newlines, which is what [lstrip] removes. *)
Fixpoint only_newlines (s : string) : bool :=
  match s with
  | EmptyString => true
  | String c s' => Ascii.eqb c newline && only_newlines s'
  end.

End PyStr.

(** ** hashlib.md5 (RFC 1321) on 32-bit words carried in [Z] *)

Module MD5.

Definition mask32 (x : Z) : Z := Z.land x 0xFFFFFFFF.
Definition add32 (a b : Z) : Z := mask32 (a + b).
Definition not32 (x : Z) : Z := Z.lxor x 0xFFFFFFFF.
Definition rotl32 (x c : Z) : Z :=
  mask32 (Z.lor (Z.shiftl x c) (Z.shiftr x (32 - c))).

Definition shifts : list Z :=
  [7; 12; 17; 22; 7; 12; 17; 22; 7; 12; 17; 22; 7; 12; 17; 22;
   5; 9; 14; 20; 5; 9; 14; 20; 5; 9; 14; 20; 5; 9; 14; 20;
   4; 11; 16; 23; 4; 11; 16; 23; 4; 11; 16; 23; 4; 11; 16; 23;
   6; 10; 15; 21; 6; 10; 15; 21; 6; 10; 15; 21; 6; 10; 15; 21].

Definition sines : list Z :=
  [0xd76aa478; 0xe8c7b756; 0x242070db; 0xc1bdceee;
   0xf57c0faf; 0x4787c62a; 0xa8304613; 0xfd469501;
   0x698098d8; 0x8b44f7af; 0xffff5bb1; 0x895cd7be;
   0x6b901122; 0xfd987193; 0xa679438e; 0x49b40821;
   0xf61e2562; 0xc040b340; 0x265e5a51; 0xe9b6c7aa;
   0xd62f105d; 0x02441453; 0xd8a1e681; 0xe7d3fbc8;
   0x21e1cde6; 0xc33707d6; 0xf4d50d87; 0x455a14ed;
   0xa9e3e905; 0xfcefa3f8; 0x676f02d9; 0x8d2a4c8a;
   0xfffa3942; 0x8771f681; 0x6d9d6122; 0xfde5380c;
   0xa4beea44; 0x4bdecfa9; 0xf6bb4b60; 0xbebfbc70;
   0x289b7ec6; 0xeaa127fa; 0xd4ef3085; 0x04881d05;
   0xd9d4d039; 0xe6db99e5; 0x1fa27cf8; 0xc4ac5665;
   0xf4292244; 0x432aff97; 0xab9423a7; 0xfc93a039;
   0x655b59c3; 0x8f0ccc92; 0xffeff47d; 0x85845dd1;
   0x6fa87e4f; 0xfe2ce6e0; 0xa3014314; 0x4e0811a1;
   0xf7537e82; 0xbd3af235; 0x2ad7d2bb; 0xeb86d391].

Definition bytes_of_string (s : string) : list Z :=
  map (fun c => Z.of_N (Ascii.N_of_ascii c)) (list_ascii_of_string s).

(** Little-endian bytes of the low [n] bytes of [x]. *)
Fixpoint le_bytes (n : nat) (x : Z) : list Z :=
  match n with
  | O => []
  | S n' => Z.land x 0xFF :: le_bytes n' (Z.shiftr x 8)
  end.

(** Message padding: a single 1 bit, zeros up to 56 mod 64, then the
    bit length as a 64-bit little-endian integer. *)
Definition pad (msg : list Z) : list Z :=
  let n := Z.of_nat (List.length msg) in
  let zeros := Z.to_nat ((55 - n) mod 64) in
  msg ++ [0x80] ++ repeat 0 zeros ++ le_bytes 8 (Z.land (8 * n) 0xFFFFFFFFFFFFFFFF).

Fixpoint word_of_le (bs : list Z) : Z :=
  match bs with
  | [] => 0
  | b :: bs' => b + 256 * word_of_le bs'
  end.

(** Split into consecutive chunks of [n] elements. *)
Fixpoint chunks {A} (fuel n : nat) (l : list A) : list (list A) :=
  match fuel with
  | O => []
  | S fuel' =>
      match l with
      | [] => []
      | _ => firstn n l :: chunks fuel' n (skipn n l)
      end
  end.

Definition words_of_block (block : list Z) : list Z :=
  map word_of_le (chunks 16 4 block).

Definition round (m : list Z) (st : Z * Z * Z * Z) (i : Z) : Z * Z * Z * Z :=
  let '(a, b, c, d) := st in
  let '(f, g) :=
    if i <? 16 then (Z.lor (Z.land b c) (Z.land (not32 b) d), i)
    else if i <? 32 then (Z.lor (Z.land d b) (Z.land (not32 d) c), (5 * i + 1) mod 16)
    else if i <? 48 then (Z.lxor (Z.lxor b c) d, (3 * i + 5) mod 16)
    else (Z.lxor c (Z.lor b (not32 d)), (7 * i) mod 16) in
  let f' := add32 (add32 (add32 f a) (nth (Z.to_nat i) sines 0)) (nth (Z.to_nat g) m 0) in
  (d, add32 b (rotl32 f' (nth (Z.to_nat i) shifts 0)), b, c).

Definition process_block (st : Z * Z * Z * Z) (block : list Z) : Z * Z * Z * Z :=
  let m := words_of_block block in
  let '(a0, b0, c0, d0) := st in
  let '(a, b, c, d) := fold_left (round m) (map Z.of_nat (seq 0 64)) st in
  (add32 a0 a, add32 b0 b, add32 c0 c, add32 d0 d).

Definition digest (msg : list Z) : list Z :=
  let p := pad msg in
  let '(a, b, c, d) :=
    fold_left process_block (chunks (List.length p) 64 p)
              (0x67452301, 0xefcdab89, 0x98badcfe, 0x10325476) in
  le_bytes 4 a ++ le_bytes 4 b ++ le_bytes 4 c ++ le_bytes 4 d.

Definition hex_digit (x : Z) : ascii :=
  if x <? 10 then Ascii.ascii_of_N (Z.to_N (48 + x))
  else Ascii.ascii_of_N (Z.to_N (87 + x)).

Fixpoint hex_of_bytes (bs : list Z) : string :=
  match bs with
  | [] => EmptyString
  | b :: bs' => String (hex_digit (Z.shiftr b 4)) (String (hex_digit (Z.land b 0xF)) (hex_of_bytes bs'))
  end.

(** [hashlib.md5(s.encode()).hexdigest()] *)
Definition hexdigest (s : string) : string :=
  hex_of_bytes (digest (bytes_of_string s)).

End MD5.

(** ** Python values and exceptions *)

(** A local variable of a Python function: unbound until first assigned. *)
Inductive local (A : Type) : Type :=
| Unbound
| Bound (v : A).
Arguments Unbound {A}.
Arguments Bound {A} v.

(** The exceptions that the modelled code can raise or meet. *)
Inductive exn : Type :=
| IndexError          (* list index out of range *)
| UnboundLocalError   (* read of a local variable before assignment *)
| TransportError      (* timeout, connection reset, ... raised by a request *)
| HTTPError (status : Z)   (* raise httpx.HTTPError(f"Status {status}") *)
| RetryError          (* tenacity: attempts exhausted, reraise not requested *)
| ValueError.

Inductive result (A : Type) : Type :=
| Ok (a : A)
| Raise (e : exn).
Arguments Ok {A} a.
Arguments Raise {A} e.

(** [bool(x)] for an [Optional[str]]. *)
Definition truthy (x : option string) : bool :=
  match x with
  | Some s => PyStr.truthy s
  | None => false
  end.

(** ** The network, as seen by the scraper *)

(** What a request gives back: a response with a status and a body, or an
    exception (timeout, connection error). *)
Inductive response : Type :=
| Response (status_code : Z) (text : string)
| Failure.

(** Every request the code issues is logged, most recent first. *)
Inductive event : Type :=
| ProxyTest (proxy : string)
| TlsRequest (url method : string) (session_proxies : option string)
| CloudscraperGet (url : string) (proxy : option string)
| FlareSolverr (url : string) (proxy : option string)
| BrowserSession (url : string) (proxy : option string)
| HttpxRequest (url method : string) (proxy : option string).

(** The outside world answers each request; the first argument is the
    number of requests issued so far, so that answers may change over time. *)
Record Network : Type := {
  proxy_alive : nat -> string -> bool;
  tls_send : nat -> string -> string -> option string -> response;
  cloudscraper_get : nat -> string -> option string -> response;
  flaresolverr_post : nat -> string -> option string -> option string;
  browser_page : nat -> string -> option string -> option string;
  httpx_send : nat -> string -> string -> option string -> response
}.

(** ** ProxyRotator (src/utils/antidetect.py) *)

Record ProxyRotator : Type := {
  proxies : list string;
  working_proxies : list string;
  failed_proxies : gset string;
  current_index : nat
}.

Module Rotator.

(** [ProxyRotator.__init__] *)
Definition init (ps : list string) : ProxyRotator :=
  {| proxies := ps; working_proxies := []; failed_proxies := ∅; current_index := 0 |}.

(** The inner [test_proxy] coroutines, awaited through [asyncio.gather]:
    the results come back in the order of [self.proxies]. *)
Fixpoint gather_tests (net : Network) (ps : list string) (log : list event)
  : list (option string) * list event :=
  match ps with
  | [] => ([], log)
  | p :: ps' =>
      let r := if proxy_alive net (length log) p then Some p else None in
      let '(rs, log') := gather_tests net ps' (ProxyTest p :: log) in
      (r :: rs, log')
  end.

(** [[p for p in results if p]] *)
Fixpoint keep_truthy (results : list (option string)) : list string :=
  match results with
  | [] => []
  | Some p :: rs => if PyStr.truthy p then p :: keep_truthy rs else keep_truthy rs
  | None :: rs => keep_truthy rs
  end.

(** [ProxyRotator.test_proxies] *)
Definition test_proxies (net : Network) (r : ProxyRotator) (log : list event)
  : ProxyRotator * list event :=
  let '(results, log') := gather_tests net (proxies r) log in
  ({| proxies := proxies r;
      working_proxies := keep_truthy results;
      failed_proxies := failed_proxies r;
      current_index := current_index r |}, log').

(** [ProxyRotator.get_proxy] *)
Definition get_proxy (net : Network) (r : ProxyRotator) (log : list event)
  : result (option string) * ProxyRotator * list event :=
  let '(r1, log1) :=
    match working_proxies r with
    | [] => test_proxies net r log
    | _ :: _ => (r, log)
    end in
  match working_proxies r1 with
  | [] => (Ok None, r1, log1)
  | _ :: _ =>
      match working_proxies r1 !! current_index r1 with
      | Some proxy =>
          (Ok (Some proxy),
           {| proxies := proxies r1;
              working_proxies := working_proxies r1;
              failed_proxies := failed_proxies r1;
              current_index := (current_index r1 + 1) mod length (working_proxies r1) |},
           log1)
      | None => (Raise IndexError, r1, log1)
      end
  end.

(** [list.remove(x)]: drops the first occurrence of [x]. *)
Fixpoint list_remove (x : string) (l : list string) : list string :=
  match l with
  | [] => []
  | y :: l' => if String.eqb x y then l' else y :: list_remove x l'
  end.

(** [ProxyRotator.mark_failed] *)
Definition mark_failed (proxy : string) (r : ProxyRotator) : ProxyRotator :=
  {| proxies := proxies r;
     working_proxies :=
       if bool_decide (proxy ∈ working_proxies r)
       then list_remove proxy (working_proxies r)
       else working_proxies r;
     failed_proxies := failed_proxies r ∪ {[ proxy ]};
     current_index := current_index r |}.

(** [n] successive [get_proxy] calls, the outcomes collected. *)
Fixpoint get_proxies (net : Network) (n : nat) (r : ProxyRotator) (log : list event)
  : list (result (option string)) * ProxyRotator * list event :=
  match n with
  | O => ([], r, log)
  | S n' =>
      let '(res, r1, log1) := get_proxy net r log in
      let '(rs, r2, log2) := get_proxies net n' r1 log1 in
      (res :: rs, r2, log2)
  end.

End Rotator.

(** ** BaseScraper (src/scrapers/base_scraper.py) *)

(** The mutable attributes of a scraper instance.  [tls_session_proxies] is
    [self.tls_client.session.proxies], which lives as long as the instance. *)
Record BaseScraper : Type := {
  use_browser : bool;
  proxy_rotator : option ProxyRotator;
  tls_session_proxies : option string;
  session_cache : gmap string string;
  failed_urls : gset string;
  success_count : nat;
  fail_count : nat
}.

(** The scraper together with the log of the requests issued so far. *)
Record World : Type := {
  scraper : BaseScraper;
  log : list event
}.

(** [BaseScraper._load_proxies]: the truthy values of
    [PROXY_CONFIG['providers']], in the order of the dictionary. *)
Definition _load_proxies (providers : list (option string)) : list string :=
  Rotator.keep_truthy providers.

(** [BaseScraper.__init__], given the proxies loaded from the configuration. *)
Definition new_scraper (browser : bool) (configured : list string) : BaseScraper :=
  {| use_browser := browser;
     proxy_rotator := match configured with
                      | [] => None
                      | _ :: _ => Some (Rotator.init configured)
                      end;
     tls_session_proxies := None;
     session_cache := ∅;
     failed_urls := ∅;
     success_count := 0;
     fail_count := 0 |}.

Definition with_rotator (r : option ProxyRotator) (s : BaseScraper) : BaseScraper :=
  {| use_browser := use_browser s; proxy_rotator := r;
     tls_session_proxies := tls_session_proxies s;
     session_cache := session_cache s; failed_urls := failed_urls s;
     success_count := success_count s; fail_count := fail_count s |}.

Definition with_tls_proxies (p : option string) (s : BaseScraper) : BaseScraper :=
  {| use_browser := use_browser s; proxy_rotator := proxy_rotator s;
     tls_session_proxies := p;
     session_cache := session_cache s; failed_urls := failed_urls s;
     success_count := success_count s; fail_count := fail_count s |}.

Definition with_cache (c : gmap string string) (s : BaseScraper) : BaseScraper :=
  {| use_browser := use_browser s; proxy_rotator := proxy_rotator s;
     tls_session_proxies := tls_session_proxies s;
     session_cache := c; failed_urls := failed_urls s;
     success_count := success_count s; fail_count := fail_count s |}.

Definition with_failed_urls (f : gset string) (s : BaseScraper) : BaseScraper :=
  {| use_browser := use_browser s; proxy_rotator := proxy_rotator s;
     tls_session_proxies := tls_session_proxies s;
     session_cache := session_cache s; failed_urls := f;
     success_count := success_count s; fail_count := fail_count s |}.

Definition with_success_count (n : nat) (s : BaseScraper) : BaseScraper :=
  {| use_browser := use_browser s; proxy_rotator := proxy_rotator s;
     tls_session_proxies := tls_session_proxies s;
     session_cache := session_cache s; failed_urls := failed_urls s;
     success_count := n; fail_count := fail_count s |}.

(** *** The state-and-exception monad of the scraper's coroutines *)

Definition M (A : Type) : Type := World -> result A * World.

Definition ret {A} (a : A) : M A := fun w => (Ok a, w).

Definition raise {A} (e : exn) : M A := fun w => (Raise e, w).

Definition bind {A B} (m : M A) (k : A -> M B) : M B :=
  fun w => match m w with
           | (Ok a, w') => k a w'
           | (Raise e, w') => (Raise e, w')
           end.

(** Runs [m] and hands its outcome to the continuation: the scaffold of a
    [try ... except Exception] block.  Mutations made before the exception
    are kept. *)
Definition attempt {A} (m : M A) : M (result A) :=
  fun w => let '(r, w') := m w in (Ok r, w').

Definition get_scraper : M BaseScraper := fun w => (Ok (scraper w), w).

Definition update (f : BaseScraper -> BaseScraper) : M unit :=
  fun w => (Ok tt, {| scraper := f (scraper w); log := log w |}).

Definition when (b : bool) (m : M unit) : M unit := if b then m else ret tt.

(** Issues a request: the oracle is asked at the current tick and the
    request is logged. *)
Definition request {A} (ev : event) (answer : nat -> A) : M A :=
  fun w => (Ok (answer (length (log w))),
            {| scraper := scraper w; log := ev :: log w |}).

Declare Scope py_scope.
Delimit Scope py_scope with py.
Notation "x <- m ;; k" := (bind m (fun x => k))
  (at level 100, m at next level, right associativity) : py_scope.
Notation "m ;;; k" := (bind m (fun _ => k))
  (at level 100, right associativity) : py_scope.
Local Open Scope py_scope.

(** [await self.proxy_rotator.get_proxy() if self.proxy_rotator else None] *)
Definition acquire_proxy (net : Network) : M (option string) :=
  fun w =>
    match proxy_rotator (scraper w) with
    | None => (Ok None, w)
    | Some r =>
        let '(res, r', log') := Rotator.get_proxy net r (log w) in
        (res, {| scraper := with_rotator (Some r') (scraper w); log := log' |})
    end.

(** [if proxy and self.proxy_rotator: self.proxy_rotator.mark_failed(proxy)] *)
Definition report_failed (proxy : option string) : M unit :=
  update (fun s =>
    match proxy, proxy_rotator s with
    | Some p, Some r => if PyStr.truthy p then with_rotator (Some (Rotator.mark_failed p r)) s else s
    | _, _ => s
    end).

(** [self.success_count += 1] *)
Definition count_success : M unit :=
  update (fun s => with_success_count (success_count s + 1) s).

(** What one turn of a [for] loop body decides. *)
Inductive step (A : Type) : Type :=
| Return (v : A)
| Continue.
Arguments Return {A} v.
Arguments Continue {A}.

Definition slash : ascii := Ascii.ascii_of_nat 47.

(** [url.split('/')[2]] is defined iff the URL has at least two slashes. *)
Definition has_netloc (url : string) : bool :=
  (2 <=? PyStr.count_char slash url)%nat.

(** The [except Exception] handler of [_fetch_tls_client]; [proxy] is the
    local variable as it stands when the exception is caught. *)
Definition tls_except (proxy : local (option string)) : M (step (option string)) :=
  match proxy with
  | Unbound => raise UnboundLocalError
  | Bound p => report_failed p ;;; ret Continue
  end.

(** The [try] block of [_fetch_tls_client] after [proxy] has been assigned. *)
Definition tls_try (net : Network) (url method : string) (proxy : option string)
  : M (step (option string)) :=
  when (truthy proxy) (update (with_tls_proxies proxy)) ;;;
  (if has_netloc url then ret tt else raise IndexError) ;;;
  s <- get_scraper ;;
  resp <- request (TlsRequest url method (tls_session_proxies s))
                  (fun t => tls_send net t url method (tls_session_proxies s)) ;;
  match resp with
  | Failure => raise TransportError
  | Response status text =>
      if status =? 200 then count_success ;;; ret (Return (Some text))
      else if status =? 403 then ret (Return None)
      else ret Continue
  end.

(** One turn of the retry loop of [_fetch_tls_client]. *)
Definition tls_attempt (net : Network) (url method : string) (proxy : local (option string))
  : M (step (option string) * local (option string)) :=
  got <- attempt (acquire_proxy net) ;;
  match got with
  | Raise _ => st <- tls_except proxy ;; ret (st, proxy)
  | Ok p =>
      r <- attempt (tls_try net url method p) ;;
      match r with
      | Ok st => ret (st, Bound p)
      | Raise _ => st <- tls_except (Bound p) ;; ret (st, Bound p)
      end
  end.

Fixpoint tls_loop (net : Network) (url method : string) (attempts : nat)
         (proxy : local (option string)) : M (option string) :=
  match attempts with
  | O => ret None
  | S n =>
      turn <- tls_attempt net url method proxy ;;
      match turn with
      | (Return v, _) => ret v
      | (Continue, proxy') => tls_loop net url method n proxy'
      end
  end.

(** [BaseScraper._fetch_tls_client]: [max_retries = 5]. *)
Definition _fetch_tls_client (net : Network) (url method : string) : M (option string) :=
  tls_loop net url method 5 Unbound.

(** [if proxy: self.tls_client.session.proxies = ...] *)
Definition install_proxy (proxy : option string) (s : BaseScraper) : BaseScraper :=
  if truthy proxy then with_tls_proxies proxy s else s.

(** The turns of the retry loop of [_fetch_tls_client] that end in
    [continue]: from [n] attempts left, local [proxy] and world [w] the
    loop arrives at [n'] attempts left, [proxy'] and [w']. *)
Inductive tls_turns (net : Network) (url method : string)
  : nat -> local (option string) -> World ->
    nat -> local (option string) -> World -> Prop :=
| turns_here n proxy w :
    tls_turns net url method n proxy w n proxy w
| turns_more n proxy w proxy1 w1 n' proxy' w' :
    tls_attempt net url method proxy w = (Ok (Continue, proxy1), w1) ->
    tls_turns net url method n proxy1 w1 n' proxy' w' ->
    tls_turns net url method (S n) proxy w n' proxy' w'.

(** [CloudflareBypasser._use_flaresolverr]: never raises. *)
Definition _use_flaresolverr (net : Network) (url : string) (proxy : option string)
  : M (option string) :=
  let sent := if truthy proxy then proxy else None in
  request (FlareSolverr url sent) (fun t => flaresolverr_post net t url sent).

(** [CloudflareBypasser.bypass_cloudflare]: the ['content'] of the returned
    dictionary, or [None]. *)
Definition bypass_cloudflare (net : Network) (url : string) (proxy : option string)
  : M (option string) :=
  let used := if truthy proxy then proxy else None in
  resp <- request (CloudscraperGet url used) (fun t => cloudscraper_get net t url used) ;;
  match resp with
  | Response status text =>
      if status =? 200 then ret (Some text) else _use_flaresolverr net url proxy
  | Failure => _use_flaresolverr net url proxy
  end.

(** [BaseScraper._fetch_cloudscraper] *)
Definition _fetch_cloudscraper (net : Network) (url : string) : M (option string) :=
  r <- attempt (proxy <- acquire_proxy net ;;
                result <- bypass_cloudflare net url proxy ;;
                match result with
                | Some content => count_success ;;; ret (Some content)
                | None => ret None
                end) ;;
  match r with
  | Ok v => ret v
  | Raise _ => ret None
  end.

(** [BaseScraper._fetch_browser]: the browser session (navigation, pacing,
    captcha detection and solving, reading [page_source]) is one request to
    the oracle, which answers with the page source or fails. *)
Definition _fetch_browser (net : Network) (url : string) : M (option string) :=
  r <- attempt (proxy <- acquire_proxy net ;;
                let used := if truthy proxy then proxy else None in
                page <- request (BrowserSession url used) (fun t => browser_page net t url used) ;;
                match page with
                | Some content => count_success ;;; ret (Some content)
                | None => raise TransportError
                end) ;;
  match r with
  | Ok v => ret v
  | Raise _ => ret None
  end.

(** The body of [_fetch_httpx], one attempt. *)
Definition httpx_attempt (net : Network) (url method : string) : M (option string) :=
  proxy <- acquire_proxy net ;;
  let used := if truthy proxy then proxy else None in
  resp <- request (HttpxRequest url method used) (fun t => httpx_send net t url method used) ;;
  match resp with
  | Failure => raise TransportError
  | Response status text =>
      if status =? 200 then count_success ;;; ret (Some text)
      else raise (HTTPError status)
  end.

(** tenacity's [@retry(stop=stop_after_attempt(n), ...)] with the default
    [reraise=False]: a call that returns ends the retrying; once [n]
    attempts have raised, [RetryError] is raised. *)
Fixpoint retry {A} (attempts : nat) (m : M A) : M A :=
  match attempts with
  | O => raise RetryError
  | S n =>
      r <- attempt m ;;
      match r with
      | Ok v => ret v
      | Raise _ => retry n m
      end
  end.

(** [BaseScraper._fetch_httpx] *)
Definition _fetch_httpx (net : Network) (url method : string) : M (option string) :=
  retry 3 (httpx_attempt net url method).

(** [hashlib.md5(f"{url}:{method}".encode()).hexdigest()] *)
Definition cache_key (url method : string) : string :=
  MD5.hexdigest (url +:+ ":" +:+ method).

(** [self.session_cache[cache_key] = content; return content] *)
Definition remember (key : string) (content : option string) : M (option string) :=
  update (fun s => match content with
                   | Some body => with_cache (<[key := body]> (session_cache s)) s
                   | None => s
                   end) ;;;
  ret content.

(** [self.failed_urls.add(url); return None] *)
Definition exhausted (url : string) : M (option string) :=
  update (fun s => with_failed_urls (failed_urls s ∪ {[ url ]}) s) ;;;
  ret None.

(** [BaseScraper.fetch] is straight-line code; its tail from each of the
    "Method" comments onwards is named, so that statements can refer to
    "the rest of the cascade". *)

(** From "Method 4: Standard httpx with aggressive retry" to the end. *)
Definition fetch_from_httpx (net : Network) (url method key : string) : M (option string) :=
  content <- _fetch_httpx net url method ;;
  if truthy content then remember key content else exhausted url.

(** From "Method 3: Browser automation" to the end. *)
Definition fetch_from_browser (net : Network) (url method key : string) : M (option string) :=
  s <- get_scraper ;;
  if use_browser s then
    content <- _fetch_browser net url ;;
    if truthy content then remember key content
    else fetch_from_httpx net url method key
  else fetch_from_httpx net url method key.

(** From "Method 2: Cloudscraper for Cloudflare" to the end. *)
Definition fetch_from_cloudscraper (net : Network) (url method key : string) : M (option string) :=
  content <- _fetch_cloudscraper net url ;;
  if truthy content then remember key content
  else fetch_from_browser net url method key.

(** [BaseScraper.fetch] *)
Definition fetch (net : Network) (url method : string) : M (option string) :=
  let key := cache_key url method in
  s <- get_scraper ;;
  match session_cache s !! key with
  | Some body => ret (Some body)
  | None =>
      content <- _fetch_tls_client net url method ;;
      if truthy content then remember key content
      else fetch_from_cloudscraper net url method key
  end.

(** A run of successive [fetch] calls on one instance, each with its own
    network behaviour; the outcomes are dropped, the instance is kept. *)
Fixpoint fetch_all (calls : list (Network * string * string)) (w : World) : World :=
  match calls with
  | [] => w
  | (net, url, method) :: rest => fetch_all rest (snd (fetch net url method w))
  end.

(** *** Calls that overlap in time *)

(** [fetch] is a coroutine, and [batch_scrape] runs several calls on one
    instance as tasks of one event loop: a call gives way to the others
    where it awaits something that is not done.  [TLSClient.get] and
    [TLSClient.post] call the blocking session and cloudscraper's [get]
    blocks, so in an instance without proxies the first point at which a
    call gives way is [await client.post] in [_use_flaresolverr].
    [Waiting answer] is a call suspended there: its request is sent and
    logged, and [answer] is what the service delivers when the call is
    resumed.  [Finished r] is a call that returned [r] without getting
    there.  The other waits of a call (the proxy tests of an instance with
    proxies, the pacing of the browser, httpx) are passed in one go: no
    other call runs during them. *)
Inductive progress : Type :=
| Finished (r : option string)
| Waiting (answer : option string).

(** [BaseScraper.fetch] from its first line to the wait in
    [_use_flaresolverr], or to its end if it does not get there. *)
Definition fetch_start (net : Network) (url method : string) : M progress :=
  let key := cache_key url method in
  s <- get_scraper ;;
  match session_cache s !! key with
  | Some body => ret (Finished (Some body))
  | None =>
      content <- _fetch_tls_client net url method ;;
      if truthy content then r <- remember key content ;; ret (Finished r)
      else
        got <- attempt (acquire_proxy net) ;;
        match got with
        | Raise _ => r <- fetch_from_browser net url method key ;; ret (Finished r)
        | Ok proxy =>
            let used := if truthy proxy then proxy else None in
            resp <- request (CloudscraperGet url used)
                            (fun t => cloudscraper_get net t url used) ;;
            let wait := answer <- request (FlareSolverr url used)
                                          (fun t => flaresolverr_post net t url used) ;;
                        ret (Waiting answer) in
            match resp with
            | Response status text =>
                if status =? 200 then
                  count_success ;;;
                  r <- (if truthy (Some text) then remember key (Some text)
                        else fetch_from_browser net url method key) ;;
                  ret (Finished r)
                else wait
            | Failure => wait
            end
        end
  end.

(** The rest of [BaseScraper.fetch] once [_use_flaresolverr] has its
    answer: [bypass_cloudflare] hands it on, [_fetch_cloudscraper] counts a
    success if there is one, and [fetch] stores and returns the content or
    goes on with the next strategy. *)
Definition fetch_resume (net : Network) (url method : string) (answer : option string)
  : M (option string) :=
  let key := cache_key url method in
  content <- match answer with
             | Some c => count_success ;;; ret (Some c)
             | None => ret None
             end ;;
  if truthy content then remember key content
  else fetch_from_browser net url method key.

(** *** batch_scrape *)

(** What a call can do: return, raise, or never complete. *)
Inductive outcome (A : Type) : Type :=
| Returns (a : A)
| Raises (e : exn)
| Blocks.
Arguments Returns {A} a.
Arguments Raises {A} e.
Arguments Blocks {A}.

Section Batch.

(** The scraped record type ([Dict[str, Any]]). *)
Context {D : Type}.

(** The abstract method [scrape], as it behaves in the run at hand: the
    outcome of [await self.scrape(url)] in the task created for position
    [i] of [urls]. *)
Variable scrape : nat -> string -> result (option D).

(** The inner coroutine [scrape_with_semaphore], once it holds a slot. *)
Definition scrape_with_semaphore (i : nat) (url : string) : option D :=
  match scrape i url with
  | Ok r => r
  | Raise _ => None
  end.

(** [results = await asyncio.gather] over the tasks: one result per
    task, in the order of the tasks. *)
Definition gather (urls : list string) : list (option D) :=
  imap scrape_with_semaphore urls.

(** [[r for r in results if r is not None]] *)
Definition valid_results (results : list (option D)) : list D :=
  omap id results.

(** [BaseScraper.batch_scrape].  [asyncio.Semaphore(n)] raises
    [ValueError] for [n < 0]; with [n = 0] no task ever enters
    [async with semaphore], so the gather of a non-empty task list never
    completes. *)
Definition batch_scrape (urls : list string) (max_concurrent : Z) : outcome (list D) :=
  if max_concurrent <? 0 then Raises ValueError
  else if (max_concurrent =? 0) && negb (bool_decide (urls = [])) then Blocks
  else Returns (valid_results (gather urls)).

End Batch.

(** ** SQLiteStorage (src/storage/database.py): the cache tables *)

Module Storage.

(** A row of table [cache], keyed by its primary key [url]; [expiry] may
    be NULL. *)
Record cache_row : Type := {
  content : string;
  scraped_at : Z;
  expiry : option Z
}.

(** Tables [cache (url PRIMARY KEY, content, scraped_at, expiry)] and
    [processed_urls (url PRIMARY KEY, processed_at)].  Timestamps are in
    seconds of the Unix clock. *)
Record SQLiteStorage : Type := {
  cache : gmap string cache_row;
  processed_urls : gmap string Z
}.

Definition empty : SQLiteStorage := {| cache := ∅; processed_urls := ∅ |}.

(** [is_processed]: [SELECT 1 FROM processed_urls WHERE url = ?] *)
Definition is_processed (url : string) (db : SQLiteStorage) : bool :=
  match processed_urls db !! url with
  | Some _ => true
  | None => false
  end.

(** [mark_processed]: [INSERT OR IGNORE INTO processed_urls (url) VALUES (?)];
    [processed_at] defaults to the current time [now]. *)
Definition mark_processed (url : string) (now : Z) (db : SQLiteStorage) : SQLiteStorage :=
  match processed_urls db !! url with
  | Some _ => db
  | None => {| cache := cache db; processed_urls := <[url := now]> (processed_urls db) |}
  end.

(** The dates that SQLite's date functions can give: from Julian day 0
    (noon of 24 November 4714 BC) to 9999-12-31 23:59:59. *)
Definition min_datetime : Z := -210866760000.
Definition max_datetime : Z := 253402300799.

Definition valid_datetime (t : Z) : bool :=
  (min_datetime <=? t) && (t <=? max_datetime).

(** [datetime('now', '+h hours')] as the f-string of [cache_response]
    builds it: for a negative [h] the modifier reads [+-h hours], which
    SQLite does not accept, and the value is NULL; it is NULL as well when
    the shifted date lies outside the dates that SQLite can give. *)
Definition expiry_after (now expiry_hours : Z) : option Z :=
  if expiry_hours <? 0 then None
  else if valid_datetime (now + 3600 * expiry_hours) then Some (now + 3600 * expiry_hours)
  else None.

(** [cache_response]: [INSERT OR REPLACE INTO cache (url, content, expiry)
    VALUES (?, ?, datetime('now', '+h hours'))]. *)
Definition cache_response (url body : string) (expiry_hours : Z) (now : Z)
           (db : SQLiteStorage) : SQLiteStorage :=
  {| cache := <[url := {| content := body; scraped_at := now;
                          expiry := expiry_after now expiry_hours |}]> (cache db);
     processed_urls := processed_urls db |}.

(** [get_cached_response]: [SELECT content FROM cache WHERE url = ? AND
    expiry > datetime('now')]; a NULL expiry never compares greater. *)
Definition get_cached_response (url : string) (now : Z) (db : SQLiteStorage) : option string :=
  match cache db !! url with
  | Some row =>
      match expiry row with
      | Some e => if now <? e then Some (content row) else None
      | None => None
      end
  | None => None
  end.

(** The rows that [DELETE FROM cache WHERE expiry <= datetime('now')]
    leaves in place. *)
Definition survives (now : Z) (row : cache_row) : bool :=
  match expiry row with
  | Some e => negb (e <=? now)
  | None => true
  end.

(** [cleanup_expired_cache] *)
Definition cleanup_expired_cache (now : Z) (db : SQLiteStorage) : SQLiteStorage :=
  {| cache := filter (fun kv => survives now (snd kv) = true) (cache db);
     processed_urls := processed_urls db |}.

(** The key under which the store files the response to a request: the
    interface of [cache_response] and [get_cached_response] takes the URL
    only, and [url] is the primary key of the table. *)
Definition row_key (url method : string) : string := url.

End Storage.

(** ** LLM.fw_basic_call (src/agents/llm_calls.py): the returned text *)

Module LLM.

Definition think_open : string := "<think>".
Definition think_close : string := "</think>".

(** The fallback branch: the text after the first closing tag, without
    its leading newlines. *)
Definition visible_content (content : string) : string :=
  let end_idx := PyStr.find content think_close in
  PyStr.lstrip_nl (PyStr.slice_from content (end_idx + PyStr.len think_close)).

(** [content[start_idx:end_idx]] of the fallback branch. *)
Definition extracted_reasoning (content : string) : string :=
  let start_idx := PyStr.find content think_open + PyStr.len think_open in
  let end_idx := PyStr.find content think_close in
  PyStr.slice content start_idx end_idx.

(** The guard of the fallback branch, apart from the test on the
    reasoning already received. *)
Definition has_think_tags (content : string) : bool :=
  PyStr.contains think_open content && PyStr.contains think_close content.

(** The non-streaming path: what is returned for a message whose
    ["content"] is [content] and whose ["reasoning_content"] is
    [reasoning_content]. *)
Definition fw_basic_call (content : string) (reasoning_content : option string) : string :=
  if negb (truthy reasoning_content) && has_think_tags content
  then visible_content content
  else content.

(** One server-sent event of the streaming path: the
    ["reasoning_content"] and ["content"] entries of its delta. *)
Definition delta : Type := option string * option string.

(** [final_reasoning_chunks] and [final_text_chunks] after the loop: the
    truthy entries, in order. *)
Definition final_reasoning_chunks (deltas : list delta) : list string :=
  omap (fun d => if truthy (fst d) then fst d else None) deltas.

Definition final_text_chunks (deltas : list delta) : list string :=
  omap (fun d => if truthy (snd d) then snd d else None) deltas.

(** The streaming path. *)
Definition fw_basic_call_stream (deltas : list delta) : string :=
  let combined_visible := PyStr.join (final_text_chunks deltas) in
  if bool_decide (final_reasoning_chunks deltas = []) && has_think_tags combined_visible
  then visible_content combined_visible
  else combined_visible.

End LLM.

(** ** Notions used in the statements *)

(** [w'] has the session cache, the failed-URL set and the browser switch
    of [w]. *)
Definition same_books (w w' : World) : Prop :=
  session_cache (scraper w') = session_cache (scraper w) /\
  failed_urls (scraper w') = failed_urls (scraper w) /\
  use_browser (scraper w') = use_browser (scraper w).

(** [m] never writes the session cache, the failed-URL set or the
    browser switch, whatever it returns or raises. *)
Definition frames {A} (m : M A) : Prop :=
  forall w r w', m w = (r, w') -> same_books w w'.

(** The three ways in which the cascade can end after a cache miss:
    a body, stored under [key]; exhaustion, with [url] recorded; or an
    exception, with nothing recorded. *)
Definition cascade_post (key url : string) (w : World) (r : result (option string))
           (w' : World) : Prop :=
  (exists body, r = Ok (Some body) /\ PyStr.truthy body = true /\
     session_cache (scraper w') = <[key := body]> (session_cache (scraper w)) /\
     failed_urls (scraper w') = failed_urls (scraper w))
  \/ (r = Ok None /\
      session_cache (scraper w') = session_cache (scraper w) /\
      failed_urls (scraper w') = failed_urls (scraper w) ∪ {[ url ]})
  \/ (exists e, r = Raise e /\
      session_cache (scraper w') = session_cache (scraper w) /\
      failed_urls (scraper w') = failed_urls (scraper w)).

(** Two instances that agree on everything but the session cache. *)
Definition same_but_cache (s1 s2 : BaseScraper) : Prop :=
  use_browser s1 = use_browser s2 /\
  proxy_rotator s1 = proxy_rotator s2 /\
  tls_session_proxies s1 = tls_session_proxies s2 /\
  failed_urls s1 = failed_urls s2 /\
  success_count s1 = success_count s2 /\
  fail_count s1 = fail_count s2.

Definition alike (w1 w2 : World) : Prop :=
  same_but_cache (scraper w1) (scraper w2) /\ log w1 = log w2.

(** [m] does not look at the session cache: from worlds that are alike it
    gives the same outcome and leads to worlds that are alike. *)
Definition blind {A} (m : M A) : Prop :=
  forall w1 w2, alike w1 w2 ->
    fst (m w1) = fst (m w2) /\ alike (snd (m w1)) (snd (m w2)).

(** The world [w] with its session cache replaced. *)
Definition put_cache (c : gmap string string) (w : World) : World :=
  {| scraper := with_cache c (scraper w); log := log w |}.

(** The fallback is never answered with status 200. *)
Definition httpx_never_ok (net : Network) : Prop :=
  forall t url method proxy,
    match httpx_send net t url method proxy with
    | Response status _ => status <> 200
    | Failure => True
    end.

(** ** Sample networks and instances *)

(** Every request gets a non-success status; no proxy answers. *)
Definition net_down : Network :=
  {| proxy_alive := fun _ _ => false;
     tls_send := fun _ _ _ _ => Response 500 "";
     cloudscraper_get := fun _ _ _ => Response 503 "";
     flaresolverr_post := fun _ _ _ => None;
     browser_page := fun _ _ _ => None;
     httpx_send := fun _ _ _ _ => Response 503 "" |}.

(** The evasive client is answered 200 with body "X". *)
Definition net_ok : Network :=
  {| proxy_alive := fun _ _ => true;
     tls_send := fun _ _ _ _ => Response 200 "X";
     cloudscraper_get := fun _ _ _ => Response 503 "";
     flaresolverr_post := fun _ _ _ => None;
     browser_page := fun _ _ _ => None;
     httpx_send := fun _ _ _ _ => Response 503 "" |}.

(** The evasive client gets a 500 first and 403 from then on; the
    challenge bypass answers 200 with body "Y". *)
Definition net_challenge : Network :=
  {| proxy_alive := fun _ _ => true;
     tls_send := fun t _ _ _ => if (t =? 0)%nat then Response 500 "" else Response 403 "";
     cloudscraper_get := fun _ _ _ => Response 200 "Y";
     flaresolverr_post := fun _ _ _ => None;
     browser_page := fun _ _ _ => None;
     httpx_send := fun _ _ _ _ => Response 503 "" |}.

(** The evasive client is refused at first (403) and answered 200 with
    body "X1" from then on; cloudscraper is refused; FlareSolverr delivers
    "X2". *)
Definition net_overlap : Network :=
  {| proxy_alive := fun _ _ => true;
     tls_send := fun t _ _ _ => if (t =? 0)%nat then Response 403 "" else Response 200 "X1";
     cloudscraper_get := fun _ _ _ => Response 503 "";
     flaresolverr_post := fun _ _ _ => Some "X2";
     browser_page := fun _ _ _ => None;
     httpx_send := fun _ _ _ _ => Response 503 "" |}.

(** A fresh instance without proxies and without browser, nothing logged. *)
Definition fresh : World :=
  {| scraper := new_scraper false []; log := [] |}.

(** The same with one cache entry seeded. *)
Definition seeded : World :=
  {| scraper := with_cache {[ cache_key "http://example/ok" "GET" := "X" ]}
                           (new_scraper false []);
     log := [] |}.

(** The proxy answers the first health check only; requests sent through
    a proxy fail, requests sent directly are answered. *)
Definition net_flaky : Network :=
  {| proxy_alive := fun t _ => (t =? 0)%nat;
     tls_send := fun _ _ _ proxies =>
                   match proxies with
                   | Some _ => Failure
                   | None => Response 200 "X"
                   end;
     cloudscraper_get := fun _ _ _ => Response 503 "";
     flaresolverr_post := fun _ _ _ => None;
     browser_page := fun _ _ _ => None;
     httpx_send := fun _ _ _ _ => Response 503 "" |}.

(** An address configured twice. *)
Definition twin : string := "http://proxy.example:8080".

(** The batch of the specification's example: "b" always fails. *)
Definition scrape_b_fails (i : nat) (url : string) : result (option string) :=
  if String.eqb url "b" then Raise TransportError else Ok (Some ("body_" +:+ url)).

(** Proxies are alive; the evasive client cannot reach the page "a" and
    is answered 200 with body "B" for every other URL; nothing else
    succeeds. *)
Definition net_a_fails : Network :=
  {| proxy_alive := fun _ _ => true;
     tls_send := fun _ url _ _ =>
                   if String.eqb url "http://example/a" then Failure else Response 200 "B";
     cloudscraper_get := fun _ _ _ => Response 503 "";
     flaresolverr_post := fun _ _ _ => None;
     browser_page := fun _ _ _ => None;
     httpx_send := fun _ _ _ _ => Response 503 "" |}.

(** A new instance with two proxies configured. *)
Definition two_proxies : World :=
  {| scraper := new_scraper false ["http://p1:8080"; "http://p2:8080"]; log := [] |}.

(** The tasks of a batch with one slot run one after the other, in the
    order of [urls], on the one instance: the task at position [i] finds
    the instance as the tasks before it left it.  [scrape_in_turn] is the
    outcome of that task for a [scrape] that hands back the page that
    [self.fetch(url)] returns. *)
Definition scrape_in_turn (net : Network) (w : World) (urls : list string)
           (i : nat) (url : string) : result (option string) :=
  fst (fetch net url "GET" (fetch_all ((fun u => (net, u, "GET")) <$> take i urls) w)).

(** Two newlines, then the answer. *)
Definition sample_payload : string :=
  String PyStr.newline (String PyStr.newline "ANSWER").

(** * Further embedding *)

(** ** Histories of a rotator *)

(** What a caller can do to a [ProxyRotator]. *)
Inductive rotator_op : Type :=
| DoGetProxy
| DoMarkFailed (proxy : string)
| DoTestProxies.

(** Runs the operations in turn; the outcomes of the [get_proxy] calls are
    collected in order. *)
Fixpoint run_ops (net : Network) (ops : list rotator_op) (r : ProxyRotator)
         (log : list event)
  : list (result (option string)) * ProxyRotator * list event :=
  match ops with
  | [] => ([], r, log)
  | DoGetProxy :: ops' =>
      let '(res, r1, log1) := Rotator.get_proxy net r log in
      let '(rs, r2, log2) := run_ops net ops' r1 log1 in
      (res :: rs, r2, log2)
  | DoMarkFailed p :: ops' => run_ops net ops' (Rotator.mark_failed p r) log
  | DoTestProxies :: ops' =>
      let '(r1, log1) := Rotator.test_proxies net r log in
      run_ops net ops' r1 log1
  end.

(** Every member of the rotation is a configured, non-empty address. *)
Definition rotation_sound (r : ProxyRotator) : Prop :=
  forall p, p ∈ working_proxies r -> p ∈ proxies r /\ PyStr.truthy p = true.

(** ** Counting the requests of a run *)

(** The number of events of [l] that [k] selects. *)
Fixpoint tally (k : event -> bool) (l : list event) : nat :=
  match l with
  | [] => 0
  | ev :: l' => (if k ev then 1 else 0) + tally k l'
  end.

Definition is_proxy_test (ev : event) : bool :=
  match ev with ProxyTest _ => true | _ => false end.

Definition is_tls (ev : event) : bool :=
  match ev with TlsRequest _ _ _ => true | _ => false end.

Definition is_cloudscraper (ev : event) : bool :=
  match ev with CloudscraperGet _ _ => true | _ => false end.

Definition is_flaresolverr (ev : event) : bool :=
  match ev with FlareSolverr _ _ => true | _ => false end.

Definition is_browser (ev : event) : bool :=
  match ev with BrowserSession _ _ => true | _ => false end.

Definition is_httpx (ev : event) : bool :=
  match ev with HttpxRequest _ _ _ => true | _ => false end.

(** The event is a proxy test, or a request for [url]; a request of the
    TLS client or of httpx has to carry [method] as well.  The other
    strategies are called with the URL only and send a GET. *)
Definition about (url method : string) (ev : event) : bool :=
  match ev with
  | ProxyTest _ => true
  | TlsRequest u m _ => String.eqb u url && String.eqb m method
  | CloudscraperGet u _ => String.eqb u url
  | FlareSolverr u _ => String.eqb u url
  | BrowserSession u _ => String.eqb u url
  | HttpxRequest u m _ => String.eqb u url && String.eqb m method
  end.

(** The proxy address an event involves, if any. *)
Definition proxy_of (ev : event) : option string :=
  match ev with
  | ProxyTest p => Some p
  | TlsRequest _ _ session_proxies => session_proxies
  | CloudscraperGet _ proxy => proxy
  | FlareSolverr _ proxy => proxy
  | BrowserSession _ proxy => proxy
  | HttpxRequest _ _ proxy => proxy
  end.

(** From [w] to [w'] the log was extended, by at most [n] events that [k]
    selects. *)
Definition grows (k : event -> bool) (n : nat) (w w' : World) : Prop :=
  exists added, log w' = (added ++ log w)%list /\ (tally k added <= n)%nat.

(** [m] only extends the log, by at most [n] events that [k] selects,
    whatever it returns or raises. *)
Definition within {A} (k : event -> bool) (n : nat) (m : M A) : Prop :=
  forall w, grows k n w (snd (m w)).

(** ** The proxies an instance uses *)

(** The address, if there is one, is a member of [cfg]. *)
Definition known (cfg : list string) (p : option string) : Prop :=
  forall q, p = Some q -> q ∈ cfg.

(** The rotator of the instance, if it has one, is configured with [cfg]
    and rotates members of [cfg]; the proxy installed in the TLS session is
    a member of [cfg]. *)
Definition scraper_from (cfg : list string) (s : BaseScraper) : Prop :=
  (forall r, proxy_rotator s = Some r -> proxies r = cfg /\ rotation_sound r) /\
  known cfg (tls_session_proxies s).

(** The same of a world, and every event logged so far involves no address
    outside [cfg]. *)
Definition proxies_from (cfg : list string) (w : World) : Prop :=
  scraper_from cfg (scraper w) /\
  Forall (fun ev => known cfg (proxy_of ev)) (log w).

(** [m] maintains [I], whatever it returns or raises. *)
Definition keeps {A} (I : World -> Prop) (m : M A) : Prop :=
  forall w, I w -> I (snd (m w)).

(** What [m] returns from a world in [I] is [good]. *)
Definition yields {A} (I : World -> Prop) (good : A -> Prop) (m : M A) : Prop :=
  forall w a, I w -> fst (m w) = Ok a -> good a.

(** The rotator of the instance is past the end of a non-empty rotation. *)
Definition stuck (s : BaseScraper) : bool :=
  match proxy_rotator s with
  | Some r =>
      match working_proxies r with
      | [] => false
      | _ :: _ => (length (working_proxies r) <=? current_index r)%nat
      end
  | None => false
  end.

(** The instance has a rotator, and [p] is in its failed set. *)
Definition marked (p : string) (w : World) : Prop :=
  exists r, proxy_rotator (scraper w) = Some r /\ p ∈ failed_proxies r.

(** Proxies are alive; what the TLS client sends through a proxy fails,
    and nothing else succeeds either. *)
Definition net_proxied_fail : Network :=
  {| proxy_alive := fun _ _ => true;
     tls_send := fun _ _ _ proxies =>
                   match proxies with
                   | Some _ => Failure
                   | None => Response 500 ""
                   end;
     cloudscraper_get := fun _ _ _ => Response 503 "";
     flaresolverr_post := fun _ _ _ => None;
     browser_page := fun _ _ _ => None;
     httpx_send := fun _ _ _ _ => Response 503 "" |}.

(** A new instance with two proxies configured, after one [fetch] against
    [net_proxied_fail]. *)
Definition after_failed_fetch : World :=
  snd (fetch net_proxied_fail "http://example/a" "GET"
             {| scraper := new_scraper false ["http://p1:8080"; "http://p2:8080"];
                log := [] |}).

(** The cache holds non-empty bodies under keys of requests in [P]; the
    failed-URL set holds URLs of requests in [P]. *)
Definition books_from (P : string -> string -> Prop) (w : World) : Prop :=
  (forall key body, session_cache (scraper w) !! key = Some body ->
     PyStr.truthy body = true /\ exists url method, P url method /\ key = cache_key url method) /\
  (forall url, url ∈ failed_urls (scraper w) -> exists method, P url method).

(** ** LLM: the streaming paths (src/agents/llm_calls.py) *)

(** The message that a stream of deltas carries: its content pieces, and
    its reasoning pieces, put together. *)
Definition streamed_content (deltas : list LLM.delta) : string :=
  PyStr.join ((fun d => default "" (snd d)) <$> deltas).

Definition streamed_reasoning (deltas : list LLM.delta) : string :=
  PyStr.join ((fun d => default "" (fst d)) <$> deltas).

(** The accumulation of streamed tool calls in [fw_tool_call].  The
    entries of a fragment, where present, are strings, and ["index"] is an
    integer, as the streaming format has them. *)
Module ToolCalls.

(** [tc["function"]] of a fragment. *)
Record function_delta : Type := {
  d_name : option string;
  d_arguments : option string
}.

(** One element [tc] of [delta["tool_calls"]]. *)
Record tool_call_delta : Type := {
  d_index : option Z;
  d_id : option string;
  d_type : option string;
  d_function : option function_delta
}.

(** [tool_calls_accumulated[idx]["function"]] *)
Record function_acc : Type := {
  name : option string;
  arguments : option string
}.

(** An element of [tool_calls_accumulated]. *)
Record tool_call : Type := {
  id : option string;
  type : option string;
  function : option function_acc
}.

(** The empty dictionary appended by the [while] loop. *)
Definition blank : tool_call := {| id := None; type := None; function := None |}.

(** [while len(tool_calls_accumulated) <= idx: ...append({})] *)
Definition pad (acc : list tool_call) (idx : Z) : list tool_call :=
  (acc ++ replicate (Z.to_nat (idx + 1) - length acc) blank)%list.

(** The position that [acc[idx]] denotes; a negative index counts from the
    end, and [None] stands for [IndexError]. *)
Definition slot (acc : list tool_call) (idx : Z) : option nat :=
  let n := Z.of_nat (length acc) in
  if 0 <=? idx then (if idx <? n then Some (Z.to_nat idx) else None)
  else if 0 <=? n + idx then Some (Z.to_nat (n + idx)) else None.

(** The updates of ["function"]: the name is replaced, the arguments are
    appended to. *)
Definition merge_function (f : option function_acc) (d : function_delta) : function_acc :=
  let f0 := default {| name := None; arguments := None |} f in
  {| name := match d_name d with Some n => Some n | None => name f0 end;
     arguments := match d_arguments d with
                  | Some a => Some (default "" (arguments f0) +:+ a)
                  | None => arguments f0
                  end |}.

(** The updates of one accumulated entry by one fragment. *)
Definition merge (t : tool_call) (d : tool_call_delta) : tool_call :=
  {| id := match d_id d with Some x => Some x | None => id t end;
     type := match d_type d with Some x => Some x | None => type t end;
     function := match d_function d with
                 | Some fd => Some (merge_function (function t) fd)
                 | None => function t
                 end |}.

(** Whether the fragment leads to a subscription [acc[idx]]. *)
Definition touches (d : tool_call_delta) : bool :=
  match d_id d, d_type d, d_function d with
  | None, None, None => false
  | _, _, _ => true
  end.

(** The body of [for tc in delta["tool_calls"]]. *)
Definition accumulate (acc : list tool_call) (d : tool_call_delta) : result (list tool_call) :=
  match d_index d with
  | None => Ok acc
  | Some idx =>
      let acc1 := pad acc idx in
      if touches d then
        match slot acc1 idx with
        | Some i => Ok (alter (fun t => merge t d) i acc1)
        | None => Raise IndexError
        end
      else Ok acc1
  end.

(** The fragments of the whole stream, in order. *)
Fixpoint accumulate_all (acc : list tool_call) (ds : list tool_call_delta)
  : result (list tool_call) :=
  match ds with
  | [] => Ok acc
  | d :: ds' =>
      match accumulate acc d with
      | Ok acc' => accumulate_all acc' ds'
      | Raise e => Raise e
      end
  end.

(** The fragments sent for position [i], and their argument pieces. *)
Definition fragments_for (i : nat) (ds : list tool_call_delta) : list tool_call_delta :=
  filter (fun d => d_index d = Some (Z.of_nat i)) ds.

Definition argument_pieces (ds : list tool_call_delta) : list string :=
  omap (fun d => d_function d ≫= d_arguments) ds.

(** The number of entries that the indices of the stream call for. *)
Definition entries_needed (ds : list tool_call_delta) : nat :=
  foldr (fun d n => match d_index d with
                    | Some idx => Nat.max n (Z.to_nat (idx + 1))
                    | None => n
                    end) 0%nat ds.

(** Every index of the stream is non-negative. *)
Definition indices_nonnegative (ds : list tool_call_delta) : Prop :=
  Forall (fun d => forall idx, d_index d = Some idx -> 0 <= idx) ds.

End ToolCalls.

(** A call streamed in two fragments, its arguments split in two. *)
Definition sample_fragments : list ToolCalls.tool_call_delta :=
  [ {| ToolCalls.d_index := Some 0; ToolCalls.d_id := Some "call_1";
       ToolCalls.d_type := Some "function";
       ToolCalls.d_function :=
         Some {| ToolCalls.d_name := Some "search"; ToolCalls.d_arguments := Some "{q:" |} |};
    {| ToolCalls.d_index := Some 0; ToolCalls.d_id := None; ToolCalls.d_type := None;
       ToolCalls.d_function :=
         Some {| ToolCalls.d_name := None; ToolCalls.d_arguments := Some "1}" |} |} ].

(** A fragment that carries an id for position [idx] only. *)
Definition id_fragment (idx : Z) (i : string) : ToolCalls.tool_call_delta :=
  {| ToolCalls.d_index := Some idx; ToolCalls.d_id := Some i;
     ToolCalls.d_type := None; ToolCalls.d_function := None |}.

(** ** UniversalScriptScraper.scrape (src/scrapers/script_scrapers.py) *)

Module Universal.

Section Scrape.

(** The scraped record ([Dict[str, Any]]); the three scrapers return
    [None] or a dictionary with four keys, which is truthy. *)
Context {D : Type}.

(** A scraper of [self.scrapers]: its name, and what a call of its
    [scrape] gives in the run at hand. *)
Record Scraper : Type := {
  name : string;
  scrape : string -> result (option D)
}.

(** [['springfield', '8flix', 'subslike']] *)
Definition domains : list string := ["springfield"; "8flix"; "subslike"].

(** [any(domain in url for domain in [...])] *)
Definition any_domain (url : string) : bool :=
  existsb (fun domain => PyStr.contains domain url) domains.

(** The first loop: the scraper whose [scrape] is returned, if any. *)
Fixpoint first_match (scrapers : list Scraper) (url : string) : option Scraper :=
  match scrapers with
  | [] => None
  | scraper :: rest =>
      if PyStr.contains (name scraper) url || any_domain url then Some scraper
      else first_match rest url
  end.

(** The second loop, "try all scrapers": the names of the scrapers
    asked, in order, and the outcome. *)
Fixpoint try_all (scrapers : list Scraper) (url : string)
  : list string * result (option D) :=
  match scrapers with
  | [] => ([], Ok None)
  | scraper :: rest =>
      match scrape scraper url with
      | Ok (Some r) => ([name scraper], Ok (Some r))
      | Ok None => let '(asked, r) := try_all rest url in (name scraper :: asked, r)
      | Raise e => ([name scraper], Raise e)
      end
  end.

(** [UniversalScriptScraper.scrape]: the scrapers asked, and the outcome. *)
Definition universal_scrape (scrapers : list Scraper) (url : string)
  : list string * result (option D) :=
  match first_match scrapers url with
  | Some scraper => ([name scraper], scrape scraper url)
  | None => try_all scrapers url
  end.

(** [self.scrapers] as [__init__] builds it, given the behaviour of the
    three [scrape] methods. *)
Definition scrapers_of (springfield eightflix subslikescript : string -> result (option D))
  : list Scraper :=
  [ {| name := "springfield"; scrape := springfield |};
    {| name := "8flix"; scrape := eightflix |};
    {| name := "subslikescript"; scrape := subslikescript |} ].

End Scrape.

End Universal.

(** ** BaseScraper._detect_captcha (src/scrapers/base_scraper.py) *)

Section DetectCaptcha.

(** [str.lower]. *)
Variable lower : string -> string.

Definition captcha_indicators : list string :=
  ["g-recaptcha"; "h-captcha"; "cf-turnstile"; "captcha"; "challenge-form";
   "/recaptcha/api"; "hcaptcha.com"].

(** [any(indicator in html.lower() for indicator in captcha_indicators)] *)
Definition _detect_captcha (html : string) : bool :=
  existsb (fun indicator => PyStr.contains indicator (lower html)) captcha_indicators.

End DetectCaptcha.

(** ** Scene (src/models/scene.py) *)

Module Scenes.

Record DialogueLine : Type := {
  speaker : string;
  text : string;
  timestamp : option string;
  context : option string
}.

(** What [raw_text] is given as: a string, [None], or -- from the
    raw-script branch of the extractor -- a list of lines. *)
Inductive raw : Type :=
| Text (s : string)
| Lines (l : list string)
| Null.

(** A [float], as a fraction. *)
Definition score : Type := (Z * positive)%type.

(** The dataclass [Scene]; [extraction_date] in seconds. *)
Record Scene : Type := {
  scene_id : string;
  character : string;
  show : string;
  season : option Z;
  episode : option Z;
  scene_number : option Z;
  location : option string;
  participants : list string;
  dialogue : list DialogueLine;
  actions : list string;
  duration : option Z;
  source_url : string;
  extraction_date : Z;
  raw_text : raw;
  confidence_score : score
}.

(** An [Optional[int]] inside an f-string. *)
Definition fmt (x : option Z) : string :=
  match x with
  | Some n => pretty n
  | None => "None"
  end.

(** [f"{self.show}_{self.season}_{self.episode}_{self.scene_number}_{self.character}"] *)
Definition unique_str (show : string) (season episode scene_number : option Z)
           (character : string) : string :=
  show +:+ "_" +:+ fmt season +:+ "_" +:+ fmt episode +:+ "_" +:+ fmt scene_number
       +:+ "_" +:+ character.

(** [Scene._generate_id]: the first twelve digits of the digest. *)
Definition _generate_id (s : Scene) : string :=
  PyStr.take 12 (MD5.hexdigest
                   (unique_str (show s) (season s) (episode s) (scene_number s) (character s))).

Definition with_scene_id (i : string) (s : Scene) : Scene :=
  {| scene_id := i; character := character s; show := show s; season := season s;
     episode := episode s; scene_number := scene_number s; location := location s;
     participants := participants s; dialogue := dialogue s; actions := actions s;
     duration := duration s; source_url := source_url s;
     extraction_date := extraction_date s; raw_text := raw_text s;
     confidence_score := confidence_score s |}.

(** [Scene.__post_init__], which the constructor runs. *)
Definition __post_init__ (s : Scene) : Scene :=
  if PyStr.truthy (scene_id s) then s else with_scene_id (_generate_id s) s.

End Scenes.

(** ** The scenes table and StorageManager (src/storage/database.py) *)

Module SceneStore.
Import Scenes.

(** Table [scenes], keyed by its primary key [scene_id], beside the
    tables of [Storage].  A row is kept as the [Scene] that
    [_row_to_scene] reads back from it. *)
Record Store : Type := {
  scenes : gmap string Scene;
  tables : Storage.SQLiteStorage
}.

Definition empty : Store := {| scenes := ∅; tables := Storage.empty |}.

(** An integer parameter is bound as a signed 64-bit integer; [sqlite3]
    raises [OverflowError] for a Python [int] outside that range. *)
Definition int64 (x : option Z) : bool :=
  match x with
  | Some n => (- 2 ^ 63 <=? n) && (n <? 2 ^ 63)
  | None => true
  end.

(** [sqlite3] binds [None], integers of 64 bits, floats, strings and
    bytes; for any other parameter [execute] raises.  The parameters of
    the [INSERT] are strings, JSON strings and a float, except [season],
    [episode], [scene_number] and [duration], which are integers or
    [None], and [raw_text], which is passed as it is. *)
Definition bindable (scene : Scene) : bool :=
  match raw_text scene with
  | Lines _ => false
  | Text _ | Null =>
      int64 (season scene) && int64 (episode scene) && int64 (scene_number scene)
      && int64 (duration scene)
  end.

(** [SQLiteStorage.save_scene]: [INSERT OR REPLACE INTO scenes]; any
    exception is caught and answered with [False].  [db_ok] says whether
    the database carries out the statement in the run at hand, once its
    parameters are bound (the file can be written, is not locked, and the
    row is within the size limits of the library). *)
Definition save_scene (db_ok : bool) (scene : Scene) (st : Store) : bool * Store :=
  if bindable scene && db_ok
  then (true, {| scenes := <[scene_id scene := scene]> (scenes st); tables := tables st |})
  else (false, st).

(** [SQLiteStorage.save_batch]; [db_ok i] is for the scene at position
    [i + from]. *)
Fixpoint save_batch_from (db_ok : nat -> bool) (from : nat) (batch : list Scene) (st : Store)
  : nat * Store :=
  match batch with
  | [] => (0%nat, st)
  | scene :: rest =>
      let '(saved, st1) := save_scene (db_ok from) scene st in
      let '(saved_count, st2) := save_batch_from db_ok (S from) rest st1 in
      ((if saved then 1 else 0) + saved_count, st2)%nat
  end.

Definition save_batch (db_ok : nat -> bool) (batch : list Scene) (st : Store) : nat * Store :=
  save_batch_from db_ok 0 batch st.

(** [SQLiteStorage.get_scene] *)
Definition get_scene (scene_id : string) (st : Store) : option Scene :=
  scenes st !! scene_id.

(** [StorageManager.save_scene]: a saved scene marks its source URL as
    processed, at time [now]. *)
Definition manager_save_scene (db_ok : bool) (now : Z) (scene : Scene) (st : Store)
  : bool * Store :=
  let '(success, st1) := save_scene db_ok scene st in
  if success
  then (true, {| scenes := scenes st1;
                 tables := Storage.mark_processed (source_url scene) now (tables st1) |})
  else (false, st1).

(** [StorageManager.is_duplicate] *)
Definition is_duplicate (url : string) (st : Store) : bool :=
  Storage.is_processed url (tables st).

End SceneStore.

(** ** CharacterSceneExtractor (src/scrapers/script_scrapers.py) *)

Module Extractor.

(** An entry of a dialogue list: [{'character': ..., 'lines': [...]}] from
    8flix, [{'character': ..., 'text': ...}] from subslikescript. *)
Record dialogue_entry : Type := {
  e_character : option string;
  e_lines : option (list string);
  e_text : option string
}.

(** A scene as [EightFlixScraper._parse_transcript] builds it. *)
Record structured_scene : Type := {
  s_location : string;
  s_dialogue : list dialogue_entry;
  s_actions : list string
}.

(** What a scraper returns: ['url'], ['title'], ['source'] and one of
    ['script'], ['scenes'], ['dialogue']. *)
Inductive script_body : Type :=
| Script (script : string)
| StructuredScenes (scenes : list structured_scene)
| Dialogue (dialogue : list dialogue_entry).

Record script_data : Type := {
  url : string;
  title : string;
  source : string;
  body : script_body
}.

(** A dictionary appended to [scenes] by [extract_character_scenes]; a
    key that a branch does not set is [None]. *)
Record scene_data : Type := {
  sd_character : string;
  sd_location : option string;
  sd_dialogue : option (list dialogue_entry);
  sd_actions : option (list string);
  sd_extracted_text : option (list string);
  sd_source : string;
  sd_url : string;
  sd_title : string
}.

(** An entry of [TARGET_CHARACTERS] (src/settings.py). *)
Record character_info : Type := {
  names : list string;
  show : string;
  context_clues : list string
}.

Definition TARGET_CHARACTERS : list (string * character_info) :=
  [ ("tywin_lannister",
     {| names := ["Tywin"; "Lord Tywin"; "Tywin Lannister"; "Lord Lannister"];
        show := "Game of Thrones";
        context_clues := ["Father"; "my lord"] |});
    ("chuck_mcgill",
     {| names := ["Chuck"; "Charles McGill"; "Charles"; "McGill"];
        show := "Better Call Saul";
        context_clues := ["Brother"; "Chuck"] |});
    ("general_partagaz",
     {| names := ["Partagaz"; "Major Partagaz"; "General"];
        show := "Andor";
        context_clues := ["General"; "Sir"] |});
    ("logan_roy",
     {| names := ["Logan"; "Logan Roy"; "Mr. Roy"];
        show := "Succession";
        context_clues := ["Dad"; "Father"; "Pop"] |}) ].

(** [TARGET_CHARACTERS.get(character_key)] *)
Fixpoint lookup_character (table : list (string * character_info)) (character_key : string)
  : option character_info :=
  match table with
  | [] => None
  | (k, info) :: rest =>
      if String.eqb k character_key then Some info else lookup_character rest character_key
  end.

(** [text.split(sep)] for a one-character separator. *)
Fixpoint split (sep : ascii) (s : string) : list string :=
  match s with
  | EmptyString => [EmptyString]
  | String a s' =>
      if Ascii.eqb a sep then EmptyString :: split sep s'
      else match split sep s' with
           | piece :: rest => String a piece :: rest
           | [] => [String a EmptyString]
           end
  end.

Section Extract.

(** [str.lower]. *)
Variable lower : string -> string.

(** [any(name.lower() in s.lower() for name in names)] *)
Definition mentions (names : list string) (s : string) : bool :=
  existsb (fun name => PyStr.contains (lower name) (lower s)) names.

(** [lines[start:end]] around position [i], with [context_window = 10]. *)
Definition window (lines : list string) (i : nat) : list string :=
  let start := (i - 10)%nat in
  let stop := Nat.min (length lines) (i + 10 + 1) in
  take (stop - start) (drop start lines).

(** [CharacterSceneExtractor._extract_from_raw_script] *)
Definition _extract_from_raw_script (text : string) (names : list string) : list string :=
  let lines := split PyStr.newline text in
  concat (imap (fun i line => if mentions names line then window lines i else []) lines).

(** [CharacterSceneExtractor._scene_contains_character] *)
Definition _scene_contains_character (scene : structured_scene) (names : list string) : bool :=
  existsb (fun d => mentions names (default "" (e_character d))) (s_dialogue scene)
  || existsb (fun action => mentions names action) (s_actions scene)
  || mentions names (s_location scene).

(** [CharacterSceneExtractor.extract_character_scenes] *)
Definition extract_character_scenes (data : script_data) (character_key : string)
  : list scene_data :=
  match lookup_character TARGET_CHARACTERS character_key with
  | None => []
  | Some info =>
      let character_names := names info in
      let base := {| sd_character := character_key; sd_location := None;
                     sd_dialogue := None; sd_actions := None;
                     sd_extracted_text := None; sd_source := source data;
                     sd_url := url data; sd_title := title data |} in
      match body data with
      | StructuredScenes scenes =>
          (fun scene =>
             {| sd_character := character_key;
                sd_location := Some (s_location scene);
                sd_dialogue := Some (s_dialogue scene);
                sd_actions := Some (s_actions scene);
                sd_extracted_text := None; sd_source := source data;
                sd_url := url data; sd_title := title data |})
          <$> List.filter (fun scene => _scene_contains_character scene character_names) scenes
      | Dialogue dialogue =>
          let relevant_dialogue :=
            List.filter (fun entry => mentions character_names (default "" (e_character entry)))
                        dialogue in
          match relevant_dialogue with
          | [] => []
          | _ :: _ =>
              [ {| sd_character := character_key; sd_location := None;
                   sd_dialogue := Some relevant_dialogue; sd_actions := None;
                   sd_extracted_text := None; sd_source := source data;
                   sd_url := url data; sd_title := title data |} ]
          end
      | Script script_text =>
          if mentions character_names script_text then
            match _extract_from_raw_script script_text character_names with
            | [] => []
            | extracted =>
                [ {| sd_character := character_key; sd_location := None;
                     sd_dialogue := None; sd_actions := None;
                     sd_extracted_text := Some extracted; sd_source := source data;
                     sd_url := url data; sd_title := title data |} ]
            end
          else []
      end
  end.

End Extract.

End Extractor.

(** ** ExtractionPipeline (src/main.py) *)

Module Pipeline.
Import Scenes SceneStore Extractor.

(** [self.stats] *)
Record stats : Type := {
  urls_processed : nat;
  scenes_extracted : nat;
  errors : nat
}.

(** [' '.join(lines)] *)
Fixpoint join_spaces (lines : list string) : string :=
  match lines with
  | [] => ""
  | [l] => l
  | l :: rest => l +:+ " " +:+ join_spaces rest
  end.

(** The [DialogueLine] that [_create_scene_object] makes of an entry. *)
Definition dialogue_line (d : dialogue_entry) : DialogueLine :=
  {| speaker := default "Unknown" (e_character d);
     text := match e_lines d with
             | Some lines => join_spaces lines
             | None => default "" (e_text d)
             end;
     timestamp := None;
     context := None |}.

Section Run.

Variable lower : string -> string.

(** [_parse_episode_info]: the season and episode that the regular
    expressions find in a title, or [(None, None)]. *)
Variable _parse_episode_info : string -> option Z * option Z.

(** [_extract_participants]: the speakers as [list(set(...))] orders them. *)
Variable _extract_participants : scene_data -> list string.

(** Whether the database accepts the [INSERT] for the scene at position
    [i] of [all_scenes], and [datetime.now()] at that point. *)
Variable db_ok : nat -> bool.
Variable clock : nat -> Z.

(** [ExtractionPipeline._create_scene_object]; [None] stands for the
    [KeyError] of [TARGET_CHARACTERS[character_key]]. *)
Definition _create_scene_object (now : Z) (sd : scene_data) (character_key : string)
  : option Scene :=
  match lookup_character TARGET_CHARACTERS character_key with
  | None => None
  | Some info =>
      let '(season, episode) := _parse_episode_info (sd_title sd) in
      Some (__post_init__
              {| scene_id := "";
                 character := character_key;
                 Scenes.show := Extractor.show info;
                 season := season;
                 episode := episode;
                 scene_number := None;
                 location := sd_location sd;
                 participants := _extract_participants sd;
                 dialogue := match sd_dialogue sd with
                             | Some ds => dialogue_line <$> ds
                             | None => []
                             end;
                 actions := default [] (sd_actions sd);
                 duration := None;
                 source_url := sd_url sd;
                 extraction_date := now;
                 raw_text := match sd_extracted_text sd with
                             | Some extracted => Lines extracted
                             | None => Text ""
                             end;
                 confidence_score := (1, 1%positive) |})
  end.

(** The first loop of [extract_character_scenes]: the scenes of the
    scripts that are not duplicates, and the number of such scripts. *)
Fixpoint collect (script_data : list script_data) (character_key : string) (st : Store)
  : list scene_data * nat :=
  match script_data with
  | [] => ([], 0%nat)
  | data :: rest =>
      let '(all_scenes, n) := collect rest character_key st in
      if is_duplicate (url data) st then (all_scenes, n)
      else ((extract_character_scenes lower data character_key ++ all_scenes)%list, S n)
  end.

(** The second loop: every scene is built and saved; the position in
    [all_scenes] starts at [i].  [None] stands for an exception. *)
Fixpoint save_loop (all_scenes : list scene_data) (character_key : string) (i : nat)
         (extracted : nat) (st : Store) : option (nat * Store) :=
  match all_scenes with
  | [] => Some (extracted, st)
  | sd :: rest =>
      match _create_scene_object (clock i) sd character_key with
      | None => None
      | Some scene =>
          let '(saved, st1) := manager_save_scene (db_ok i) (clock i) scene st in
          save_loop rest character_key (S i) (if saved then S extracted else extracted) st1
      end
  end.

(** [ExtractionPipeline.extract_character_scenes], given what
    [scrape_all_sources] found. *)
Definition extract_character_scenes (script_data : list script_data) (character_key : string)
           (s : stats) (st : Store) : option (stats * Store) :=
  match lookup_character TARGET_CHARACTERS character_key with
  | None => Some (s, st)
  | Some _ =>
      match script_data with
      | [] => Some (s, st)
      | _ :: _ =>
          let '(all_scenes, n) := collect script_data character_key st in
          match save_loop all_scenes character_key 0 (scenes_extracted s) st with
          | None => None
          | Some (extracted, st') =>
              Some ({| urls_processed := urls_processed s + n;
                       scenes_extracted := extracted;
                       errors := errors s |}, st')
          end
      end
  end.

End Run.

End Pipeline.

(** The id that the pipeline gives every scene of [character_key] whose
    title parses to [ep]. *)
Definition episode_id (info : Extractor.character_info) (character_key : string)
           (ep : option Z * option Z) : string :=
  PyStr.take 12 (MD5.hexdigest
                   (Scenes.unique_str (Extractor.show info) (fst ep) (snd ep) None
                                      character_key)).

(** Whether the season and the episode read off a title can be bound as
    SQLite integers. *)
Definition episode_fits (ep : option Z * option Z) : bool :=
  SceneStore.int64 (fst ep) && SceneStore.int64 (snd ep).

(** Whether the scraper delivered the raw script text. *)
Definition is_script (data : Extractor.script_data) : bool :=
  match Extractor.body data with
  | Extractor.Script _ => true
  | _ => false
  end.

(** An 8flix record with two scenes in which Tywin speaks. *)
Definition sample_episode : Extractor.script_data :=
  let says := fun (who line : string) =>
                {| Extractor.e_character := Some who; Extractor.e_lines := Some [line];
                   Extractor.e_text := None |} in
  {| Extractor.url := "https://8flix.com/transcript/got-s01e07";
     Extractor.title := "Game of Thrones S01E07";
     Extractor.source := "8flix";
     Extractor.body :=
       Extractor.StructuredScenes
         [ {| Extractor.s_location := "INT. TENT";
              Extractor.s_dialogue := [says "Tywin" "Attend to your butchering."];
              Extractor.s_actions := [] |};
           {| Extractor.s_location := "EXT. CAMP";
              Extractor.s_dialogue := [says "Tywin" "A lion does not concern himself."];
              Extractor.s_actions := [] |} ] |}.

(** A Springfield record: the raw script text. *)
Definition sample_script : Extractor.script_data :=
  {| Extractor.url := "https://springfieldspringfield.co.uk/view_episode_scripts.php?e=1";
     Extractor.title := "Game of Thrones S01E07";
     Extractor.source := "springfield";
     Extractor.body := Extractor.Script "Tywin rides in." |}.

(** The scenes of a batch that the database takes, in order; [from] is the
    position of the first. *)
Fixpoint accepted (db_ok : nat -> bool) (from : nat) (batch : list Scenes.Scene)
  : list Scenes.Scene :=
  match batch with
  | [] => []
  | scene :: rest =>
      (if SceneStore.bindable scene && db_ok from then [scene] else [])
        ++ accepted db_ok (S from) rest
  end%list.

(** The store after the sweeps at the given times, one after the other. *)
Definition sweeps (times : list Z) (db : Storage.SQLiteStorage) : Storage.SQLiteStorage :=
  fold_left (fun db t => Storage.cleanup_expired_cache t db) times db.

(** ** SceneCollection (src/models/scene.py) *)

Module Collection.
Import Scenes.

Record SceneCollection : Type := {
  character : string;
  scenes : list Scene
}.

(** [add_scene] *)
Definition add_scene (scene : Scene) (c : SceneCollection) : SceneCollection :=
  {| character := character c; scenes := (scenes c ++ [scene])%list |}.

(** [get_by_show] *)
Definition get_by_show (show : string) (c : SceneCollection) : list Scene :=
  List.filter (fun s => String.eqb (Scenes.show s) show) (scenes c).

(** [get_by_episode] *)
Definition get_by_episode (show : string) (season episode : Z) (c : SceneCollection)
  : list Scene :=
  List.filter (fun s => String.eqb (Scenes.show s) show
                        && bool_decide (Scenes.season s = Some season)
                        && bool_decide (Scenes.episode s = Some episode))
              (scenes c).

(** The loop of [get_stats] that fills [shows]. *)
Definition count_show (shows : gmap string nat) (scene : Scene) : gmap string nat :=
  let shows1 := match shows !! Scenes.show scene with
                | Some _ => shows
                | None => <[Scenes.show scene := 0%nat]> shows
                end in
  <[Scenes.show scene := (default 0%nat (shows1 !! Scenes.show scene) + 1)%nat]> shows1.

(** The entries ['shows'], ['total_scenes'], ['total_dialogue_lines'] and
    ['total_duration_seconds'] of [get_stats]; the word counts are not
    modelled. *)
Definition stats_shows (c : SceneCollection) : gmap string nat :=
  fold_left count_show (scenes c) ∅.

Definition stats_total_scenes (c : SceneCollection) : nat := length (scenes c).

Definition stats_total_dialogue_lines (c : SceneCollection) : nat :=
  list_sum ((fun s => length (dialogue s)) <$> scenes c).

(** [sum(s.duration for s in self.scenes if s.duration)] *)
Definition stats_total_duration_seconds (c : SceneCollection) : Z :=
  fold_right Z.add 0
    (omap (fun s => match duration s with
                    | Some d => if d =? 0 then None else Some d
                    | None => None
                    end) (scenes c)).

(** The sum of the values of a [shows] dictionary. *)
Definition total (shows : gmap string nat) : nat :=
  map_fold (fun _ n acc => (n + acc)%nat) 0%nat shows.

End Collection.

(** ** CaptchaSolver.solve_recaptcha_v2 (src/scrapers/captcha_solver.py) *)

Module Captcha.

(** Whether [self.twocaptcha] is a client, and [self.anticaptcha_key]. *)
Record CaptchaSolver : Type := {
  twocaptcha : bool;
  anticaptcha_key : option string
}.

Inductive vendor : Type :=
| TwoCaptcha
| AntiCaptcha.

Section Solve.

(** What the vendors answer in the run at hand: ['code'] of the 2captcha
    result and the AntiCaptcha solution, [None] when the call raises. *)
Variable twocaptcha_code : option string.
Variable anticaptcha_solution : option string.

(** [_solve_2captcha_v2]: the code, or [None] after an exception. *)
Definition _solve_2captcha_v2 : option string := twocaptcha_code.

(** [_solve_anticaptcha_v2]: the solution if it is truthy, else [None]. *)
Definition _solve_anticaptcha_v2 : option string :=
  if truthy anticaptcha_solution then anticaptcha_solution else None.

(** [solve_recaptcha_v2]: the vendors asked, in order, and the result. *)
Definition solve_recaptcha_v2 (solver : CaptchaSolver) (service : string)
  : list vendor * option string :=
  if String.eqb service "2captcha" && twocaptcha solver then
    ([TwoCaptcha], _solve_2captcha_v2)
  else if String.eqb service "anticaptcha" && truthy (anticaptcha_key solver) then
    ([AntiCaptcha], _solve_anticaptcha_v2)
  else
    let first := if twocaptcha solver then Some _solve_2captcha_v2 else None in
    match first with
    | Some result =>
        if truthy result then ([TwoCaptcha], result)
        else if truthy (anticaptcha_key solver) then
          ([TwoCaptcha; AntiCaptcha],
           if truthy _solve_anticaptcha_v2 then _solve_anticaptcha_v2 else None)
        else ([TwoCaptcha], None)
    | None =>
        if truthy (anticaptcha_key solver) then
          ([AntiCaptcha], if truthy _solve_anticaptcha_v2 then _solve_anticaptcha_v2 else None)
        else ([], None)
    end.

End Solve.

End Captcha.

(** ** UniversalScriptScraper.scrape_all_sources *)

Section AllSources.

Context {D : Type}.

(** What the scrapers give in the run at hand: the episode URLs that
    [SpringfieldScraper.get_show_episodes] finds, the show URL that
    [EightFlixScraper.search_show] finds, the URLs that
    [SubslikescriptScraper.search_show] finds, and the outcomes of the
    [scrape] calls of each scraper's batch. *)
Variable springfield_episodes : result (list string).
Variable eightflix_show : result (option string).
Variable subslikescript_episodes : result (list string).
Variables scrape_springfield scrape_eightflix scrape_subslikescript
  : nat -> string -> result (option D).

(** [results = await scraper.batch_scrape(episodes[:5])], with the default
    [max_concurrent]; an exception leaves the scraper without results. *)
Definition batch_of (scrape : nat -> string -> result (option D)) (episodes : list string)
  : list D :=
  match batch_scrape scrape (take 5 episodes) 20 with
  | Returns results => results
  | Raises _ | Blocks => []
  end.

(** The results of a scraper that has [get_show_episodes], or whose
    [search_show] returns a list. *)
Definition from_list (scrape : nat -> string -> result (option D))
           (found : result (list string)) : list D :=
  match found with
  | Ok episodes => batch_of scrape episodes
  | Raise _ => []
  end.

(** The results of the scraper whose [search_show] returns one URL or
    [None]; slicing [None] raises, which is caught. *)
Definition from_one (scrape : nat -> string -> result (option D))
           (found : result (option string)) : list D :=
  match found with
  | Ok (Some show_url) => batch_of scrape [show_url]
  | Ok None | Raise _ => []
  end.

(** [UniversalScriptScraper.scrape_all_sources] *)
Definition scrape_all_sources : list D :=
  (from_list scrape_springfield springfield_episodes
     ++ from_one scrape_eightflix eightflix_show
     ++ from_list scrape_subslikescript subslikescript_episodes)%list.

End AllSources.

(** ** SQLiteStorage.get_stats: the cache and processed-URL counts *)

(** [expiry > datetime('now')]; a NULL expiry never compares greater. *)
Definition unexpired (now : Z) (row : Storage.cache_row) : bool :=
  match Storage.expiry row with
  | Some e => now <? e
  | None => false
  end.

(** [stats['cached_urls']]: [SELECT COUNT(...) FROM cache WHERE expiry >
    datetime('now')]. *)
Definition stats_cached_urls (now : Z) (db : Storage.SQLiteStorage) : nat :=
  size (filter (fun kv => unexpired now (snd kv) = true) (Storage.cache db)).

(** [stats['processed_urls']] *)
Definition stats_processed_urls (db : Storage.SQLiteStorage) : nat :=
  size (Storage.processed_urls db).

(** * Properties *)

(** ** The digest agrees with [hashlib] *)

Example md5_empty : MD5.hexdigest "" = "d41d8cd98f00b204e9800998ecf8427e".
Proof. vm_compute. reflexivity. Qed.

Example md5_abc : MD5.hexdigest "abc" = "900150983cd24fb0d6963f7d28e17f72".
Proof. vm_compute. reflexivity. Qed.

Example md5_long :
  MD5.hexdigest "12345678901234567890123456789012345678901234567890123456789012345678901234567890"
  = "57edf4a22be3c955ac49da2e2107b67a".
Proof. vm_compute. reflexivity. Qed.

(** ** What the strategies leave untouched *)

Lemma same_books_refl w : same_books w w.
Proof. repeat split. Qed.

Lemma same_books_trans w1 w2 w3 :
  same_books w1 w2 -> same_books w2 w3 -> same_books w1 w3.
Proof.
  intros (Hc & Hf & Hb) (Hc' & Hf' & Hb').
  repeat split; congruence.
Qed.

Lemma frames_ret {A} (a : A) : frames (ret a).
Proof. intros w r w' H. inversion H; subst. apply same_books_refl. Qed.

Lemma frames_raise {A} (e : exn) : frames (@raise A e).
Proof. intros w r w' H. inversion H; subst. apply same_books_refl. Qed.

Lemma frames_bind {A B} (m : M A) (k : A -> M B) :
  frames m -> (forall a, frames (k a)) -> frames (bind m k).
Proof.
  intros Hm Hk w r w' H. unfold bind in H.
  destruct (m w) as [[a | e] w1] eqn:E.
  - eapply same_books_trans; [eapply Hm, E | eapply Hk, H].
  - inversion H; subst. eapply Hm, E.
Qed.

Lemma frames_attempt {A} (m : M A) : frames m -> frames (attempt m).
Proof.
  intros Hm w r w' H. unfold attempt in H.
  destruct (m w) as [r1 w1] eqn:E. inversion H; subst. eapply Hm, E.
Qed.

Lemma frames_request {A} (ev : event) (answer : nat -> A) : frames (request ev answer).
Proof. intros w r w' H. inversion H; subst. repeat split. Qed.

Lemma frames_get_scraper : frames get_scraper.
Proof. intros w r w' H. inversion H; subst. apply same_books_refl. Qed.

Lemma frames_update (f : BaseScraper -> BaseScraper) :
  (forall s, session_cache (f s) = session_cache s /\
             failed_urls (f s) = failed_urls s /\
             use_browser (f s) = use_browser s) ->
  frames (update f).
Proof. intros Hf w r w' H. inversion H; subst. apply Hf. Qed.

Lemma frames_when (b : bool) (m : M unit) : frames m -> frames (when b m).
Proof. destruct b; simpl; [trivial | intros _; apply frames_ret]. Qed.

Lemma frames_acquire_proxy net : frames (acquire_proxy net).
Proof.
  intros w r w' H. unfold acquire_proxy in H.
  destruct (proxy_rotator (scraper w)) as [rot |].
  - destruct (Rotator.get_proxy net rot (log w)) as [[res r'] log'].
    inversion H; subst. repeat split.
  - inversion H; subst. apply same_books_refl.
Qed.

Lemma frames_report_failed p : frames (report_failed p).
Proof.
  apply frames_update. intros s.
  destruct p as [p |]; [| repeat split].
  destruct (proxy_rotator s); [| repeat split].
  destruct (PyStr.truthy p); repeat split.
Qed.

Lemma frames_count_success : frames count_success.
Proof. apply frames_update. intros s. repeat split. Qed.

Create HintDb frames_db.
#[local] Hint Resolve frames_ret frames_raise frames_attempt frames_request
  frames_get_scraper frames_when frames_acquire_proxy frames_report_failed
  frames_count_success : frames_db.

(** Splits a [frames] goal along the structure of the computation. *)
Ltac frame_step :=
  match goal with
  | |- frames (bind _ _) => apply frames_bind; [| intros ?]
  | |- frames (match ?x with _ => _ end) => destruct x
  | |- frames (if ?b then _ else _) => destruct b
  | |- frames _ => solve [auto with frames_db]
  end.

Lemma frames_tls_except p : frames (tls_except p).
Proof. unfold tls_except. repeat frame_step. Qed.

Lemma frames_tls_try net url method p : frames (tls_try net url method p).
Proof.
  unfold tls_try. repeat frame_step.
  apply frames_when, frames_update. intros s. repeat split.
Qed.

#[local] Hint Resolve frames_tls_except frames_tls_try : frames_db.

Lemma frames_tls_attempt net url method p : frames (tls_attempt net url method p).
Proof. unfold tls_attempt. repeat frame_step. Qed.

Lemma frames_tls_loop net url method n : forall p, frames (tls_loop net url method n p).
Proof.
  induction n as [| n IH]; intros p; simpl.
  - apply frames_ret.
  - apply frames_bind; [apply frames_tls_attempt |].
    intros [[v |] p']; [apply frames_ret | apply IH].
Qed.

Lemma frames_fetch_tls_client net url method : frames (_fetch_tls_client net url method).
Proof. apply frames_tls_loop. Qed.

Lemma frames_bypass_cloudflare net url p : frames (bypass_cloudflare net url p).
Proof. unfold bypass_cloudflare, _use_flaresolverr. repeat frame_step. Qed.

#[local] Hint Resolve frames_bypass_cloudflare : frames_db.

Lemma frames_fetch_cloudscraper net url : frames (_fetch_cloudscraper net url).
Proof.
  unfold _fetch_cloudscraper.
  apply frames_bind; [apply frames_attempt; repeat frame_step | intros ?; repeat frame_step].
Qed.

Lemma frames_fetch_browser net url : frames (_fetch_browser net url).
Proof.
  unfold _fetch_browser.
  apply frames_bind; [apply frames_attempt; repeat frame_step | intros ?; repeat frame_step].
Qed.

Lemma frames_httpx_attempt net url method : frames (httpx_attempt net url method).
Proof. unfold httpx_attempt. repeat frame_step. Qed.

Lemma frames_retry {A} (m : M A) n : frames m -> frames (retry n m).
Proof.
  intros Hm. induction n as [| n IH]; simpl.
  - apply frames_raise.
  - apply frames_bind; [apply frames_attempt, Hm |].
    intros [v | e]; [apply frames_ret | apply IH].
Qed.

Lemma frames_fetch_httpx net url method : frames (_fetch_httpx net url method).
Proof. apply frames_retry, frames_httpx_attempt. Qed.

(** ** What a [fetch] call does to the cache and to the failed-URL set *)

Lemma cascade_post_frame key url w w1 r w' :
  same_books w w1 -> cascade_post key url w1 r w' -> cascade_post key url w r w'.
Proof.
  intros (Hc & Hf & _) [(body & -> & Ht & Hc' & Hf') | [(-> & Hc' & Hf') | (e & -> & Hc' & Hf')]].
  - left. exists body. rewrite Hc', Hf', Hc, Hf. auto.
  - right; left. rewrite Hc', Hf', Hc, Hf. auto.
  - right; right. exists e. rewrite Hc', Hf', Hc, Hf. auto.
Qed.

Lemma truthy_Some (content : option string) :
  truthy content = true -> exists body, content = Some body /\ PyStr.truthy body = true.
Proof. destruct content as [body |]; simpl; [eauto | discriminate]. Qed.

Lemma remember_post key url content w r w' :
  truthy content = true ->
  remember key content w = (r, w') -> cascade_post key url w r w'.
Proof.
  intros Ht H. apply truthy_Some in Ht as (body & -> & Ht).
  inversion H; subst. left. exists body. simpl. auto.
Qed.

Lemma exhausted_post key url w r w' :
  exhausted url w = (r, w') -> cascade_post key url w r w'.
Proof. intros H. inversion H; subst. right; left. simpl. auto. Qed.

(** A strategy that frames, followed by "store and return, or go on". *)
Lemma strategy_then_post key url (m : M (option string)) (next : M (option string)) w r w' :
  frames m ->
  (forall w1 r1 w1', next w1 = (r1, w1') -> cascade_post key url w1 r1 w1') ->
  bind m (fun content => if truthy content then remember key content else next) w = (r, w') ->
  cascade_post key url w r w'.
Proof.
  intros Hm Hnext H. unfold bind in H.
  destruct (m w) as [[content | e] w1] eqn:E.
  - apply Hm in E. apply cascade_post_frame with w1; [exact E |].
    destruct (truthy content) eqn:Ht.
    + eapply remember_post; eauto.
    + eapply Hnext; eauto.
  - inversion H; subst. apply Hm in E as (Hc & Hf & _).
    right; right. exists e. auto.
Qed.

Lemma fetch_from_httpx_post net url method key w r w' :
  fetch_from_httpx net url method key w = (r, w') -> cascade_post key url w r w'.
Proof.
  apply strategy_then_post; [apply frames_fetch_httpx |].
  intros w1 r1 w1'. apply exhausted_post.
Qed.

Lemma fetch_from_browser_post net url method key w r w' :
  fetch_from_browser net url method key w = (r, w') -> cascade_post key url w r w'.
Proof.
  unfold fetch_from_browser, bind at 1, get_scraper.
  destruct (use_browser (scraper w)).
  - apply strategy_then_post; [apply frames_fetch_browser |].
    intros w1 r1 w1'. apply fetch_from_httpx_post.
  - apply fetch_from_httpx_post.
Qed.

Lemma fetch_from_cloudscraper_post net url method key w r w' :
  fetch_from_cloudscraper net url method key w = (r, w') -> cascade_post key url w r w'.
Proof.
  apply strategy_then_post; [apply frames_fetch_cloudscraper |].
  intros w1 r1 w1'. apply fetch_from_browser_post.
Qed.

(** On a hit the call returns the stored body and changes nothing. *)
Lemma fetch_hit net url method w body :
  session_cache (scraper w) !! cache_key url method = Some body ->
  fetch net url method w = (Ok (Some body), w).
Proof.
  intros Hhit. unfold fetch, bind, get_scraper. rewrite Hhit. reflexivity.
Qed.

(** On a miss the cascade runs and ends in one of its three ways. *)
Lemma fetch_miss net url method w r w' :
  session_cache (scraper w) !! cache_key url method = None ->
  fetch net url method w = (r, w') ->
  cascade_post (cache_key url method) url w r w'.
Proof.
  intros Hmiss. unfold fetch, bind at 1, get_scraper. rewrite Hmiss.
  apply strategy_then_post; [apply frames_fetch_tls_client |].
  intros w1 r1 w1'. apply fetch_from_cloudscraper_post.
Qed.

(** A call never removes or changes an entry of the session cache. *)
Lemma fetch_keeps_entries net url method w r w' key body :
  fetch net url method w = (r, w') ->
  session_cache (scraper w) !! key = Some body ->
  session_cache (scraper w') !! key = Some body.
Proof.
  intros H Hkey.
  destruct (session_cache (scraper w) !! cache_key url method) as [b |] eqn:Hc.
  - rewrite (fetch_hit _ _ _ _ _ Hc) in H. inversion H; subst. exact Hkey.
  - apply fetch_miss in H; [| exact Hc].
    destruct H as [(b & _ & _ & Hc' & _) | [(_ & Hc' & _) | (e & _ & Hc' & _)]];
      rewrite Hc'; [| exact Hkey | exact Hkey].
    rewrite lookup_insert_ne; [exact Hkey |].
    intros Heq. rewrite Heq in Hc. congruence.
Qed.

(** A call that returns a body leaves that body stored under its key. *)
Lemma fetch_body_is_cached net url method w body w' :
  fetch net url method w = (Ok (Some body), w') ->
  session_cache (scraper w') !! cache_key url method = Some body.
Proof.
  intros H.
  destruct (session_cache (scraper w) !! cache_key url method) as [b |] eqn:Hc.
  - rewrite (fetch_hit _ _ _ _ _ Hc) in H. inversion H; subst. exact Hc.
  - apply fetch_miss in H; [| exact Hc].
    destruct H as [(b & Hb & _ & Hc' & _) | [(Hb & _) | (e & Hb & _)]];
      [| discriminate | discriminate].
    inversion Hb; subst. rewrite Hc'. apply lookup_insert_eq.
Qed.

Lemma fetch_all_keeps_entries calls : forall w key body,
  session_cache (scraper w) !! key = Some body ->
  session_cache (scraper (fetch_all calls w)) !! key = Some body.
Proof.
  induction calls as [| [[net url] method] calls IH]; intros w key body Hkey; simpl.
  - exact Hkey.
  - apply IH.
    destruct (fetch net url method w) as [r w'] eqn:E. simpl.
    eapply fetch_keeps_entries; eauto.
Qed.

(** ** What does not depend on the session cache *)

Lemma alike_refl w : alike w w.
Proof. repeat split. Qed.

Lemma blind_ret {A} (a : A) : blind (ret a).
Proof. intros w1 w2 H. split; [reflexivity | exact H]. Qed.

Lemma blind_raise {A} (e : exn) : blind (@raise A e).
Proof. intros w1 w2 H. split; [reflexivity | exact H]. Qed.

Lemma blind_bind {A B} (m : M A) (k : A -> M B) :
  blind m -> (forall a, blind (k a)) -> blind (bind m k).
Proof.
  intros Hm Hk w1 w2 H. unfold bind.
  destruct (Hm w1 w2 H) as (Hr & Hw).
  destruct (m w1) as [[a1 | e1] w1'], (m w2) as [[a2 | e2] w2']; simpl in *;
    try discriminate.
  - injection Hr as ->. apply Hk, Hw.
  - injection Hr as ->. split; [reflexivity | exact Hw].
Qed.

Lemma blind_attempt {A} (m : M A) : blind m -> blind (attempt m).
Proof.
  intros Hm w1 w2 H. unfold attempt.
  destruct (Hm w1 w2 H) as (Hr & Hw).
  destruct (m w1) as [r1 w1'], (m w2) as [r2 w2']; simpl in *.
  split; [congruence | exact Hw].
Qed.

Lemma blind_request {A} (ev : event) (answer : nat -> A) : blind (request ev answer).
Proof.
  intros w1 w2 (Hs & Hl). unfold request. simpl.
  rewrite Hl. repeat split; apply Hs.
Qed.

Lemma blind_update (f : BaseScraper -> BaseScraper) :
  (forall s1 s2, same_but_cache s1 s2 -> same_but_cache (f s1) (f s2)) ->
  blind (update f).
Proof.
  intros Hf w1 w2 (Hs & Hl). unfold update. simpl.
  split; [reflexivity |]. split; [apply Hf, Hs | exact Hl].
Qed.

(** Reading the instance is harmless when the continuation only uses what
    the two instances share. *)
Lemma blind_read {A} (k : BaseScraper -> M A) :
  (forall s1 s2, same_but_cache s1 s2 -> k s1 = k s2) ->
  (forall s, blind (k s)) ->
  blind (bind get_scraper k).
Proof.
  intros Hk Hb w1 w2 H. unfold bind, get_scraper.
  rewrite (Hk (scraper w1) (scraper w2) (proj1 H)). apply Hb, H.
Qed.

Lemma blind_when (b : bool) (m : M unit) : blind m -> blind (when b m).
Proof. destruct b; simpl; [trivial | intros _; apply blind_ret]. Qed.

Lemma blind_acquire_proxy net : blind (acquire_proxy net).
Proof.
  intros w1 w2 ((Hb & Hr & Ht & Hf & Hsc & Hfc) & Hl). unfold acquire_proxy.
  rewrite Hr, Hl.
  destruct (proxy_rotator (scraper w2)) as [rot |] eqn:Hrot.
  - destruct (Rotator.get_proxy net rot (log w2)) as [[res r'] log']. simpl.
    repeat split; simpl; congruence.
  - simpl. repeat split; simpl; congruence.
Qed.

Lemma blind_report_failed p : blind (report_failed p).
Proof.
  apply blind_update. intros s1 s2 (Hb & Hr & Ht & Hf & Hsc & Hfc).
  rewrite Hr.
  destruct p as [p |]; [| repeat split; simpl; congruence].
  destruct (proxy_rotator s2) eqn:Hrot; [| repeat split; simpl; congruence].
  destruct (PyStr.truthy p); repeat split; simpl; congruence.
Qed.

Lemma blind_count_success : blind count_success.
Proof.
  apply blind_update. intros s1 s2 (Hb & Hr & Ht & Hf & Hsc & Hfc).
  repeat split; simpl; congruence.
Qed.

Lemma blind_install p : blind (update (with_tls_proxies p)).
Proof.
  apply blind_update. intros s1 s2 (Hb & Hr & Ht & Hf & Hsc & Hfc).
  repeat split; simpl; congruence.
Qed.

Lemma blind_remember key content : blind (remember key content).
Proof.
  unfold remember. apply blind_bind; [| intros _; apply blind_ret].
  apply blind_update. intros s1 s2 (Hb & Hr & Ht & Hf & Hsc & Hfc).
  destruct content; repeat split; simpl; congruence.
Qed.

Lemma blind_exhausted url : blind (exhausted url).
Proof.
  unfold exhausted. apply blind_bind; [| intros _; apply blind_ret].
  apply blind_update. intros s1 s2 (Hb & Hr & Ht & Hf & Hsc & Hfc).
  repeat split; simpl; congruence.
Qed.

Create HintDb blind_db.
#[local] Hint Resolve blind_ret blind_raise blind_attempt blind_request blind_when
  blind_acquire_proxy blind_report_failed blind_count_success blind_install
  blind_remember blind_exhausted : blind_db.

Ltac blind_step :=
  match goal with
  | |- blind (bind get_scraper _) =>
      apply blind_read;
      [ let Hb := fresh in let Ht := fresh in
        intros ? ? (Hb & _ & Ht & _); rewrite ?Hb, ?Ht; reflexivity
      | intros ? ]
  | |- blind (bind _ _) => apply blind_bind; [| intros ?]
  | |- blind (match ?x with _ => _ end) => destruct x
  | |- blind (if ?b then _ else _) => destruct b
  | |- blind _ => solve [auto with blind_db]
  end.

Lemma blind_tls_except p : blind (tls_except p).
Proof. unfold tls_except. repeat blind_step. Qed.

Lemma blind_tls_try net url method p : blind (tls_try net url method p).
Proof. unfold tls_try. repeat blind_step. Qed.

#[local] Hint Resolve blind_tls_except blind_tls_try : blind_db.

Lemma blind_tls_attempt net url method p : blind (tls_attempt net url method p).
Proof. unfold tls_attempt. repeat blind_step. Qed.

Lemma blind_tls_loop net url method n : forall p, blind (tls_loop net url method n p).
Proof.
  induction n as [| n IH]; intros p; simpl.
  - apply blind_ret.
  - apply blind_bind; [apply blind_tls_attempt |].
    intros [[v |] p']; [apply blind_ret | apply IH].
Qed.

Lemma blind_bypass_cloudflare net url p : blind (bypass_cloudflare net url p).
Proof. unfold bypass_cloudflare, _use_flaresolverr. repeat blind_step. Qed.

#[local] Hint Resolve blind_bypass_cloudflare : blind_db.

Lemma blind_fetch_cloudscraper net url : blind (_fetch_cloudscraper net url).
Proof.
  unfold _fetch_cloudscraper.
  apply blind_bind; [apply blind_attempt; repeat blind_step | intros ?; repeat blind_step].
Qed.

Lemma blind_fetch_browser net url : blind (_fetch_browser net url).
Proof.
  unfold _fetch_browser.
  apply blind_bind; [apply blind_attempt; repeat blind_step | intros ?; repeat blind_step].
Qed.

Lemma blind_retry {A} (m : M A) n : blind m -> blind (retry n m).
Proof.
  intros Hm. induction n as [| n IH]; simpl.
  - apply blind_raise.
  - apply blind_bind; [apply blind_attempt, Hm |].
    intros [v | e]; [apply blind_ret | apply IH].
Qed.

Lemma blind_fetch_httpx net url method : blind (_fetch_httpx net url method).
Proof. apply blind_retry. unfold httpx_attempt. repeat blind_step. Qed.

#[local] Hint Resolve blind_tls_loop blind_fetch_cloudscraper blind_fetch_browser
  blind_fetch_httpx : blind_db.

Lemma blind_fetch_from_httpx net url method key :
  blind (fetch_from_httpx net url method key).
Proof. unfold fetch_from_httpx. repeat blind_step. Qed.

#[local] Hint Resolve blind_fetch_from_httpx : blind_db.

Lemma blind_fetch_from_browser net url method key :
  blind (fetch_from_browser net url method key).
Proof. unfold fetch_from_browser. repeat blind_step. Qed.

#[local] Hint Resolve blind_fetch_from_browser : blind_db.

Lemma blind_fetch_from_cloudscraper net url method key :
  blind (fetch_from_cloudscraper net url method key).
Proof. unfold fetch_from_cloudscraper. repeat blind_step. Qed.

(** The outcome of a call depends on the session cache through the entry
    under its own key only. *)
Lemma fetch_reads_own_key net url method w c :
  c !! cache_key url method = session_cache (scraper w) !! cache_key url method ->
  fst (fetch net url method (put_cache c w)) = fst (fetch net url method w).
Proof.
  intros Hsame. unfold fetch, bind at 1 3, get_scraper. simpl. rewrite Hsame.
  destruct (session_cache (scraper w) !! cache_key url method) as [b |]; [reflexivity |].
  assert (Hblind : blind (bind (_fetch_tls_client net url method)
            (fun content => if truthy content
                            then remember (cache_key url method) content
                            else fetch_from_cloudscraper net url method (cache_key url method)))).
  { apply blind_bind; [apply blind_tls_loop |].
    intros content. destruct (truthy content);
      [apply blind_remember | apply blind_fetch_from_cloudscraper]. }
  apply Hblind. repeat split.
Qed.

(** ** The cache check *)

(** C2: when the session cache holds an entry under the key of
    (url, method), [fetch] returns the stored body at once; the instance is
    left as it was and no request of any kind is logged, so none of the
    TLS-client, cloudscraper, browser or httpx strategies is tried.  The
    session cache has no expiry, so every entry is fresh. *)
Theorem fetch_cached_no_network net url method w body :
  session_cache (scraper w) !! cache_key url method = Some body ->
  fetch net url method w = (Ok (Some body), w) /\
  log (snd (fetch net url method w)) = log w.
Proof.
  intros Hhit. rewrite (fetch_hit net url method w body Hhit). split; reflexivity.
Qed.

Lemma fetch_cached_no_network_witness :
  fetch net_down "http://example/ok" "GET" seeded = (Ok (Some "X"), seeded) /\
  log (snd (fetch net_down "http://example/ok" "GET" seeded)) = log seeded.
Proof.
  apply (fetch_cached_no_network net_down "http://example/ok" "GET" seeded "X").
  vm_compute. reflexivity.
Defined.



(** The two halves of a call, run back to back, are the call. *)
Lemma fetch_start_resume net url method w :
  match fetch_start net url method w with
  | (Ok (Finished r), w') => fetch net url method w = (Ok r, w')
  | (Ok (Waiting answer), w') => fetch net url method w = fetch_resume net url method answer w'
  | (Raise e, w') => fetch net url method w = (Raise e, w')
  end.
Proof.
  unfold fetch, fetch_start. cbv [bind get_scraper].
  destruct (session_cache (scraper w) !! cache_key url method) as [body |]; [reflexivity |].
  destruct (_fetch_tls_client net url method w) as [[content | e] w1]; [| reflexivity].
  destruct (truthy content) eqn:Etruthy.
  { destruct content as [body |]; [| discriminate]. reflexivity. }
  unfold fetch_from_cloudscraper, _fetch_cloudscraper. cbv [bind attempt].
  destruct (acquire_proxy net w1) as [[proxy | e2] w2].
  - cbv [bypass_cloudflare bind request _use_flaresolverr ret].
    set (used := if truthy proxy then proxy else None).
    destruct (cloudscraper_get net (length (log w2)) url used) as [status text |].
    + destruct (status =? 200).
      * cbv [count_success update bind ret].
        destruct (truthy (Some text)); [reflexivity |].
        destruct (fetch_from_browser net url method (cache_key url method) _) as [[r | e'] w3];
          reflexivity.
      * unfold fetch_resume. cbv [bind ret].
        destruct (flaresolverr_post net _ url used) as [c |]; reflexivity.
    + unfold fetch_resume. cbv [bind ret].
      destruct (flaresolverr_post net _ url used) as [c |]; reflexivity.
  - cbv [ret]. simpl.
    destruct (fetch_from_browser net url method (cache_key url method) w2) as [[r | e'] w3];
      reflexivity.
Qed.


(** ** Exhaustion of the cascade *)

(** Once [n] attempts have raised, tenacity raises [RetryError]. *)
Lemma retry_exhausted {A} (m : M A) (n : nat) :
  (forall w, exists e w', m w = (Raise e, w')) ->
  forall w, exists w', retry n m w = (Raise RetryError, w').
Proof.
  intros Hm. induction n as [| n IH]; intros w; simpl.
  - exists w. reflexivity.
  - unfold bind, attempt. destruct (Hm w) as (e & w1 & E). rewrite E.
    apply IH.
Qed.

Lemma httpx_attempt_raises net url method :
  httpx_never_ok net ->
  forall w, exists e w', httpx_attempt net url method w = (Raise e, w').
Proof.
  intros Hnet w. unfold httpx_attempt, bind.
  destruct (acquire_proxy net w) as [[p | e] w1]; [| eauto].
  unfold request.
  set (used := if truthy p then p else None).
  specialize (Hnet (length (log w1)) url method used).
  destruct (httpx_send net (length (log w1)) url method used) as [status text |]; [| eauto].
  destruct (status =? 200) eqn:E; [| eauto].
  apply Z.eqb_eq in E. contradiction.
Qed.

(** When the fallback only meets failures, [_fetch_httpx] does not return
    [None]: it raises [RetryError]. *)
Lemma fetch_httpx_raises net url method :
  httpx_never_ok net ->
  forall w, exists w', _fetch_httpx net url method w = (Raise RetryError, w').
Proof.
  intros Hnet. apply retry_exhausted. apply httpx_attempt_raises, Hnet.
Qed.

(** C1 (the code departs from it): on a fresh instance without proxies,
    with every request answered by a non-success status, all strategies of
    the cascade are tried -- five TLS-client requests, the cloudscraper and
    FlareSolverr requests, three httpx requests -- and then [fetch] raises
    [RetryError] to its caller; it does not return [None], and the URL is
    not added to the failed-URL set. *)
Theorem fetch_raises_when_fallback_fails :
  let run := fetch net_down "http://example/down" "GET" fresh in
  fst run = Raise RetryError /\
  failed_urls (scraper (snd run)) = ∅ /\
  log (snd run) =
    [HttpxRequest "http://example/down" "GET" None;
     HttpxRequest "http://example/down" "GET" None;
     HttpxRequest "http://example/down" "GET" None;
     FlareSolverr "http://example/down" None;
     CloudscraperGet "http://example/down" None;
     TlsRequest "http://example/down" "GET" None;
     TlsRequest "http://example/down" "GET" None;
     TlsRequest "http://example/down" "GET" None;
     TlsRequest "http://example/down" "GET" None;
     TlsRequest "http://example/down" "GET" None].
Proof. vm_compute. repeat split; reflexivity. Qed.

(** The same in general: when the fallback only meets failures, [fetch]
    never gives the exhausted signal; it returns a body or raises, and the
    failed-URL set stays as it was. *)
Lemma fetch_never_exhausted net url method w r w' :
  httpx_never_ok net ->
  fetch net url method w = (r, w') ->
  failed_urls (scraper w') = failed_urls (scraper w) /\
  ((exists body, r = Ok (Some body)) \/ (exists e, r = Raise e)).
Proof.
  intros Hnet H.
  destruct (session_cache (scraper w) !! cache_key url method) as [b |] eqn:Hc.
  - rewrite (fetch_hit _ _ _ _ _ Hc) in H. inversion H; subst. eauto.
  - revert H. unfold fetch, bind at 1, get_scraper. rewrite Hc.
    assert (Hhttpx : forall w1 r1 w1',
               fetch_from_httpx net url method (cache_key url method) w1 = (r1, w1') ->
               failed_urls (scraper w1') = failed_urls (scraper w1) /\
               ((exists body, r1 = Ok (Some body)) \/ (exists e, r1 = Raise e))).
    { intros w1 r1 w1' H1. unfold fetch_from_httpx, bind in H1.
      destruct (fetch_httpx_raises net url method Hnet w1) as (w2 & E).
      pose proof (frames_fetch_httpx net url method _ _ _ E) as (_ & Hf & _).
      rewrite E in H1. inversion H1; subst. eauto. }
    assert (Hstep : forall (m next : M (option string)) w0 r0 w0',
               frames m ->
               (forall w1 r1 w1', next w1 = (r1, w1') ->
                  failed_urls (scraper w1') = failed_urls (scraper w1) /\
                  ((exists body, r1 = Ok (Some body)) \/ (exists e, r1 = Raise e))) ->
               bind m (fun content => if truthy content
                                      then remember (cache_key url method) content
                                      else next) w0 = (r0, w0') ->
               failed_urls (scraper w0') = failed_urls (scraper w0) /\
               ((exists body, r0 = Ok (Some body)) \/ (exists e, r0 = Raise e))).
    { intros m next w0 r0 w0' Hm Hnext H0. unfold bind in H0.
      destruct (m w0) as [[content | e] w1] eqn:E.
      - apply Hm in E as (_ & Hf & _).
        destruct (truthy content) eqn:Ht.
        + apply truthy_Some in Ht as (body & -> & _).
          inversion H0; subst. simpl. eauto.
        + apply Hnext in H0 as (Hf' & Hr). split; [congruence | exact Hr].
      - apply Hm in E as (_ & Hf & _). inversion H0; subst. eauto. }
    intros H. eapply Hstep in H; [exact H | apply frames_fetch_tls_client |].
    intros w1 r1 w1' H1.
    eapply Hstep in H1; [exact H1 | apply frames_fetch_cloudscraper |].
    intros w2 r2 w2' H2. unfold fetch_from_browser, bind at 1, get_scraper in H2.
    destruct (use_browser (scraper w2)).
    + eapply Hstep in H2; [exact H2 | apply frames_fetch_browser | exact Hhttpx].
    + eapply Hhttpx, H2.
Qed.

(** ** HTTP 403 on the evasive client *)

Lemma tls_turns_loop net url method n proxy w n' proxy' w' :
  tls_turns net url method n proxy w n' proxy' w' ->
  tls_loop net url method n proxy w = tls_loop net url method n' proxy' w'.
Proof.
  induction 1 as [| n proxy w proxy1 w1 n' proxy' w' Hturn _ IH]; [reflexivity |].
  simpl. unfold bind at 1. rewrite Hturn. exact IH.
Qed.

(** A turn whose request is answered 403 makes the function return [None]. *)
Lemma tls_attempt_403 net url method proxy0 w proxy w1 text :
  acquire_proxy net w = (Ok proxy, w1) ->
  has_netloc url = true ->
  tls_send net (length (log w1)) url method
           (tls_session_proxies (install_proxy proxy (scraper w1))) = Response 403 text ->
  tls_attempt net url method proxy0 w =
    (Ok (Return None, Bound proxy),
     {| scraper := install_proxy proxy (scraper w1);
        log := TlsRequest url method (tls_session_proxies (install_proxy proxy (scraper w1)))
               :: log w1 |}).
Proof.
  intros Hacq Hurl Hresp.
  unfold tls_attempt, bind at 1, attempt at 1. rewrite Hacq.
  unfold install_proxy in *.
  unfold bind at 1, attempt, tls_try, bind, when.
  rewrite Hurl.
  destruct (truthy proxy); simpl in *; rewrite Hresp; simpl; destruct w1; reflexivity.
Qed.

(** The end-to-end case of the specification: strategy 1 answered 403,
    strategy 2 answered with "Y". *)
Example fetch_403_then_bypass :
  fst (fetch net_challenge "http://example/403" "GET" fresh) = Ok (Some "Y").
Proof. vm_compute. reflexivity. Qed.

(** ** The proxy rotation *)

Module RotatorFacts.

Import Rotator.

Lemma list_remove_absent (x : string) (l : list string) :
  NoDup l -> x ∉ list_remove x l.
Proof.
  induction 1 as [| y l Hy Hl IH]; simpl.
  - apply not_elem_of_nil.
  - destruct (String.eqb_spec x y) as [-> | Hne].
    + exact Hy.
    + intros [Heq | Hin]%elem_of_cons; [contradiction | exact (IH Hin)].
Qed.

Lemma list_remove_app (x : string) (l1 l2 : list string) :
  x ∉ l1 -> list_remove x (l1 ++ x :: l2) = (l1 ++ l2)%list.
Proof.
  induction l1 as [| y l1 IH]; intros Hout; simpl.
  - rewrite String.eqb_refl. reflexivity.
  - apply not_elem_of_cons in Hout as (Hne & Hout).
    destruct (String.eqb_spec x y) as [-> | _]; [contradiction |].
    rewrite IH by exact Hout. reflexivity.
Qed.

(** An address that the rotation holds more than once survives
    [mark_failed]. *)
Lemma mark_failed_keeps_repeated (p : string) (r : ProxyRotator) (l1 l2 : list string) :
  p ∉ l1 -> p ∈ l2 ->
  working_proxies r = (l1 ++ p :: l2)%list ->
  working_proxies (mark_failed p r) = (l1 ++ l2)%list /\
  p ∈ working_proxies (mark_failed p r).
Proof.
  intros Hout Hin Hw. unfold mark_failed. simpl. rewrite Hw.
  rewrite bool_decide_eq_true_2 by (apply elem_of_app; right; apply elem_of_cons; auto).
  rewrite list_remove_app by exact Hout.
  split; [reflexivity | apply elem_of_app; right; exact Hin].
Qed.

(** In a rotation without repeated addresses, [mark_failed] takes the
    address out. *)
Lemma mark_failed_removes (p : string) (r : ProxyRotator) :
  NoDup (working_proxies r) -> p ∉ working_proxies (mark_failed p r).
Proof.
  intros Hnd. unfold mark_failed. simpl.
  case_bool_decide as Hin; [apply list_remove_absent, Hnd | exact Hin].
Qed.

(** A [get_proxy] call that finds the rotation non-empty runs no health
    check, leaves the rotation as it is, and can only hand out one of its
    members. *)
Lemma get_proxy_without_test net (r : ProxyRotator) log res r' log' :
  working_proxies r <> [] ->
  get_proxy net r log = (res, r', log') ->
  log' = log /\ working_proxies r' = working_proxies r /\
  forall q, res = Ok (Some q) -> q ∈ working_proxies r.
Proof.
  intros Hne H. unfold get_proxy in H.
  destruct (working_proxies r) as [| a l] eqn:Hw; [contradiction |].
  rewrite Hw in H.
  destruct ((a :: l) !! current_index r) as [q |] eqn:Hq;
    injection H as <- <- <-; simpl.
  - split; [reflexivity |]. split; [reflexivity |].
    intros q' [= <-]. eapply list_elem_of_lookup_2, Hq.
  - split; [reflexivity |]. split; [exact Hw |]. intros q' [=].
Qed.

(** The health check logs one test per configured candidate. *)
Lemma gather_tests_log net (ps : list string) : forall log,
  snd (gather_tests net ps log) = (rev (map ProxyTest ps) ++ log)%list.
Proof.
  induction ps as [| p ps IH]; intros log; simpl; [reflexivity |].
  specialize (IH (ProxyTest p :: log)).
  destruct (gather_tests net ps (ProxyTest p :: log)) as [rs log'].
  simpl in *. rewrite IH, <- app_assoc. reflexivity.
Qed.

Lemma gather_tests_nil net log : gather_tests net [] log = ([], log).
Proof. reflexivity. Qed.

(** The log only grows. *)
Lemma get_proxy_log net (r : ProxyRotator) log res r' log' :
  get_proxy net r log = (res, r', log') ->
  exists evs, log' = (evs ++ log)%list /\
              (working_proxies r <> [] -> evs = []) /\
              (evs = [] -> working_proxies r = [] -> proxies r = []).
Proof.
  intros H.
  destruct (working_proxies r) as [| a l] eqn:Hw.
  - unfold get_proxy, test_proxies in H. rewrite Hw in H.
    pose proof (gather_tests_log net (proxies r) log) as Hlog.
    destruct (gather_tests net (proxies r) log) as [results logt]. simpl in *.
    exists (rev (map ProxyTest (proxies r))).
    assert (log' = logt) as ->.
    { destruct (keep_truthy results) as [| b k]; [congruence |].
      destruct ((b :: k) !! current_index r); congruence. }
    split; [exact Hlog |]. split; [congruence |].
    intros Hnil _. destruct (proxies r); [reflexivity |].
    simpl in Hnil. apply app_eq_nil in Hnil as [_ [=]].
  - assert (Hne : working_proxies r <> []) by (rewrite Hw; discriminate).
    destruct (get_proxy_without_test net r log res r' log' Hne H) as (-> & _).
    exists []. repeat split. discriminate.
Qed.

(** A call that logs nothing does not hand out an address that is
    outside the rotation, and leaves it outside. *)
Lemma get_proxy_quiet net (p : string) (r : ProxyRotator) log res r' :
  p ∉ working_proxies r ->
  get_proxy net r log = (res, r', log) ->
  res <> Ok (Some p) /\ p ∉ working_proxies r'.
Proof.
  intros Hout H.
  destruct (working_proxies r) as [| a l] eqn:Hw.
  - destruct (get_proxy_log net r log res r' log H) as (evs & Hevs & _ & Hnil).
    assert (evs = []) as ->.
    { apply (f_equal (@length event)) in Hevs. rewrite length_app in Hevs.
      destruct evs; [reflexivity | simpl in Hevs; lia]. }
    specialize (Hnil eq_refl Hw).
    unfold get_proxy, test_proxies in H. rewrite Hw, Hnil in H. simpl in H.
    inversion H; subst. simpl. split; [discriminate | apply not_elem_of_nil].
  - assert (Hne : working_proxies r <> []) by (rewrite Hw; discriminate).
    destruct (get_proxy_without_test net r log res r' log Hne H) as (_ & Hsame & Hin).
    rewrite <- Hw in Hout. rewrite Hsame. split; [| exact Hout].
    intros ->. apply Hout, Hin. reflexivity.
Qed.

Lemma get_proxies_log net n : forall (r : ProxyRotator) log rs r' log',
  get_proxies net n r log = (rs, r', log') -> exists evs, log' = (evs ++ log)%list.
Proof.
  induction n as [| n IH]; intros r log rs r' log' H; simpl in H.
  - inversion H; subst. exists []. reflexivity.
  - destruct (get_proxy net r log) as [[res r1] log1] eqn:E1.
    destruct (get_proxies net n r1 log1) as [[rs2 r2] log2] eqn:E2.
    inversion H; subst.
    apply get_proxy_log in E1 as (evs1 & -> & _).
    apply IH in E2 as (evs2 & ->).
    exists (evs2 ++ evs1)%list. apply app_assoc.
Qed.

(** In a rotation without repeated addresses, an address marked failed
    is not handed out again before a health check has run: as long as no
    test has been logged, no [get_proxy] call returns it. *)
Lemma failed_proxy_not_reissued net (p : string) (r : ProxyRotator) log n rs r' :
  NoDup (working_proxies r) ->
  get_proxies net n (mark_failed p r) log = (rs, r', log) ->
  Ok (Some p) ∉ rs.
Proof.
  intros Hnd. pose proof (mark_failed_removes p r Hnd) as Hout.
  generalize dependent (mark_failed p r). clear r Hnd. intros r Hout. revert r rs Hout.
  induction n as [| n IH]; intros r rs Hout H; simpl in H.
  - inversion H; subst. apply not_elem_of_nil.
  - destruct (get_proxy net r log) as [[res r1] log1] eqn:E1.
    destruct (get_proxies net n r1 log1) as [[rs2 r2] log2] eqn:E2.
    inversion H; subst. clear H.
    assert (log1 = log) as ->.
    { pose proof (get_proxy_log _ _ _ _ _ _ E1) as (evs1 & Hl1 & _).
      pose proof (get_proxies_log _ _ _ _ _ _ _ E2) as (evs2 & Hl2).
      rewrite Hl1 in Hl2. apply (f_equal (@length event)) in Hl2.
      rewrite !length_app in Hl2.
      destruct evs1; [exact Hl1 | simpl in Hl2; lia]. }
    destruct (get_proxy_quiet net p r log res r1 Hout E1) as (Hres & Hout1).
    intros [Heq | Hin]%elem_of_cons; [congruence |].
    exact (IH r1 rs2 Hout1 E2 Hin).
Qed.

End RotatorFacts.

(** C5 (the code departs from it): with the same address configured
    twice and both copies healthy, the rotation holds it twice;
    [mark_failed] removes the first copy only, so the address stays in the
    rotation and the next [get_proxy] call hands it out again without any
    health check in between (the log is unchanged). *)
Theorem mark_failed_leaves_duplicate :
  let r0 := Rotator.init [twin; twin] in
  let '(res1, r1, log1) := Rotator.get_proxy net_ok r0 [] in
  let '(res2, r2, log2) := Rotator.get_proxy net_ok r1 log1 in
  let r3 := Rotator.mark_failed twin r2 in
  let '(res3, r4, log3) := Rotator.get_proxy net_ok r3 log2 in
  working_proxies r2 = [twin; twin] /\
  working_proxies r3 = [twin] /\
  res3 = Ok (Some twin) /\
  log3 = log2 /\
  log2 = [ProxyTest twin; ProxyTest twin].
Proof. vm_compute. repeat split; reflexivity. Qed.

(** ** An empty rotation *)

(** When the health check leaves the rotation empty, [get_proxy] returns
    [None]: it neither raises nor waits. *)
Lemma get_proxy_none_after_empty_check net (r : ProxyRotator) log :
  working_proxies r = [] ->
  working_proxies (fst (Rotator.test_proxies net r log)) = [] ->
  Rotator.get_proxy net r log =
    (Ok None, fst (Rotator.test_proxies net r log), snd (Rotator.test_proxies net r log)).
Proof.
  intros Hw Hdead. unfold Rotator.get_proxy. rewrite Hw.
  destruct (Rotator.test_proxies net r log) as [r1 log1]. simpl in *.
  rewrite Hdead. reflexivity.
Qed.

(** With [None] from the rotation, the fallback sends its request
    without a proxy. *)
Lemma httpx_attempt_proxyless net url method w w1 :
  acquire_proxy net w = (Ok None, w1) ->
  httpx_attempt net url method w =
    bind (request (HttpxRequest url method None)
                  (fun t => httpx_send net t url method None))
         (fun resp =>
            match resp with
            | Failure => raise TransportError
            | Response status text =>
                if status =? 200 then count_success ;;; ret (Some text)
                else raise (HTTPError status)
            end) w1.
Proof.
  intros Hacq. unfold httpx_attempt, bind at 1. rewrite Hacq. reflexivity.
Qed.

(** With [None] from the rotation, the TLS-client strategy sends its
    request with whatever proxy the session was given before. *)
Lemma tls_try_without_proxy net url method w :
  has_netloc url = true ->
  log (snd (tls_try net url method None w))
  = TlsRequest url method (tls_session_proxies (scraper w)) :: log w /\
  tls_session_proxies (scraper (snd (tls_try net url method None w)))
  = tls_session_proxies (scraper w).
Proof.
  intros Hurl. unfold tls_try, bind, when, request, get_scraper. simpl. rewrite Hurl. simpl.
  destruct (tls_send net (length (log w)) url method (tls_session_proxies (scraper w)))
    as [status text |]; simpl; [| auto].
  destruct (status =? 200); simpl; [auto |].
  destruct (status =? 403); simpl; auto.
Qed.

(** C9 (the code departs from it): the first attempt of the TLS-client
    strategy is given the proxy and installs it on the session; the
    request fails and the proxy is marked failed, which empties the
    rotation.  At the second attempt the health check finds no working
    proxy and [get_proxy] returns [None] -- but the session still carries
    the proxy installed before, so the request goes out through it again,
    and so do the remaining ones: the strategy ends with [None] although a
    direct request would have been answered. *)
Theorem tls_client_keeps_stale_proxy :
  let url := "http://example/ok" in
  let w0 := {| scraper := new_scraper false [twin]; log := [] |} in
  let '(turn1, w1) := tls_attempt net_flaky url "GET" Unbound w0 in
  let '(got, _) := acquire_proxy net_flaky w1 in
  let '(turn2, w2) := tls_attempt net_flaky url "GET" (Bound (Some twin)) w1 in
  let '(content, w5) := _fetch_tls_client net_flaky url "GET" w0 in
  option_map working_proxies (proxy_rotator (scraper w1)) = Some [] /\
  got = Ok None /\
  tls_session_proxies (scraper w2) = Some twin /\
  log w2 = [TlsRequest url "GET" (Some twin); ProxyTest twin;
            TlsRequest url "GET" (Some twin); ProxyTest twin] /\
  content = Ok None /\
  log w5 = [TlsRequest url "GET" (Some twin); ProxyTest twin;
            TlsRequest url "GET" (Some twin); ProxyTest twin;
            TlsRequest url "GET" (Some twin); ProxyTest twin;
            TlsRequest url "GET" (Some twin); ProxyTest twin;
            TlsRequest url "GET" (Some twin); ProxyTest twin] /\
  tls_send net_flaky 3 url "GET" None = Response 200 "X".
Proof. vm_compute. repeat split; reflexivity. Qed.

(** ** The batch runner *)

Section BatchFacts.

Context {D : Type}.
Variable scrape : nat -> string -> result (option D).

(** The kept results are the non-[None] entries, in order. *)
Lemma valid_results_filter (results : list (option D)) :
  Some <$> valid_results results = filter (fun o => is_Some o) results.
Proof.
  unfold valid_results.
  induction results as [| [d |] results IH]; simpl.
  - reflexivity.
  - rewrite filter_cons_True by eauto. simpl. f_equal. exact IH.
  - rewrite filter_cons_False by (intros [d Hd]; discriminate). exact IH.
Qed.

(** C4, as the code has it: for every list of URLs and every
    [max_concurrent] of at least 1 the batch runner returns, whatever the
    [scrape] calls do: an exception is caught in its task and does not
    make the batch raise.  Task [i] yields what the [scrape] call for URL
    [i] gave in the run, with [None] when that call returned [None] or
    raised; the returned list consists of the non-[None] outcomes in input
    order -- a failing URL is dropped, not reported as an absent entry --
    so it is a sublist of the per-URL outcomes and has at most one entry
    per input URL. *)
Theorem batch_scrape_keeps_successes_in_order (urls : list string) (max_concurrent : Z) :
  1 <= max_concurrent ->
  exists results,
    batch_scrape scrape urls max_concurrent = Returns results /\
    length (gather scrape urls) = length urls /\
    (forall i url, urls !! i = Some url ->
       gather scrape urls !! i = Some (scrape_with_semaphore scrape i url)) /\
    Some <$> results = filter (fun o => is_Some o) (gather scrape urls) /\
    (Some <$> results) `sublist_of` gather scrape urls /\
    (length results <= length urls)%nat.
Proof.
  intros Hmc. exists (valid_results (gather scrape urls)).
  assert (Hlen : length (gather scrape urls) = length urls) by apply length_imap.
  split; [| split; [exact Hlen | split; [| split; [| split]]]].
  - unfold batch_scrape.
    destruct (max_concurrent <? 0) eqn:E1; [apply Z.ltb_lt in E1; lia |].
    destruct (max_concurrent =? 0) eqn:E2; [apply Z.eqb_eq in E2; lia |].
    reflexivity.
  - intros i url Hi. unfold gather. rewrite list_lookup_imap, Hi. reflexivity.
  - apply valid_results_filter.
  - rewrite valid_results_filter. apply sublist_filter.
  - rewrite <- Hlen, <- (length_fmap Some), valid_results_filter.
    apply length_filter.
Qed.

End BatchFacts.

Lemma batch_scrape_keeps_successes_in_order_witness :
  exists results,
    batch_scrape scrape_b_fails ["a"; "b"; "c"] 2 = Returns results /\
    length (gather scrape_b_fails ["a"; "b"; "c"]) = length ["a"; "b"; "c"] /\
    (forall i url, ["a"; "b"; "c"] !! i = Some url ->
       gather scrape_b_fails ["a"; "b"; "c"] !! i
       = Some (scrape_with_semaphore scrape_b_fails i url)) /\
    Some <$> results = filter (fun o => is_Some o) (gather scrape_b_fails ["a"; "b"; "c"]) /\
    (Some <$> results) `sublist_of` gather scrape_b_fails ["a"; "b"; "c"] /\
    (length results <= length ["a"; "b"; "c"])%nat.
Proof.
  apply (batch_scrape_keeps_successes_in_order scrape_b_fails ["a"; "b"; "c"] 2).
  lia.
Defined.

(** C4, as stated, fails: for the URLs a, b, c with b failing, the
    returned list has two entries, not one per input URL; nothing stands
    for b. *)
Lemma batch_scrape_drops_failed_url :
  batch_scrape scrape_b_fails ["a"; "b"; "c"] 2 = Returns ["body_a"; "body_c"] /\
  length ["body_a"; "body_c"] <> length ["a"; "b"; "c"].
Proof. split; [vm_compute; reflexivity | simpl; lia]. Qed.

(** The tasks of a batch work on one instance, so what a task obtains
    depends on what the tasks before it did.  With two proxies configured
    and a page "a" that the evasive client cannot reach, the call for "a"
    removes the first proxy from the rotation and leaves the rotation
    index past its end; the call for "b" then raises in its first attempt
    and its task yields [None].  Alone, "b" is fetched. *)
Example batch_siblings_share_instance :
  let a := "http://example/a" in
  let b := "http://example/b" in
  batch_scrape (scrape_in_turn net_a_fails two_proxies [b]) [b] 1 = Returns ["B"] /\
  scrape_in_turn net_a_fails two_proxies [a; b] 0 a = Raise RetryError /\
  scrape_in_turn net_a_fails two_proxies [a; b] 1 b = Raise UnboundLocalError /\
  batch_scrape (scrape_in_turn net_a_fails two_proxies [a; b]) [a; b] 1 = Returns [].
Proof. vm_compute. repeat split; reflexivity. Qed.

(** With no slot at all the batch never completes, and a negative bound
    is refused. *)
Example batch_scrape_zero_slots :
  batch_scrape scrape_b_fails ["a"] 0 = Blocks /\
  batch_scrape scrape_b_fails ["a"] (-1) = Raises ValueError.
Proof. split; reflexivity. Qed.

(** ** The processed-URL set *)

(** C7: [mark_processed] is idempotent.  After a first call for a URL,
    [is_processed] is true, and any number of further calls for that URL,
    at whatever times, leave the store exactly as the first call left it
    (the operation is a total function: nothing is raised). *)
Theorem mark_processed_idempotent (url : string) (now : Z) (later : list Z)
        (db : Storage.SQLiteStorage) :
  let once := Storage.mark_processed url now db in
  let again := fold_left (fun d t => Storage.mark_processed url t d) later once in
  Storage.is_processed url once = true /\
  again = once /\
  Storage.is_processed url again = true.
Proof.
  intros once again.
  assert (Hin : Storage.is_processed url once = true).
  { unfold once, Storage.mark_processed, Storage.is_processed.
    destruct (Storage.processed_urls db !! url) eqn:E; simpl.
    - rewrite E. reflexivity.
    - rewrite lookup_insert_eq. reflexivity. }
  assert (Hfix : forall t, Storage.mark_processed url t once = once).
  { intros t. unfold Storage.is_processed in Hin. unfold Storage.mark_processed at 1.
    destruct (Storage.processed_urls once !! url); [reflexivity | discriminate]. }
  assert (Hagain : again = once).
  { unfold again. induction later as [| t later IH]; simpl; [reflexivity |].
    rewrite Hfix. exact IH. }
  rewrite Hagain. auto.
Qed.

(** Marking one URL leaves the others as they were. *)
Lemma mark_processed_other (url other : string) (now : Z) (db : Storage.SQLiteStorage) :
  url <> other ->
  Storage.is_processed other (Storage.mark_processed url now db)
  = Storage.is_processed other db.
Proof.
  intros Hne. unfold Storage.mark_processed, Storage.is_processed.
  destruct (Storage.processed_urls db !! url); simpl; [reflexivity |].
  rewrite lookup_insert_ne by exact Hne. reflexivity.
Qed.

(** ** Cache keys *)

(** A call writes the session cache under its own key only. *)
Lemma fetch_writes_own_key net url method w r w' key :
  key <> cache_key url method ->
  fetch net url method w = (r, w') ->
  session_cache (scraper w') !! key = session_cache (scraper w) !! key.
Proof.
  intros Hne H.
  destruct (session_cache (scraper w) !! cache_key url method) as [b |] eqn:Hc.
  - rewrite (fetch_hit _ _ _ _ _ Hc) in H. inversion H; subst. reflexivity.
  - apply fetch_miss in H; [| exact Hc].
    destruct H as [(b & _ & _ & Hc' & _) | [(_ & Hc' & _) | (e & _ & Hc' & _)]];
      rewrite Hc'; [| reflexivity | reflexivity].
    apply lookup_insert_ne. congruence.
Qed.

(** What a reader finds after a write: the body, as long as the row got
    an expiry and that expiry lies ahead. *)
Lemma cache_response_then_get (url body : string) (hours now later : Z)
      (db : Storage.SQLiteStorage) :
  Storage.get_cached_response url later (Storage.cache_response url body hours now db)
  = if (0 <=? hours) && Storage.valid_datetime (now + 3600 * hours)
       && (later <? now + 3600 * hours)
    then Some body else None.
Proof.
  unfold Storage.get_cached_response, Storage.cache_response, Storage.expiry_after. simpl.
  rewrite lookup_insert_eq. simpl.
  destruct (hours <? 0) eqn:Eh.
  - apply Z.ltb_lt in Eh.
    destruct (0 <=? hours) eqn:E0; [apply Z.leb_le in E0; lia | reflexivity].
  - apply Z.ltb_ge in Eh. rewrite (proj2 (Z.leb_le 0 hours) Eh). simpl.
    destruct (Storage.valid_datetime (now + 3600 * hours)); reflexivity.
Qed.

(** The durable store keeps one row per URL: a fresh row is found under
    its URL, and it has replaced whatever was stored for that URL. *)
Lemma cache_response_replaces (url body : string) (hours now later : Z)
      (db : Storage.SQLiteStorage) :
  0 <= hours ->
  Storage.valid_datetime (now + 3600 * hours) = true ->
  later < now + 3600 * hours ->
  Storage.get_cached_response url later (Storage.cache_response url body hours now db)
  = Some body.
Proof.
  intros Hhours Hvalid Hfresh. rewrite cache_response_then_get, Hvalid.
  rewrite (proj2 (Z.leb_le 0 hours) Hhours), (proj2 (Z.ltb_lt _ _) Hfresh). reflexivity.
Qed.

(** An entry past its expiry is absent for readers. *)
Lemma expired_entry_is_absent (url body : string) (hours now later : Z)
      (db : Storage.SQLiteStorage) :
  now + 3600 * hours <= later ->
  Storage.get_cached_response url later (Storage.cache_response url body hours now db) = None.
Proof.
  intros Hlate. rewrite cache_response_then_get.
  rewrite (proj2 (Z.ltb_ge _ _) Hlate), andb_false_r. reflexivity.
Qed.

(** The sweep removes only what readers already treat as absent. *)
Lemma cleanup_is_invisible (url : string) (swept now : Z) (db : Storage.SQLiteStorage) :
  swept <= now ->
  Storage.get_cached_response url now (Storage.cleanup_expired_cache swept db)
  = Storage.get_cached_response url now db.
Proof.
  intros Hle. unfold Storage.get_cached_response, Storage.cleanup_expired_cache. simpl.
  destruct (Storage.cache db !! url) as [row |] eqn:Hrow.
  - destruct (Storage.survives swept row) eqn:Hs.
    + assert (Hkeep : filter (fun kv => Storage.survives swept kv.2 = true) (Storage.cache db) !! url
                      = Some row)
        by (apply map_lookup_filter_Some; auto).
      rewrite Hkeep. reflexivity.
    + assert (Hgone : filter (fun kv => Storage.survives swept kv.2 = true) (Storage.cache db) !! url
                      = None).
      { apply map_lookup_filter_None. right. intros row' Hrow'. simpl.
        rewrite Hrow in Hrow'. inversion Hrow'; subst. rewrite Hs. discriminate. }
      rewrite Hgone. unfold Storage.survives in Hs.
      destruct (Storage.expiry row) as [e |]; [| discriminate].
      apply negb_false_iff, Z.leb_le in Hs.
      destruct (now <? e) eqn:E; [apply Z.ltb_lt in E; lia | reflexivity].
  - assert (Hgone : filter (fun kv => Storage.survives swept kv.2 = true) (Storage.cache db) !! url
                    = None)
      by (apply map_lookup_filter_None; left; exact Hrow).
    rewrite Hgone. reflexivity.
Qed.

(** The text that is digested names the method: for one URL, two methods
    give two texts. *)
Lemma key_text_names_method (url m1 m2 : string) :
  url +:+ ":" +:+ m1 = url +:+ ":" +:+ m2 -> m1 = m2.
Proof.
  induction url as [| c url IH]; simpl; intros H.
  - injection H as H. exact H.
  - injection H as H. apply IH, H.
Qed.


(** With the GET body "X" of the URL in the session cache, a POST call
    for the same URL does not return it from the cache: it goes to the
    network, and the GET entry stays. *)
Example post_after_cached_get :
  let run := fetch net_challenge "http://example/ok" "POST" seeded in
  fst run = Ok (Some "Y") /\
  session_cache (scraper (snd run)) !! cache_key "http://example/ok" "GET" = Some "X" /\
  session_cache (scraper (snd run)) !! cache_key "http://example/ok" "POST" = Some "Y".
Proof. vm_compute. repeat split; reflexivity. Qed.

(** The two digests of the witness, as [hashlib] gives them. *)
Example cache_key_get :
  cache_key "http://example/ok" "GET" = "1e1323a320cd22cd7682e02f214bd393".
Proof. vm_compute. reflexivity. Qed.

Example cache_key_post :
  cache_key "http://example/ok" "POST" = "8aa512a65a3eaaa235b3933b10a47bd7".
Proof. vm_compute. reflexivity. Qed.


(** ** Stripping the reasoning block *)

Module PyStrFacts.

Import PyStr.

Lemma app_nil (s : string) : "" +:+ s = s.
Proof. reflexivity. Qed.

Lemma app_cons (c : ascii) (a b : string) : String c a +:+ b = String c (a +:+ b).
Proof. reflexivity. Qed.

Lemma length_app (a b : string) :
  String.length (a +:+ b) = (String.length a + String.length b)%nat.
Proof.
  induction a as [| c a IH]; [reflexivity |].
  rewrite app_cons. simpl. rewrite IH. reflexivity.
Qed.

Lemma app_assoc (a b c : string) : (a +:+ b) +:+ c = a +:+ (b +:+ c).
Proof.
  induction a as [| x a IH]; [reflexivity |].
  rewrite !app_cons, IH. reflexivity.
Qed.

Lemma drop_app (a b : string) : drop (String.length a) (a +:+ b) = b.
Proof.
  induction a as [| c a IH]; [destruct b; reflexivity |].
  rewrite app_cons. simpl. exact IH.
Qed.

Lemma startswith_app (needle rest : string) : startswith needle (needle +:+ rest) = true.
Proof.
  induction needle as [| c needle IH]; [reflexivity |].
  rewrite app_cons. simpl. rewrite Ascii.eqb_refl. exact IH.
Qed.

(** Whether [s] starts with [needle] is settled by the first
    [length needle] characters of [s]. *)
Lemma startswith_long (needle : string) : forall s extra,
  (String.length needle <= String.length s)%nat ->
  startswith needle (s +:+ extra) = startswith needle s.
Proof.
  induction needle as [| c needle IH]; intros s extra Hlen.
  - reflexivity.
  - destruct s as [| d s]; simpl in Hlen; [lia |].
    rewrite app_cons. simpl.
    destruct (Ascii.eqb c d); [apply IH; lia | reflexivity].
Qed.

Lemma find_nat_here (needle s : string) :
  startswith needle s = true -> find_nat needle s = Some 0%nat.
Proof. intros H. destruct s; simpl; rewrite H; reflexivity. Qed.

Lemma find_nat_later (needle : string) (c : ascii) (s : string) :
  startswith needle (String c s) = false ->
  find_nat needle (String c s) = option_map S (find_nat needle s).
Proof. intros H. simpl find_nat. rewrite H. reflexivity. Qed.

Lemma contains_cons_false (needle : string) (c : ascii) (s : string) :
  contains needle (String c s) = false ->
  startswith needle (String c s) = false /\ contains needle s = false.
Proof.
  unfold contains.
  destruct (startswith needle (String c s)) eqn:E.
  - rewrite (find_nat_here _ _ E). discriminate.
  - rewrite (find_nat_later _ _ _ E).
    destruct (find_nat needle s); simpl; [discriminate | auto].
Qed.

(** An occurrence is found. *)
Lemma find_nat_occurs (needle a rest : string) :
  exists i, find_nat needle (a +:+ needle +:+ rest) = Some i.
Proof.
  induction a as [| c a (i & IH)].
  - exists 0%nat. rewrite app_nil. apply find_nat_here, startswith_app.
  - rewrite app_cons.
    destruct (startswith needle (String c (a +:+ needle +:+ rest))) eqn:E.
    + exists 0%nat. apply find_nat_here, E.
    + rewrite (find_nat_later _ _ _ E), IH. simpl. eauto.
Qed.

Lemma contains_occurs (needle a rest : string) :
  contains needle (a +:+ needle +:+ rest) = true.
Proof.
  unfold contains. destruct (find_nat_occurs needle a rest) as (i & ->). reflexivity.
Qed.

(** When [needle], which is [init] followed by [last], does not occur in
    [a] followed by [init], its first occurrence in [a], [needle], [rest]
    is the one right after [a]. *)
Lemma find_nat_first (init : string) (last : ascii) (a rest : string) :
  contains (init +:+ String last EmptyString) (a +:+ init) = false ->
  find_nat (init +:+ String last EmptyString)
           (a +:+ (init +:+ String last EmptyString) +:+ rest)
  = Some (String.length a).
Proof.
  set (needle := init +:+ String last EmptyString).
  induction a as [| c a IH]; intros Hfree.
  - rewrite app_nil. apply find_nat_here, startswith_app.
  - rewrite app_cons in Hfree.
    apply contains_cons_false in Hfree as (Hhead & Htail).
    specialize (IH Htail). rewrite app_cons.
    assert (Hno : startswith needle (String c (a +:+ needle +:+ rest)) = false).
    { assert (Heq : String c (a +:+ needle +:+ rest)
                    = String c (a +:+ init) +:+ (String last EmptyString +:+ rest)).
      { unfold needle. rewrite app_cons. f_equal. rewrite !app_assoc. reflexivity. }
      rewrite Heq, startswith_long; [exact Hhead |].
      unfold needle. simpl. rewrite !length_app. simpl. lia. }
    rewrite (find_nat_later _ _ _ Hno), IH. reflexivity.
Qed.

Lemma lstrip_nl_suffix (s : string) :
  exists nl, only_newlines nl = true /\ s = nl +:+ lstrip_nl s.
Proof.
  induction s as [| c s (nl & Hnl & IH)].
  - exists EmptyString. auto.
  - simpl. destruct (Ascii.eqb c newline) eqn:E.
    + exists (String c nl). simpl. rewrite E, Hnl, app_cons.
      split; [reflexivity | congruence].
    + exists EmptyString. auto.
Qed.

End PyStrFacts.

(** When the first closing tag of [content] ends at the start of
    [payload], the fallback branch returns [payload] without its leading
    newlines. *)
Lemma visible_content_after_block (before payload : string) :
  PyStr.contains "</think>" (before +:+ "</think") = false ->
  LLM.visible_content (before +:+ "</think>" +:+ payload) = PyStr.lstrip_nl payload.
Proof.
  intros Hfirst. unfold LLM.visible_content, PyStr.find, LLM.think_close.
  pose proof (PyStrFacts.find_nat_first "</think" ">"%char before payload Hfirst) as Hfind.
  change ("</think" +:+ ">") with "</think>" in Hfind.
  rewrite Hfind.
  f_equal. unfold PyStr.slice_from, PyStr.clamp, PyStr.len.
  rewrite <- PyStrFacts.app_assoc.
  rewrite (PyStrFacts.length_app (before +:+ "</think>") payload).
  rewrite (PyStrFacts.length_app before "</think>").
  simpl String.length.
  destruct (Z.of_nat (String.length before) + Z.of_nat 8 <? 0) eqn:E;
    [apply Z.ltb_lt in E; lia |].
  rewrite Z.min_l by lia.
  replace (Z.to_nat (Z.of_nat (String.length before) + Z.of_nat 8))
    with (String.length (before +:+ "</think>"))
    by (rewrite PyStrFacts.length_app; simpl; lia).
  apply PyStrFacts.drop_app.
Qed.

Lemma has_think_tags_block (pre reasoning payload : string) :
  LLM.has_think_tags (pre +:+ "<think>" +:+ reasoning +:+ "</think>" +:+ payload) = true.
Proof.
  unfold LLM.has_think_tags, LLM.think_open, LLM.think_close.
  rewrite PyStrFacts.contains_occurs. simpl.
  replace (pre +:+ "<think>" +:+ reasoning +:+ "</think>" +:+ payload)
    with ((pre +:+ "<think>" +:+ reasoning) +:+ "</think>" +:+ payload)
    by (rewrite !PyStrFacts.app_assoc; reflexivity).
  apply PyStrFacts.contains_occurs.
Qed.

(** C8, as the code has it: when the response carries no separate
    reasoning (no truthy [reasoning_content], no reasoning chunk in the
    stream) and its text holds a think block whose closing tag is the
    first closing tag of the text, the returned payload is exactly the text
    after that closing tag without its leading newlines, on the
    non-streaming path and on the streaming path alike; the whole text is
    the block (and what precedes it), a run of newlines, and the returned
    payload, so the block is no part of what is returned. *)
Theorem think_block_is_stripped (pre reasoning payload : string)
        (reasoning_content : option string) :
  truthy reasoning_content = false ->
  PyStr.contains "</think>" (pre +:+ "<think>" +:+ reasoning +:+ "</think") = false ->
  let content := pre +:+ "<think>" +:+ reasoning +:+ "</think>" +:+ payload in
  LLM.fw_basic_call content reasoning_content = PyStr.lstrip_nl payload /\
  (forall deltas,
     LLM.final_reasoning_chunks deltas = [] ->
     PyStr.join (LLM.final_text_chunks deltas) = content ->
     LLM.fw_basic_call_stream deltas = PyStr.lstrip_nl payload) /\
  exists nl,
    PyStr.only_newlines nl = true /\
    content = (pre +:+ "<think>" +:+ reasoning +:+ "</think>" +:+ nl)
              +:+ PyStr.lstrip_nl payload.
Proof.
  intros Hnone Hfirst content.
  assert (Hvis : LLM.visible_content content = PyStr.lstrip_nl payload).
  { unfold content.
    replace (pre +:+ "<think>" +:+ reasoning +:+ "</think>" +:+ payload)
      with ((pre +:+ "<think>" +:+ reasoning) +:+ "</think>" +:+ payload)
      by (rewrite !PyStrFacts.app_assoc; reflexivity).
    apply visible_content_after_block.
    rewrite !PyStrFacts.app_assoc. exact Hfirst. }
  assert (Htags : LLM.has_think_tags content = true) by apply has_think_tags_block.
  split; [| split].
  - unfold LLM.fw_basic_call. rewrite Hnone, Htags. exact Hvis.
  - intros deltas Hnor Htext. unfold LLM.fw_basic_call_stream.
    rewrite Hnor, Htext, Htags. simpl. exact Hvis.
  - destruct (PyStrFacts.lstrip_nl_suffix payload) as (nl & Hnl & Hpay).
    exists nl. split; [exact Hnl |].
    unfold content. rewrite Hpay at 1.
    rewrite !PyStrFacts.app_assoc. reflexivity.
Qed.

Lemma think_block_is_stripped_witness :
  let content := "" +:+ "<think>" +:+ "plan" +:+ "</think>" +:+ sample_payload in
  LLM.fw_basic_call content None = PyStr.lstrip_nl sample_payload /\
  (forall deltas,
     LLM.final_reasoning_chunks deltas = [] ->
     PyStr.join (LLM.final_text_chunks deltas) = content ->
     LLM.fw_basic_call_stream deltas = PyStr.lstrip_nl sample_payload) /\
  exists nl,
    PyStr.only_newlines nl = true /\
    content = ("" +:+ "<think>" +:+ "plan" +:+ "</think>" +:+ nl)
              +:+ PyStr.lstrip_nl sample_payload.
Proof.
  apply (think_block_is_stripped "" "plan" sample_payload None).
  - reflexivity.
  - vm_compute. reflexivity.
Defined.

Example think_block_sample :
  LLM.fw_basic_call ("<think>plan</think>" +:+ sample_payload) None = "ANSWER" /\
  LLM.fw_basic_call_stream
    [(None, Some "<think>pl"); (None, Some ""); (None, Some "an</think>");
     (None, Some sample_payload)] = "ANSWER".
Proof. split; vm_compute; reflexivity. Qed.

(** C8, as stated, fails: a response that carries its reasoning apart
    and whose text holds a think block all the same is returned as it is,
    block included, on both paths. *)
Lemma think_block_kept_beside_reasoning :
  LLM.fw_basic_call "<think>plan</think>ANSWER" (Some "plan")
  = "<think>plan</think>ANSWER" /\
  LLM.fw_basic_call_stream [(Some "plan", None); (None, Some "<think>plan</think>ANSWER")]
  = "<think>plan</think>ANSWER" /\
  "<think>plan</think>ANSWER" <> PyStr.lstrip_nl "ANSWER".
Proof. repeat split; [vm_compute; reflexivity .. | vm_compute; discriminate]. Qed.

(** A closing tag that comes before the block is the one the code cuts at. *)
Example stray_closing_tag :
  LLM.fw_basic_call "a</think>b<think>plan</think>c" None = "b<think>plan</think>c".
Proof. vm_compute. reflexivity. Qed.

(** * Further properties *)

(** ** The rotation of proxies *)

Module RotationFacts.

Import Rotator.

Lemma get_proxy_in_range net (r : ProxyRotator) log p :
  working_proxies r !! current_index r = Some p ->
  get_proxy net r log =
    (Ok (Some p),
     {| proxies := proxies r;
        working_proxies := working_proxies r;
        failed_proxies := failed_proxies r;
        current_index := (current_index r + 1) mod length (working_proxies r) |},
     log).
Proof.
  intros Hp. unfold get_proxy.
  destruct (working_proxies r) as [| a l] eqn:Hw; [discriminate |].
  rewrite Hw, Hp. reflexivity.
Qed.

(** [k] calls from slot [i] hand out the slots [i], [i+1], ... modulo the
    length of the rotation. *)
Lemma get_proxies_slots net log (l : list string) k : forall (r : ProxyRotator),
  working_proxies r = l ->
  (current_index r < length l)%nat ->
  get_proxies net k r log =
    ((fun j => Ok (l !! ((current_index r + j) mod length l)%nat)) <$> seq 0 k,
     {| proxies := proxies r;
        working_proxies := l;
        failed_proxies := failed_proxies r;
        current_index := ((current_index r + k) mod length l)%nat |},
     log).
Proof.
  induction k as [| k IH]; intros r Hw Hi.
  - simpl. rewrite Nat.add_0_r, Nat.mod_small by exact Hi.
    destruct r; simpl in *; subst; reflexivity.
  - destruct (lookup_lt_is_Some_2 l (current_index r) Hi) as (p & Hp).
    simpl. rewrite (get_proxy_in_range net r log p) by (rewrite Hw; exact Hp).
    rewrite Hw.
    assert (Hn : length l <> 0%nat) by lia.
    rewrite IH; simpl; [| reflexivity | apply Nat.mod_upper_bound, Hn].
    rewrite Nat.add_0_r, (Nat.mod_small _ _ Hi), Hp.
    f_equal. f_equal.
    + f_equal.
      change (list_fmap nat (result (option string)))
        with (@fmap list _ nat (result (option string))).
      rewrite <- fmap_S_seq, <- list_fmap_compose.
      apply list_fmap_ext. intros _ j _. simpl.
      rewrite Nat.Div0.add_mod_idemp_l.
      do 3 f_equal. lia.
    + f_equal. rewrite Nat.Div0.add_mod_idemp_l. f_equal. lia.
Qed.

(** X1: round robin.  With the index inside the rotation, as many
    [get_proxy] calls as there are working proxies hand out each slot of
    the rotation exactly once, starting at the current slot and wrapping
    around; no health check is run and the rotator is back in the state it
    started from. *)
Theorem get_proxy_round_robin net (r : ProxyRotator) log :
  (current_index r < length (working_proxies r))%nat ->
  get_proxies net (length (working_proxies r)) r log =
    ((fun p => Ok (Some p)) <$>
       (drop (current_index r) (working_proxies r)
        ++ take (current_index r) (working_proxies r))%list,
     r, log).
Proof.
  intros Hi. set (l := working_proxies r) in *. set (i := current_index r) in *.
  rewrite (get_proxies_slots net log l (length l) r eq_refl Hi). fold i.
  assert (Hn : length l <> 0%nat) by lia.
  f_equal. f_equal.
  - apply list_eq. intros j. rewrite !list_lookup_fmap.
    destruct (decide (j < length l)%nat) as [Hj | Hj].
    + rewrite lookup_seq_lt by exact Hj. simpl.
      destruct (decide (j < length l - i)%nat) as [Hlow | Hhigh].
      * rewrite lookup_app_l by (rewrite length_drop; exact Hlow).
        rewrite lookup_drop, Nat.mod_small by lia.
        destruct (lookup_lt_is_Some_2 l (i + j)) as (p & Hp); [lia |].
        rewrite Hp. reflexivity.
      * rewrite lookup_app_r by (rewrite length_drop; lia).
        rewrite length_drop, lookup_take_lt by lia.
        replace ((i + j) mod length l)%nat with (j - (length l - i))%nat.
        { destruct (lookup_lt_is_Some_2 l (j - (length l - i))) as (p & Hp); [lia |].
          rewrite Hp. reflexivity. }
        apply (Nat.mod_unique _ _ 1); lia.
    + rewrite lookup_seq_ge by lia.
      rewrite (lookup_ge_None_2 (drop i l ++ take i l)); [reflexivity |].
      rewrite length_app, length_drop, length_take. lia.
  - replace ((i + length l) mod length l)%nat with i.
    { destruct r; reflexivity. }
    apply (Nat.mod_unique _ _ 1); lia.
Qed.

Lemma get_proxy_round_robin_witness :
  let r := {| proxies := ["a"; "b"; "c"]; working_proxies := ["a"; "b"; "c"];
              failed_proxies := ∅; current_index := 1 |} in
  get_proxies net_down 3 r [] = ([Ok (Some "b"); Ok (Some "c"); Ok (Some "a")], r, []).
Proof.
  intros r.
  apply (get_proxy_round_robin net_down r []).
  simpl. lia.
Defined.

(** *** The health check *)

Lemma gather_tests_kept_sublist net (ps : list string) : forall log,
  keep_truthy (fst (gather_tests net ps log)) `sublist_of` ps.
Proof.
  induction ps as [| p ps IH]; intros log; simpl; [constructor |].
  specialize (IH (ProxyTest p :: log)).
  destruct (gather_tests net ps (ProxyTest p :: log)) as [rs log']. simpl in *.
  destruct (proxy_alive net (length log) p); simpl.
  - destruct (PyStr.truthy p); [apply sublist_skip | apply sublist_cons]; exact IH.
  - apply sublist_cons, IH.
Qed.

Lemma gather_tests_kept_alive net (ps : list string) (p : string) : forall log,
  p ∈ keep_truthy (fst (gather_tests net ps log)) ->
  PyStr.truthy p = true /\
  exists t, (length log <= t < length log + length ps)%nat /\ proxy_alive net t p = true.
Proof.
  induction ps as [| q ps IH]; intros log Hin; simpl in Hin.
  - apply elem_of_nil in Hin as [].
  - specialize (IH (ProxyTest q :: log)).
    destruct (gather_tests net ps (ProxyTest q :: log)) as [rs log']. simpl in *.
    assert (Hrest : p ∈ keep_truthy rs ->
                    PyStr.truthy p = true /\
                    exists t, (length log <= t < length log + S (length ps))%nat /\
                              proxy_alive net t p = true).
    { intros H. destruct (IH H) as (Ht & t & Hrange & Halive).
      split; [exact Ht |]. exists t. split; [lia | exact Halive]. }
    destruct (proxy_alive net (length log) q) eqn:Ealive; simpl in Hin; [| auto].
    destruct (PyStr.truthy q) eqn:Etruthy; [| auto].
    apply elem_of_cons in Hin as [-> | Hin]; [| auto].
    split; [exact Etruthy |]. exists (length log). split; [lia | exact Ealive].
Qed.

Lemma gather_tests_keeps_alive net (ps : list string) (p : string) : forall log,
  p ∈ ps -> PyStr.truthy p = true -> (forall t, proxy_alive net t p = true) ->
  p ∈ keep_truthy (fst (gather_tests net ps log)).
Proof.
  induction ps as [| q ps IH]; intros log Hin Ht Halive.
  - apply elem_of_nil in Hin as [].
  - simpl. specialize (IH (ProxyTest q :: log)).
    destruct (gather_tests net ps (ProxyTest q :: log)) as [rs log']. simpl in *.
    apply elem_of_cons in Hin as [<- | Hin].
    + rewrite Halive. simpl. rewrite Ht. apply elem_of_cons. auto.
    + specialize (IH Hin Ht Halive).
      destruct (proxy_alive net (length log) q); simpl; [| exact IH].
      destruct (PyStr.truthy q); [apply elem_of_cons; auto | exact IH].
Qed.

Lemma test_proxies_working net (r : ProxyRotator) log :
  working_proxies (fst (test_proxies net r log))
  = keep_truthy (fst (gather_tests net (proxies r) log)).
Proof. unfold test_proxies. destruct (gather_tests net (proxies r) log). reflexivity. Qed.

Lemma test_proxies_proxies net (r : ProxyRotator) log :
  proxies (fst (test_proxies net r log)) = proxies r.
Proof. unfold test_proxies. destruct (gather_tests net (proxies r) log). reflexivity. Qed.

Lemma test_proxies_failed net (r : ProxyRotator) log :
  failed_proxies (fst (test_proxies net r log)) = failed_proxies r.
Proof. unfold test_proxies. destruct (gather_tests net (proxies r) log). reflexivity. Qed.

(** X2: the health check.  [test_proxies] tests every configured
    candidate once, in configuration order; the new rotation consists of
    candidates that are non-empty and answered their test, kept in
    configuration order, and contains every non-empty candidate that answers
    whenever it is asked; the configured list, the failed set and the
    rotation index are left as they were. *)
Theorem test_proxies_rebuilds_rotation net (r : ProxyRotator) log :
  let r' := fst (test_proxies net r log) in
  let log' := snd (test_proxies net r log) in
  log' = (rev (ProxyTest <$> proxies r) ++ log)%list /\
  working_proxies r' `sublist_of` proxies r /\
  (forall p, p ∈ working_proxies r' ->
     PyStr.truthy p = true /\
     exists t, (length log <= t < length log')%nat /\ proxy_alive net t p = true) /\
  (forall p, p ∈ proxies r -> PyStr.truthy p = true ->
     (forall t, proxy_alive net t p = true) -> p ∈ working_proxies r') /\
  proxies r' = proxies r /\
  failed_proxies r' = failed_proxies r /\
  current_index r' = current_index r.
Proof.
  unfold test_proxies.
  pose proof (RotatorFacts.gather_tests_log net (proxies r) log) as Hlog.
  pose proof (gather_tests_kept_sublist net (proxies r) log) as Hsub.
  pose proof (fun p => gather_tests_kept_alive net (proxies r) p log) as Halive.
  pose proof (fun p => gather_tests_keeps_alive net (proxies r) p log) as Hkeep.
  destruct (gather_tests net (proxies r) log) as [results logt]. simpl in *.
  split; [exact Hlog |]. split; [exact Hsub |]. split; [| auto].
  intros p Hp. destruct (Halive p Hp) as (Ht & t & Hrange & Ha).
  split; [exact Ht |]. exists t. split; [| exact Ha].
  rewrite Hlog, length_app, length_rev, length_fmap. lia.
Qed.

(** *** Out of range *)

Lemma get_proxy_out_of_range net (r : ProxyRotator) log :
  working_proxies r <> [] ->
  (length (working_proxies r) <= current_index r)%nat ->
  get_proxy net r log = (Raise IndexError, r, log).
Proof.
  intros Hne Hi. unfold get_proxy.
  destruct (working_proxies r) as [| a l] eqn:Hw; [contradiction |].
  rewrite Hw, (lookup_ge_None_2 (a :: l) (current_index r)) by exact Hi.
  reflexivity.
Qed.

Lemma get_proxies_out_of_range net (r : ProxyRotator) log n :
  working_proxies r <> [] ->
  (length (working_proxies r) <= current_index r)%nat ->
  get_proxies net n r log = (replicate n (Raise IndexError), r, log).
Proof.
  intros Hne Hi. induction n as [| n IH]; simpl; [reflexivity |].
  rewrite get_proxy_out_of_range, IH by assumption. reflexivity.
Qed.

Lemma length_list_remove (x : string) (l : list string) :
  x ∈ l -> S (length (list_remove x l)) = length l.
Proof.
  induction l as [| y l IH]; intros Hin; simpl.
  - apply elem_of_nil in Hin as [].
  - destruct (String.eqb_spec x y) as [-> | Hne]; [reflexivity |].
    apply elem_of_cons in Hin as [-> | Hin]; [contradiction |].
    simpl. rewrite IH by exact Hin. reflexivity.
Qed.

(** X4: when a member of a rotation of two or more addresses is marked
    failed while the index points at the last slot, the index is left past
    the end of the shortened rotation: every following [get_proxy] call
    raises [IndexError], runs no health check and changes nothing, however
    often it is repeated. *)
Theorem get_proxy_stuck_after_removal net (r : ProxyRotator) (p : string) log n :
  p ∈ working_proxies r ->
  (2 <= length (working_proxies r))%nat ->
  current_index r = (length (working_proxies r) - 1)%nat ->
  get_proxies net n (mark_failed p r) log
  = (replicate n (Raise IndexError), mark_failed p r, log).
Proof.
  intros Hin Hlen Hidx.
  assert (Hw : working_proxies (mark_failed p r) = list_remove p (working_proxies r)).
  { unfold mark_failed. simpl. rewrite bool_decide_eq_true_2 by exact Hin. reflexivity. }
  pose proof (length_list_remove p _ Hin) as Hshort.
  apply get_proxies_out_of_range.
  - rewrite Hw. intros Hnil. rewrite Hnil in Hshort. simpl in Hshort. lia.
  - rewrite Hw. simpl. lia.
Qed.

Lemma get_proxy_stuck_after_removal_witness :
  let r := {| proxies := ["a"; "b"]; working_proxies := ["a"; "b"];
              failed_proxies := ∅; current_index := 1 |} in
  get_proxies net_ok 3 (mark_failed "a" r) []
  = (replicate 3 (Raise IndexError), mark_failed "a" r, []).
Proof.
  intros r. apply (get_proxy_stuck_after_removal net_ok r "a" [] 3).
  - apply elem_of_cons. left. reflexivity.
  - simpl. lia.
  - reflexivity.
Defined.

(** The state of the witness is the one a first [get_proxy] call and the
    failure of the proxy it handed out lead to. *)
Example stuck_state_is_reached :
  let '(res, r1, _) := get_proxy net_ok (init ["a"; "b"]) [] in
  res = Ok (Some "a") /\
  r1 = {| proxies := ["a"; "b"]; working_proxies := ["a"; "b"];
          failed_proxies := ∅; current_index := 1 |}.
Proof. vm_compute. split; reflexivity. Qed.

(** *** What a rotator hands out *)

Lemma list_remove_sublist (x : string) (l : list string) :
  list_remove x l `sublist_of` l.
Proof.
  induction l as [| y l IH]; simpl; [constructor |].
  destruct (String.eqb x y); [apply sublist_cons; reflexivity | apply sublist_skip, IH].
Qed.

Lemma init_sound ps : rotation_sound (init ps).
Proof. intros p Hp. apply elem_of_nil in Hp as []. Qed.

Lemma mark_failed_sound p r : rotation_sound r -> rotation_sound (mark_failed p r).
Proof.
  intros Hr q Hq. apply Hr. unfold mark_failed in Hq. simpl in Hq.
  case_bool_decide; [| exact Hq].
  eapply elem_of_sublist; [exact Hq | apply list_remove_sublist].
Qed.

Lemma test_proxies_sound net r log : rotation_sound (fst (test_proxies net r log)).
Proof.
  intros p Hp. rewrite test_proxies_working in Hp. rewrite test_proxies_proxies. split.
  - eapply elem_of_sublist; [exact Hp | apply gather_tests_kept_sublist].
  - eapply gather_tests_kept_alive, Hp.
Qed.

Lemma get_proxy_sound net r log :
  rotation_sound r ->
  let '(res, r', _) := get_proxy net r log in
  rotation_sound r' /\ proxies r' = proxies r /\
  forall p, res = Ok (Some p) -> p ∈ proxies r /\ PyStr.truthy p = true.
Proof.
  intros Hr. unfold get_proxy.
  assert (Hpre : rotation_sound
                   (match working_proxies r with
                    | [] => test_proxies net r log
                    | _ :: _ => (r, log)
                    end).1 /\
                 proxies (match working_proxies r with
                          | [] => test_proxies net r log
                          | _ :: _ => (r, log)
                          end).1 = proxies r).
  { destruct (working_proxies r); [| split; [exact Hr | reflexivity]].
    split; [apply test_proxies_sound | apply test_proxies_proxies]. }
  destruct (match working_proxies r with
            | [] => test_proxies net r log
            | _ :: _ => (r, log)
            end) as [r1 log1].
  simpl in Hpre. destruct Hpre as [H1 Hps].
  destruct (working_proxies r1) as [| a l] eqn:Hw.
  - split; [exact H1 |]. split; [exact Hps |]. intros p [=].
  - destruct ((a :: l) !! current_index r1) as [q |] eqn:Hq.
    + split; [| split; [exact Hps |]].
      * intros p Hp. simpl in *. rewrite <- Hw in Hp. apply (H1 p Hp).
      * intros p [= <-]. rewrite <- Hps. apply H1. rewrite Hw.
        eapply list_elem_of_lookup_2, Hq.
    + split; [exact H1 |]. split; [exact Hps |]. intros p [=].
Qed.

(** X3: whatever is done to a rotator built by [ProxyRotator(proxies)] --
    [get_proxy], [mark_failed] and [test_proxies] calls in any order, with
    any network behaviour -- the configured list never changes and every
    address that a [get_proxy] call returns is a non-empty member of it. *)
Theorem run_ops_hands_out_configured net (ops : list rotator_op) (ps : list string) log :
  proxies (run_ops net ops (init ps) log).1.2 = ps /\
  Forall (fun res => forall p, res = Ok (Some p) -> p ∈ ps /\ PyStr.truthy p = true)
         (run_ops net ops (init ps) log).1.1.
Proof.
  assert (Hgen : forall ops r log,
             rotation_sound r ->
             proxies (run_ops net ops r log).1.2 = proxies r /\
             Forall (fun res => forall p, res = Ok (Some p) ->
                                          p ∈ proxies r /\ PyStr.truthy p = true)
                    (run_ops net ops r log).1.1).
  { clear. intros ops. induction ops as [| op ops IH]; intros r log Hr.
    - simpl. split; [reflexivity | constructor].
    - destruct op as [| p |]; simpl.
      + pose proof (get_proxy_sound net r log Hr) as Hget.
        destruct (get_proxy net r log) as [[res r1] log1].
        destruct Hget as (Hr1 & Hps & Hres).
        destruct (IH r1 log1 Hr1) as (Hps' & Hall).
        destruct (run_ops net ops r1 log1) as [[rs r2] log2]. simpl in *.
        split; [congruence |]. constructor; [exact Hres |].
        rewrite <- Hps. exact Hall.
      + destruct (IH (mark_failed p r) log (mark_failed_sound p r Hr)) as (Hps & Hall).
        split; [exact Hps | exact Hall].
      + pose proof (test_proxies_sound net r log) as Hs.
        pose proof (test_proxies_proxies net r log) as Hps.
        destruct (test_proxies net r log) as [r1 log1]. simpl in *.
        destruct (IH r1 log1 Hs) as (Hps' & Hall).
        split; [congruence |]. rewrite <- Hps. exact Hall. }
  apply (Hgen ops (init ps) log), init_sound.
Qed.

(** X5: [mark_failed] records the address in the failed set and takes at
    most one entry out of the rotation: the rotation keeps its order, every
    other address stays in or out as it was, the rotation is one shorter
    when the address was in it and unchanged otherwise; the configured list
    and the index are not touched. *)
Theorem mark_failed_effect (p : string) (r : ProxyRotator) :
  let r' := mark_failed p r in
  p ∈ failed_proxies r' /\
  failed_proxies r ⊆ failed_proxies r' /\
  working_proxies r' `sublist_of` working_proxies r /\
  (forall q, q <> p -> q ∈ working_proxies r' <-> q ∈ working_proxies r) /\
  (p ∈ working_proxies r -> S (length (working_proxies r')) = length (working_proxies r)) /\
  (p ∉ working_proxies r -> working_proxies r' = working_proxies r) /\
  proxies r' = proxies r /\
  current_index r' = current_index r.
Proof.
  unfold mark_failed. simpl.
  split; [set_solver |]. split; [set_solver |].
  assert (Hother : forall (l : list string) q, q <> p -> q ∈ list_remove p l <-> q ∈ l).
  { intros l q Hq. induction l as [| y l IH]; simpl; [reflexivity |].
    destruct (String.eqb_spec p y) as [<- | Hne].
    - rewrite elem_of_cons. split; [auto | intros [? | ?]; [contradiction | assumption]].
    - rewrite !elem_of_cons, IH. reflexivity. }
  case_bool_decide as Hin.
  - split; [apply list_remove_sublist |]. split; [intros q Hq; apply Hother, Hq |].
    split; [intros _; apply length_list_remove, Hin |].
    split; [intros Hout; contradiction | auto].
  - split; [reflexivity |]. split; [reflexivity |].
    split; [intros H; contradiction | auto].
Qed.

End RotationFacts.

(** ** How many requests a call issues *)

Lemma tally_app k (l1 l2 : list event) :
  tally k (l1 ++ l2)%list = (tally k l1 + tally k l2)%nat.
Proof. induction l1 as [| ev l1 IH]; simpl; [reflexivity | rewrite IH; lia]. Qed.

Lemma tally_tests k (ps : list string) :
  (forall p, k (ProxyTest p) = false) -> tally k (rev (map ProxyTest ps)) = 0%nat.
Proof.
  intros Hk. induction ps as [| p ps IH]; simpl; [reflexivity |].
  rewrite tally_app, IH. simpl. rewrite Hk. reflexivity.
Qed.

Lemma grows_refl k n w : grows k n w w.
Proof. exists []. split; [reflexivity | simpl; lia]. Qed.

Lemma grows_trans k n1 n2 w w1 w2 :
  grows k n1 w w1 -> grows k n2 w1 w2 -> grows k (n1 + n2) w w2.
Proof.
  intros (a1 & H1 & B1) (a2 & H2 & B2). exists (a2 ++ a1)%list.
  split; [rewrite H2, H1, app_assoc; reflexivity | rewrite tally_app; lia].
Qed.

Lemma grows_le k n n' w w' : grows k n w w' -> (n <= n')%nat -> grows k n' w w'.
Proof. intros (a & H & B) Hle. exists a. split; [exact H | lia]. Qed.

Lemma within_le {A} k n n' (m : M A) : within k n m -> (n <= n')%nat -> within k n' m.
Proof. intros Hm Hle w. eapply grows_le; [apply Hm | exact Hle]. Qed.

Lemma within_ret {A} k n (a : A) : within k n (ret a).
Proof. intros w. apply grows_refl. Qed.

Lemma within_raise {A} k n (e : exn) : within k n (@raise A e).
Proof. intros w. apply grows_refl. Qed.

Lemma within_get_scraper k n : within k n get_scraper.
Proof. intros w. apply grows_refl. Qed.

Lemma within_update k n f : within k n (update f).
Proof. intros w. exists []. split; [reflexivity | simpl; lia]. Qed.

Lemma within_when k n b m : within k n m -> within k n (when b m).
Proof. destruct b; simpl; [trivial | intros _; apply within_ret]. Qed.

Lemma within_bind {A B} k n1 n2 (m : M A) (f : A -> M B) :
  within k n1 m -> (forall a, within k n2 (f a)) -> within k (n1 + n2) (bind m f).
Proof.
  intros Hm Hf w. unfold bind. specialize (Hm w).
  destruct (m w) as [[a | e] w1]; simpl in Hm.
  - eapply grows_trans; [exact Hm | apply Hf].
  - simpl. eapply grows_le; [exact Hm | lia].
Qed.

Lemma within_bind_le {A B} k n1 n2 n (m : M A) (f : A -> M B) :
  within k n1 m -> (forall a, within k n2 (f a)) -> (n1 + n2 <= n)%nat ->
  within k n (bind m f).
Proof. intros Hm Hf Hle. eapply within_le; [apply within_bind; eassumption | exact Hle]. Qed.

Lemma within_bind_raise {A B} k n (e : exn) (f : A -> M B) : within k n (bind (raise e) f).
Proof. intros w. apply grows_refl. Qed.

Lemma within_attempt {A} k n (m : M A) : within k n m -> within k n (attempt m).
Proof.
  intros Hm w. unfold attempt. specialize (Hm w).
  destruct (m w) as [r w1]. exact Hm.
Qed.

Lemma within_request {A} k n (ev : event) (answer : nat -> A) :
  (tally k [ev] <= n)%nat -> within k n (request ev answer).
Proof. intros Hn w. exists [ev]. split; [reflexivity | exact Hn]. Qed.

Lemma get_proxy_only_tests net (r : ProxyRotator) log :
  exists ps, (ps = [] \/ ps = proxies r) /\
             (Rotator.get_proxy net r log).2 = (rev (map ProxyTest ps) ++ log)%list.
Proof.
  unfold Rotator.get_proxy.
  assert (Hpre : exists ps,
             (ps = [] \/ ps = proxies r) /\
             (match working_proxies r with
              | [] => Rotator.test_proxies net r log
              | _ :: _ => (r, log)
              end).2 = (rev (map ProxyTest ps) ++ log)%list).
  { destruct (working_proxies r).
    - exists (proxies r). split; [auto |]. unfold Rotator.test_proxies.
      pose proof (RotatorFacts.gather_tests_log net (proxies r) log) as Hlog.
      destruct (Rotator.gather_tests net (proxies r) log). exact Hlog.
    - exists []. split; [auto | reflexivity]. }
  destruct (match working_proxies r with
            | [] => Rotator.test_proxies net r log
            | _ :: _ => (r, log)
            end) as [r1 log1].
  destruct Hpre as (ps & Hor & Hps). exists ps. split; [exact Hor |]. simpl in Hps.
  destruct (working_proxies r1); [exact Hps |].
  destruct (_ !! _); exact Hps.
Qed.

Section Budget.

(** The events counted, and what one request of each strategy costs. *)
Variable k : event -> bool.
Variables url method : string.
Variables c_tls c_cs c_fs c_br c_hx : nat.
Hypothesis k_test : forall p, k (ProxyTest p) = false.
Hypothesis k_tls :
  has_netloc url = true -> forall sp, (tally k [TlsRequest url method sp] <= c_tls)%nat.
Hypothesis k_cs : forall p, (tally k [CloudscraperGet url p] <= c_cs)%nat.
Hypothesis k_fs : forall p, (tally k [FlareSolverr url p] <= c_fs)%nat.
Hypothesis k_br : forall p, (tally k [BrowserSession url p] <= c_br)%nat.
Hypothesis k_hx : forall p, (tally k [HttpxRequest url method p] <= c_hx)%nat.

Lemma within_acquire_proxy net n : within k n (acquire_proxy net).
Proof.
  intros w. unfold acquire_proxy.
  destruct (proxy_rotator (scraper w)) as [r |]; [| apply grows_refl].
  destruct (get_proxy_only_tests net r (log w)) as (ps & _ & Hps).
  destruct (Rotator.get_proxy net r (log w)) as [[res r'] log']. simpl in *.
  exists (rev (map ProxyTest ps)). split; [exact Hps |].
  rewrite tally_tests by exact k_test. lia.
Qed.

Lemma within_report_failed n p : within k n (report_failed p).
Proof. apply within_update. Qed.

Lemma within_count_success n : within k n count_success.
Proof. apply within_update. Qed.

(** Splits a [within] goal along the structure of the computation; the
    budget is found on the way. *)
Ltac within_step :=
  match goal with
  | |- within _ _ (bind _ _) => eapply within_bind; [| intros ?]
  | |- within _ _ (attempt _) => apply within_attempt
  | |- within _ _ (ret _) => apply within_ret
  | |- within _ _ (raise _) => apply within_raise
  | |- within _ _ get_scraper => apply within_get_scraper
  | |- within _ _ (update _) => apply within_update
  | |- within _ _ (when _ _) => apply within_when
  | |- within _ _ (acquire_proxy _) => apply within_acquire_proxy
  | |- within _ _ (report_failed _) => apply within_report_failed
  | |- within _ _ count_success => apply within_count_success
  | |- within _ _ (request (CloudscraperGet _ _) _) => apply within_request, k_cs
  | |- within _ _ (request (FlareSolverr _ _) _) => apply within_request, k_fs
  | |- within _ _ (request (BrowserSession _ _) _) => apply within_request, k_br
  | |- within _ _ (request (HttpxRequest _ _ _) _) => apply within_request, k_hx
  | |- within _ _ (match ?x with _ => _ end) => destruct x
  end.

(** Closes the arithmetic left over, budgets not yet fixed being zero. *)
Ltac settle :=
  repeat match goal with
         | |- context [?e] => is_evar e; unify e 0%nat
         end;
  simpl; lia.

Ltac budget := eapply within_le; [repeat within_step | settle].

Lemma within_tls_except p : within k 0 (tls_except p).
Proof. unfold tls_except. budget. Qed.

Lemma within_tls_try net p : within k c_tls (tls_try net url method p).
Proof.
  unfold tls_try.
  apply (within_bind_le k 0 c_tls); [apply within_when, within_update | intros _ | lia].
  destruct (has_netloc url) eqn:E; [| apply within_bind_raise].
  apply (within_bind_le k 0 c_tls); [apply within_ret | intros _ | lia].
  apply (within_bind_le k 0 c_tls); [apply within_get_scraper | intros s | lia].
  apply (within_bind_le k c_tls 0); [apply within_request, (k_tls eq_refl) | | lia].
  intros [status text |]; [| apply within_raise].
  destruct (status =? 200); [| destruct (status =? 403); apply within_ret].
  apply (within_bind_le k 0 0); [apply within_count_success | intros ?; apply within_ret | lia].
Qed.

Lemma within_tls_attempt net p : within k c_tls (tls_attempt net url method p).
Proof.
  unfold tls_attempt.
  apply (within_bind_le k 0 c_tls); [apply within_attempt, within_acquire_proxy | | lia].
  intros [q | e].
  - apply (within_bind_le k c_tls 0); [apply within_attempt, within_tls_try | | lia].
    intros [st | e]; [apply within_ret |].
    apply (within_bind_le k 0 0); [apply within_tls_except | intros ?; apply within_ret | lia].
  - apply (within_bind_le k 0 0); [apply within_tls_except | intros ?; apply within_ret | lia].
Qed.

Lemma within_tls_loop net n : forall p, within k (n * c_tls) (tls_loop net url method n p).
Proof.
  induction n as [| n IH]; intros p; simpl.
  - apply within_ret.
  - apply within_bind; [apply within_tls_attempt |].
    intros [[v |] p']; [apply within_ret | apply IH].
Qed.

Lemma within_fetch_tls_client net : within k (5 * c_tls) (_fetch_tls_client net url method).
Proof. apply within_tls_loop. Qed.

Lemma within_use_flaresolverr net p : within k c_fs (_use_flaresolverr net url p).
Proof. unfold _use_flaresolverr. apply within_request, k_fs. Qed.

Lemma within_bypass_cloudflare net p : within k (c_cs + c_fs) (bypass_cloudflare net url p).
Proof.
  unfold bypass_cloudflare.
  apply within_bind; [apply within_request, k_cs |].
  intros [status text |]; [| apply within_use_flaresolverr].
  destruct (status =? 200); [apply within_ret | apply within_use_flaresolverr].
Qed.

Lemma within_fetch_cloudscraper net : within k (c_cs + c_fs) (_fetch_cloudscraper net url).
Proof.
  unfold _fetch_cloudscraper.
  apply (within_bind_le k (c_cs + c_fs) 0); [| intros [v | e]; apply within_ret | lia].
  apply within_attempt.
  apply (within_bind_le k 0 (c_cs + c_fs)); [apply within_acquire_proxy | | lia].
  intros p.
  apply (within_bind_le k (c_cs + c_fs) 0); [apply within_bypass_cloudflare | | lia].
  intros [content |]; [| apply within_ret].
  apply (within_bind_le k 0 0); [apply within_count_success | intros ?; apply within_ret | lia].
Qed.

Lemma within_fetch_browser net : within k c_br (_fetch_browser net url).
Proof. unfold _fetch_browser. budget. Qed.

Lemma within_httpx_attempt net : within k c_hx (httpx_attempt net url method).
Proof. unfold httpx_attempt. budget. Qed.

Lemma within_retry {A} (m : M A) c n : within k c m -> within k (n * c) (retry n m).
Proof.
  intros Hm. induction n as [| n IH]; simpl.
  - apply within_raise.
  - apply within_bind; [apply within_attempt, Hm |].
    intros [v | e]; [apply within_ret | apply IH].
Qed.

Lemma within_fetch_httpx net : within k (3 * c_hx) (_fetch_httpx net url method).
Proof. apply within_retry, within_httpx_attempt. Qed.

Lemma within_remember n key content : within k n (remember key content).
Proof. unfold remember. budget. Qed.

Lemma within_exhausted n u : within k n (exhausted u).
Proof. unfold exhausted. budget. Qed.

(** A strategy followed by "store and return, or go on", the budget of what
    follows depending on the browser switch. *)
Lemma strategy_then_grows {n1} (rest : bool -> nat) key
      (m : M (option string)) (next : M (option string)) :
  within k n1 m -> frames m ->
  (forall w, grows k (rest (use_browser (scraper w))) w (snd (next w))) ->
  forall w, grows k (n1 + rest (use_browser (scraper w))) w
              (snd (bind m (fun content =>
                              if truthy content then remember key content else next) w)).
Proof.
  intros Hm Hf Hnext w. unfold bind. specialize (Hm w).
  destruct (m w) as [[content | e] w1] eqn:E; simpl in Hm.
  - destruct (Hf _ _ _ E) as (_ & _ & Hb).
    eapply grows_trans; [exact Hm |]. rewrite <- Hb.
    destruct (truthy content); [| apply Hnext].
    apply within_remember.
  - simpl. eapply grows_le; [exact Hm | lia].
Qed.

Lemma grows_fetch_from_httpx net key w :
  grows k (3 * c_hx) w (snd (fetch_from_httpx net url method key w)).
Proof.
  unfold fetch_from_httpx.
  pose proof (strategy_then_grows (fun _ => 0%nat) key
                (_fetch_httpx net url method) (exhausted url)
                (within_fetch_httpx net) (frames_fetch_httpx net url method)
                (within_exhausted 0 url) w) as H.
  cbv beta in H. eapply grows_le; [exact H | lia].
Qed.

Lemma grows_fetch_from_browser net key w :
  grows k ((if use_browser (scraper w) then c_br else 0) + 3 * c_hx) w
        (snd (fetch_from_browser net url method key w)).
Proof.
  unfold fetch_from_browser, bind at 1, get_scraper.
  destruct (use_browser (scraper w)) eqn:Eb.
  - pose proof (strategy_then_grows (fun _ => (3 * c_hx)%nat) key
                  (_fetch_browser net url) (fetch_from_httpx net url method key)
                  (within_fetch_browser net) (frames_fetch_browser net url)
                  (grows_fetch_from_httpx net key) w) as H.
    exact H.
  - apply grows_fetch_from_httpx.
Qed.

Lemma grows_fetch_from_cloudscraper net key w :
  grows k (c_cs + c_fs + ((if use_browser (scraper w) then c_br else 0) + 3 * c_hx)) w
        (snd (fetch_from_cloudscraper net url method key w)).
Proof.
  unfold fetch_from_cloudscraper.
  exact (strategy_then_grows
           (fun b => ((if b then c_br else 0) + 3 * c_hx)%nat) key
           (_fetch_cloudscraper net url) (fetch_from_browser net url method key)
           (within_fetch_cloudscraper net) (frames_fetch_cloudscraper net url)
           (grows_fetch_from_browser net key) w).
Qed.

Lemma grows_fetch net w :
  grows k (5 * c_tls + (c_cs + c_fs + ((if use_browser (scraper w) then c_br else 0) + 3 * c_hx)))
        w (snd (fetch net url method w)).
Proof.
  unfold fetch, bind at 1, get_scraper.
  destruct (session_cache (scraper w) !! cache_key url method); [apply grows_refl |].
  exact (strategy_then_grows
           (fun b => (c_cs + c_fs + ((if b then c_br else 0) + 3 * c_hx))%nat)
           (cache_key url method)
           (_fetch_tls_client net url method)
           (fetch_from_cloudscraper net url method (cache_key url method))
           (within_fetch_tls_client net) (frames_fetch_tls_client net url method)
           (grows_fetch_from_cloudscraper net (cache_key url method)) w).
Qed.

End Budget.


(** ** After the 403 *)

(** Taking a proxy logs proxy tests only. *)
Lemma acquire_proxy_only_tests net w :
  exists ps, log (snd (acquire_proxy net w)) = (rev (map ProxyTest ps) ++ log w)%list.
Proof.
  unfold acquire_proxy.
  destruct (proxy_rotator (scraper w)) as [r |]; [| exists []; reflexivity].
  destruct (get_proxy_only_tests net r (log w)) as (ps & _ & Hps).
  destruct (Rotator.get_proxy net r (log w)) as [[res r'] log']. simpl in *.
  exists ps. exact Hps.
Qed.

(** Whatever follows the cloudscraper strategy only appends to the log. *)
Lemma fetch_from_browser_appends net url method key w :
  exists added, log (snd (fetch_from_browser net url method key w)) = (added ++ log w)%list.
Proof.
  destruct (grows_fetch_from_browser (fun _ => false) url method 0 0
              ltac:(reflexivity) ltac:(intros; simpl; lia) ltac:(intros; simpl; lia)
              net key w) as (added & Hlog & _).
  exists added. exact Hlog.
Qed.

(** Once the cloudscraper strategy has its proxy, the first request of the
    rest of the cascade is cloudscraper's, for the URL, through that
    proxy. *)
Lemma cloudscraper_comes_first net url method key w p w3 :
  acquire_proxy net w = (Ok p, w3) ->
  exists rest,
    log (snd (fetch_from_cloudscraper net url method key w))
    = (rest ++ CloudscraperGet url (if truthy p then p else None) :: log w3)%list.
Proof.
  intros Hacq.
  set (used := if truthy p then p else None).
  assert (Hrest : forall (content : option string) (w4 : World) (pre : list event),
             log w4 = (pre ++ CloudscraperGet url used :: log w3)%list ->
             exists rest,
               log (snd ((if truthy content then remember key content
                          else fetch_from_browser net url method key) w4))
               = (rest ++ CloudscraperGet url used :: log w3)%list).
  { intros content w4 pre Hlog. destruct (truthy content).
    - exists pre. destruct content; exact Hlog.
    - destruct (fetch_from_browser_appends net url method key w4) as (added & Hadded).
      exists (added ++ pre)%list. rewrite Hadded, Hlog, app_assoc. reflexivity. }
  unfold fetch_from_cloudscraper, _fetch_cloudscraper.
  cbv [bind attempt]. rewrite Hacq.
  cbv [bypass_cloudflare bind request _use_flaresolverr]. fold used.
  destruct (cloudscraper_get net (length (log w3)) url used) as [status text |].
  - destruct (status =? 200).
    + cbv [ret count_success update bind].
      apply (Hrest (Some text) _ []). reflexivity.
    + cbv [ret count_success update bind].
      destruct (flaresolverr_post net _ url used) as [content |].
      * apply (Hrest (Some content) _ [FlareSolverr url used]). reflexivity.
      * apply (Hrest None _ [FlareSolverr url used]). reflexivity.
  - cbv [ret count_success update bind].
    destruct (flaresolverr_post net _ url used) as [content |].
    + apply (Hrest (Some content) _ [FlareSolverr url used]). reflexivity.
    + apply (Hrest None _ [FlareSolverr url used]). reflexivity.
Qed.

(** When cloudscraper is answered 200 with a body, the body is stored and
    returned, and nothing else is requested. *)
Lemma cloudscraper_answers net url method key w p w3 body :
  acquire_proxy net w = (Ok p, w3) ->
  cloudscraper_get net (length (log w3)) url (if truthy p then p else None)
  = Response 200 body ->
  PyStr.truthy body = true ->
  exists w',
    fetch_from_cloudscraper net url method key w = (Ok (Some body), w') /\
    log w' = CloudscraperGet url (if truthy p then p else None) :: log w3 /\
    session_cache (scraper w') = <[key := body]> (session_cache (scraper w3)).
Proof.
  intros Hacq Hresp Hbody.
  unfold fetch_from_cloudscraper, _fetch_cloudscraper.
  cbv [bind attempt]. rewrite Hacq.
  cbv [bypass_cloudflare bind request]. rewrite Hresp. simpl.
  rewrite Hbody. eexists. split; [reflexivity |]. split; reflexivity.
Qed.

(** C3: whenever the TLS-client strategy, at whichever of its attempts,
    has its request answered with status 403, [_fetch_tls_client] returns
    [None] right after that request -- the world it leaves is the one just
    after the 403, whatever number of attempts was left -- and on a cache
    miss [fetch] goes on with the cloudscraper strategy: the call sends no
    further TLS-client request; once the cloudscraper strategy has taken
    its proxy, which logs proxy tests only, the next request of the call
    is cloudscraper's, for the URL and through that proxy; and when that
    request is answered 200 with a body, the call returns the body, stores
    it under the key, and requests nothing else. *)
Theorem tls_403_short_circuits net url method w0 n proxy0 w proxy w1 text :
  tls_turns net url method 5 Unbound w0 (S n) proxy0 w ->
  acquire_proxy net w = (Ok proxy, w1) ->
  has_netloc url = true ->
  let s2 := install_proxy proxy (scraper w1) in
  tls_send net (length (log w1)) url method (tls_session_proxies s2) = Response 403 text ->
  let w2 := {| scraper := s2;
               log := TlsRequest url method (tls_session_proxies s2) :: log w1 |} in
  _fetch_tls_client net url method w0 = (Ok None, w2) /\
  (session_cache (scraper w0) !! cache_key url method = None ->
   exists r w',
     fetch net url method w0 = (r, w') /\
     (exists added, log w' = (added ++ log w2)%list /\ tally is_tls added = 0%nat) /\
     (forall p w3, acquire_proxy net w2 = (Ok p, w3) ->
        let used := if truthy p then p else None in
        (exists tests rest,
           log w3 = (rev (map ProxyTest tests) ++ log w2)%list /\
           log w' = (rest ++ CloudscraperGet url used :: log w3)%list) /\
        (forall body,
           cloudscraper_get net (length (log w3)) url used = Response 200 body ->
           PyStr.truthy body = true ->
           r = Ok (Some body) /\
           log w' = CloudscraperGet url used :: log w3 /\
           session_cache (scraper w') !! cache_key url method = Some body))).
Proof.
  intros Hturns Hacq Hurl s2 Hresp w2.
  assert (Hstop : _fetch_tls_client net url method w0 = (Ok None, w2)).
  { unfold _fetch_tls_client. rewrite (tls_turns_loop _ _ _ _ _ _ _ _ _ Hturns).
    simpl. unfold bind at 1.
    rewrite (tls_attempt_403 net url method proxy0 w proxy w1 text Hacq Hurl Hresp).
    reflexivity. }
  split; [exact Hstop |].
  intros Hmiss.
  assert (Hgo : fetch net url method w0
                = fetch_from_cloudscraper net url method (cache_key url method) w2).
  { unfold fetch, bind at 1, get_scraper. rewrite Hmiss.
    unfold bind at 1. rewrite Hstop. reflexivity. }
  rewrite Hgo.
  destruct (fetch_from_cloudscraper net url method (cache_key url method) w2) as [r w'] eqn:E.
  exists r, w'. split; [reflexivity |]. split.
  - destruct (grows_fetch_from_cloudscraper is_tls url method 0 0 0 0
                ltac:(reflexivity) ltac:(intros; simpl; lia) ltac:(intros; simpl; lia)
                ltac:(intros; simpl; lia) ltac:(intros; simpl; lia)
                net (cache_key url method) w2) as (added & Hlog & Hn).
    rewrite E in Hlog. simpl in Hlog. exists added. split; [exact Hlog |].
    destruct (use_browser (scraper w2)); simpl in Hn; lia.
  - intros p w3 Hacq2 used. split.
    + destruct (acquire_proxy_only_tests net w2) as (tests & Htests).
      rewrite Hacq2 in Htests. simpl in Htests.
      destruct (cloudscraper_comes_first net url method (cache_key url method) w2 p w3 Hacq2)
        as (rest & Hrest).
      rewrite E in Hrest. simpl in Hrest.
      exists tests, rest. split; [exact Htests | exact Hrest].
    + intros body Hbody Htruthy.
      destruct (cloudscraper_answers net url method (cache_key url method) w2 p w3 body
                  Hacq2 Hbody Htruthy) as (w'' & Hrun & Hlog & Hcache).
      rewrite E in Hrun. injection Hrun as -> ->.
      split; [reflexivity |]. split; [exact Hlog |].
      rewrite Hcache. apply lookup_insert_eq.
Qed.

Lemma tls_403_short_circuits_witness :
  let url := "http://example/403" in
  let w2 := {| scraper := new_scraper false [];
               log := [TlsRequest url "GET" None; TlsRequest url "GET" None] |} in
  _fetch_tls_client net_challenge url "GET" fresh = (Ok None, w2) /\
  (session_cache (scraper fresh) !! cache_key url "GET" = None ->
   exists r w',
     fetch net_challenge url "GET" fresh = (r, w') /\
     (exists added, log w' = (added ++ log w2)%list /\ tally is_tls added = 0%nat) /\
     (forall p w3, acquire_proxy net_challenge w2 = (Ok p, w3) ->
        let used := if truthy p then p else None in
        (exists tests rest,
           log w3 = (rev (map ProxyTest tests) ++ log w2)%list /\
           log w' = (rest ++ CloudscraperGet url used :: log w3)%list) /\
        (forall body,
           cloudscraper_get net_challenge (length (log w3)) url used = Response 200 body ->
           PyStr.truthy body = true ->
           r = Ok (Some body) /\
           log w' = CloudscraperGet url used :: log w3 /\
           session_cache (scraper w') !! cache_key url "GET" = Some body))).
Proof.
  intros url w2.
  apply (tls_403_short_circuits net_challenge url "GET" fresh 3 (Bound None)
           {| scraper := new_scraper false []; log := [TlsRequest url "GET" None] |}
           None
           {| scraper := new_scraper false []; log := [TlsRequest url "GET" None] |} "").
  - eapply turns_more; [vm_compute; reflexivity | apply turns_here].
  - reflexivity.
  - reflexivity.
  - reflexivity.
Defined.

(** ** Which proxies an instance uses *)

Section Configured.

Variable cfg : list string.

Lemma known_None : known cfg None.
Proof. intros q [=]. Qed.

Lemma known_pick (p : option string) :
  known cfg p -> known cfg (if truthy p then p else None).
Proof. intros Hp. destruct (truthy p); [exact Hp | apply known_None]. Qed.

Lemma keeps_ret {A} I (a : A) : keeps I (ret a).
Proof. intros w Hw. exact Hw. Qed.

Lemma keeps_raise {A} I (e : exn) : keeps I (@raise A e).
Proof. intros w Hw. exact Hw. Qed.

Lemma keeps_bind {A B} I (m : M A) (f : A -> M B) :
  keeps I m -> (forall a, keeps I (f a)) -> keeps I (bind m f).
Proof.
  intros Hm Hf w Hw. unfold bind. specialize (Hm w Hw).
  destruct (m w) as [[a | e] w1]; [apply Hf, Hm | exact Hm].
Qed.

Lemma keeps_bind_good {A B} I (good : A -> Prop) (m : M A) (f : A -> M B) :
  keeps I m -> yields I good m -> (forall a, good a -> keeps I (f a)) ->
  keeps I (bind m f).
Proof.
  intros Hm Hy Hf w Hw. unfold bind. specialize (Hm w Hw). specialize (Hy w).
  destruct (m w) as [[a | e] w1]; [| exact Hm].
  apply Hf; [apply Hy; [exact Hw | reflexivity] | exact Hm].
Qed.

Lemma keeps_attempt {A} I (m : M A) : keeps I m -> keeps I (attempt m).
Proof.
  intros Hm w Hw. unfold attempt. specialize (Hm w Hw).
  destruct (m w) as [r w1]. exact Hm.
Qed.

Lemma yields_attempt {A} I (good : A -> Prop) (m : M A) :
  yields I good m ->
  yields I (fun r => match r with Ok a => good a | Raise _ => True end) (attempt m).
Proof.
  intros Hm w r Hw. unfold attempt. specialize (Hm w).
  destruct (m w) as [[a | e] w1]; simpl; intros [= <-]; [| exact Logic.I].
  apply Hm; [exact Hw | reflexivity].
Qed.

Lemma keeps_update (f : BaseScraper -> BaseScraper) :
  (forall s, scraper_from cfg s -> scraper_from cfg (f s)) ->
  keeps (proxies_from cfg) (update f).
Proof. intros Hf w [Hs Hl]. split; [apply Hf, Hs | exact Hl]. Qed.

Lemma keeps_request {A} (ev : event) (answer : nat -> A) :
  known cfg (proxy_of ev) -> keeps (proxies_from cfg) (request ev answer).
Proof.
  intros Hev w [Hs Hl]. split; [exact Hs |].
  simpl. constructor; [exact Hev | exact Hl].
Qed.

Lemma keeps_acquire_proxy net : keeps (proxies_from cfg) (acquire_proxy net).
Proof.
  intros w Hw. unfold acquire_proxy.
  destruct (proxy_rotator (scraper w)) as [r |] eqn:Er; [| exact Hw].
  destruct Hw as [[Hrot Htls] Hlog].
  destruct (Hrot r Er) as [Hcfg Hsound].
  pose proof (RotationFacts.get_proxy_sound net r (log w) Hsound) as Hget.
  destruct (get_proxy_only_tests net r (log w)) as (ps & Hps & Hlog').
  destruct (Rotator.get_proxy net r (log w)) as [[res r'] log'].
  destruct Hget as (Hsound' & Hcfg' & _). simpl in *.
  split; [split |].
  - intros r0 [= <-]. split; [congruence | exact Hsound'].
  - exact Htls.
  - rewrite Hlog'. apply Forall_app. split; [| exact Hlog].
    apply Forall_rev, Forall_forall. intros ev Hev.
    apply list_elem_of_fmap in Hev as (p & -> & Hp). intros q [= <-].
    destruct Hps as [-> | ->]; [apply elem_of_nil in Hp as [] | congruence].
Qed.

Lemma yields_acquire_proxy net :
  yields (proxies_from cfg) (known cfg) (acquire_proxy net).
Proof.
  intros w p [[Hrot Htls] Hlog]. unfold acquire_proxy.
  destruct (proxy_rotator (scraper w)) as [r |] eqn:Er.
  - destruct (Hrot r eq_refl) as [Hcfg Hsound].
    pose proof (RotationFacts.get_proxy_sound net r (log w) Hsound) as Hget.
    destruct (Rotator.get_proxy net r (log w)) as [[res r'] log'].
    destruct Hget as (_ & _ & Hres). simpl. intros -> q [= ->].
    rewrite <- Hcfg. apply (Hres q eq_refl).
  - simpl. intros [= <-]. apply known_None.
Qed.

Lemma keeps_report_failed p : keeps (proxies_from cfg) (report_failed p).
Proof.
  apply keeps_update. intros s Hs.
  destruct p as [p |]; [| exact Hs].
  destruct (proxy_rotator s) as [r |] eqn:Er; [| exact Hs].
  destruct (PyStr.truthy p); [| exact Hs].
  destruct Hs as [Hrot Htls].
  split; [| exact Htls]. intros r0 [= <-].
  destruct (Hrot r Er) as [Hcfg Hsound].
  split; [exact Hcfg | apply RotationFacts.mark_failed_sound, Hsound].
Qed.

Lemma keeps_count_success : keeps (proxies_from cfg) count_success.
Proof. apply keeps_update. intros s Hs. exact Hs. Qed.

Lemma keeps_tls_except p : keeps (proxies_from cfg) (tls_except p).
Proof.
  destruct p as [| p]; simpl; [apply keeps_raise |].
  apply keeps_bind; [apply keeps_report_failed | intros ?; apply keeps_ret].
Qed.

Lemma keeps_tls_try net url method p :
  known cfg p -> keeps (proxies_from cfg) (tls_try net url method p).
Proof.
  intros Hp. unfold tls_try.
  apply keeps_bind.
  { destruct (truthy p); simpl; [| apply keeps_ret].
    apply keeps_update. intros s [Hrot _]. split; [exact Hrot | exact Hp]. }
  intros _. apply keeps_bind; [destruct (has_netloc url); [apply keeps_ret | apply keeps_raise] |].
  intros _ w Hw. unfold bind, get_scraper, request.
  assert (Hw' : proxies_from cfg
                  {| scraper := scraper w;
                     log := TlsRequest url method (tls_session_proxies (scraper w)) :: log w |}).
  { destruct Hw as [Hs Hl]. split; [exact Hs |]. constructor; [apply Hs | exact Hl]. }
  destruct (tls_send net (length (log w)) url method (tls_session_proxies (scraper w)))
    as [status text |]; [| exact Hw'].
  destruct (status =? 200); [| destruct (status =? 403); exact Hw'].
  exact Hw'.
Qed.

Lemma keeps_tls_attempt net url method p :
  (forall q, p = Bound q -> known cfg q) ->
  keeps (proxies_from cfg) (tls_attempt net url method p).
Proof.
  intros Hp. unfold tls_attempt.
  apply (keeps_bind_good _ (fun r => match r with Ok a => known cfg a | Raise _ => True end)).
  - apply keeps_attempt, keeps_acquire_proxy.
  - apply yields_attempt, yields_acquire_proxy.
  - intros [q | e] Hq.
    + apply keeps_bind; [apply keeps_attempt, keeps_tls_try, Hq |].
      intros [st | e]; [apply keeps_ret |].
      apply keeps_bind; [apply keeps_tls_except | intros ?; apply keeps_ret].
    + apply keeps_bind; [apply keeps_tls_except | intros ?; apply keeps_ret].
Qed.

Lemma yields_tls_attempt net url method p :
  (forall q, p = Bound q -> known cfg q) ->
  yields (proxies_from cfg)
         (fun turn => forall q, snd turn = Bound q -> known cfg q)
         (tls_attempt net url method p).
Proof.
  intros Hp w turn Hw. unfold tls_attempt, bind, attempt.
  pose proof (yields_acquire_proxy net w) as Hacq.
  destruct (acquire_proxy net w) as [[a | e] w1].
  - specialize (Hacq a Hw eq_refl).
    destruct (tls_try net url method a w1) as [[st | e] w2]; simpl.
    + intros [= <-] q [= <-]. exact Hacq.
    + intros [= <-] q [= <-]. exact Hacq.
  - destruct p as [| p0]; simpl; [discriminate |].
    intros [= <-] q [= <-]. apply (Hp p0 eq_refl).
Qed.

Lemma keeps_tls_loop net url method n : forall p,
  (forall q, p = Bound q -> known cfg q) ->
  keeps (proxies_from cfg) (tls_loop net url method n p).
Proof.
  induction n as [| n IH]; intros p Hp; simpl; [apply keeps_ret |].
  apply (keeps_bind_good _ (fun turn => forall q, snd turn = Bound q -> known cfg q)).
  - apply keeps_tls_attempt, Hp.
  - apply yields_tls_attempt, Hp.
  - intros [[v |] p'] Hp'; [apply keeps_ret | apply IH, Hp'].
Qed.

Lemma keeps_fetch_tls_client net url method :
  keeps (proxies_from cfg) (_fetch_tls_client net url method).
Proof. apply keeps_tls_loop. intros q [=]. Qed.

Lemma keeps_bypass_cloudflare net url p :
  known cfg p -> keeps (proxies_from cfg) (bypass_cloudflare net url p).
Proof.
  intros Hp. unfold bypass_cloudflare, _use_flaresolverr.
  apply keeps_bind; [apply keeps_request, known_pick, Hp |].
  intros [status text |]; [| apply keeps_request, known_pick, Hp].
  destruct (status =? 200); [apply keeps_ret | apply keeps_request, known_pick, Hp].
Qed.

Lemma keeps_fetch_cloudscraper net url :
  keeps (proxies_from cfg) (_fetch_cloudscraper net url).
Proof.
  unfold _fetch_cloudscraper.
  apply keeps_bind; [| intros [v | e]; apply keeps_ret].
  apply keeps_attempt.
  apply (keeps_bind_good _ (known cfg));
    [apply keeps_acquire_proxy | apply yields_acquire_proxy |].
  intros p Hp. apply keeps_bind; [apply keeps_bypass_cloudflare, Hp |].
  intros [content |]; [| apply keeps_ret].
  apply keeps_bind; [apply keeps_count_success | intros ?; apply keeps_ret].
Qed.

Lemma keeps_fetch_browser net url :
  keeps (proxies_from cfg) (_fetch_browser net url).
Proof.
  unfold _fetch_browser.
  apply keeps_bind; [| intros [v | e]; apply keeps_ret].
  apply keeps_attempt.
  apply (keeps_bind_good _ (known cfg));
    [apply keeps_acquire_proxy | apply yields_acquire_proxy |].
  intros p Hp. apply keeps_bind; [apply keeps_request, known_pick, Hp |].
  intros [content |]; [| apply keeps_raise].
  apply keeps_bind; [apply keeps_count_success | intros ?; apply keeps_ret].
Qed.

Lemma keeps_httpx_attempt net url method :
  keeps (proxies_from cfg) (httpx_attempt net url method).
Proof.
  unfold httpx_attempt.
  apply (keeps_bind_good _ (known cfg));
    [apply keeps_acquire_proxy | apply yields_acquire_proxy |].
  intros p Hp. apply keeps_bind; [apply keeps_request, known_pick, Hp |].
  intros [status text |]; [| apply keeps_raise].
  destruct (status =? 200); [| apply keeps_raise].
  apply keeps_bind; [apply keeps_count_success | intros ?; apply keeps_ret].
Qed.

Lemma keeps_retry {A} I (m : M A) n : keeps I m -> keeps I (retry n m).
Proof.
  intros Hm. induction n as [| n IH]; simpl; [apply keeps_raise |].
  apply keeps_bind; [apply keeps_attempt, Hm |].
  intros [v | e]; [apply keeps_ret | exact IH].
Qed.

Lemma keeps_remember key content : keeps (proxies_from cfg) (remember key content).
Proof.
  unfold remember. apply keeps_bind; [| intros ?; apply keeps_ret].
  apply keeps_update. intros s Hs. destruct content; exact Hs.
Qed.

Lemma keeps_exhausted url : keeps (proxies_from cfg) (exhausted url).
Proof.
  unfold exhausted. apply keeps_bind; [| intros ?; apply keeps_ret].
  apply keeps_update. intros s Hs. exact Hs.
Qed.

Lemma keeps_fetch net url method : keeps (proxies_from cfg) (fetch net url method).
Proof.
  assert (Hhttpx : forall key, keeps (proxies_from cfg) (fetch_from_httpx net url method key)).
  { intros key. unfold fetch_from_httpx.
    apply keeps_bind; [apply keeps_retry, keeps_httpx_attempt |].
    intros content. destruct (truthy content); [apply keeps_remember | apply keeps_exhausted]. }
  assert (Hbrowser : forall key,
             keeps (proxies_from cfg) (fetch_from_browser net url method key)).
  { intros key. unfold fetch_from_browser.
    apply keeps_bind; [intros w Hw; exact Hw |].
    intros s. destruct (use_browser s); [| apply Hhttpx].
    apply keeps_bind; [apply keeps_fetch_browser |].
    intros content. destruct (truthy content); [apply keeps_remember | apply Hhttpx]. }
  unfold fetch.
  apply keeps_bind; [intros w Hw; exact Hw |].
  intros s. destruct (session_cache s !! cache_key url method); [apply keeps_ret |].
  apply keeps_bind; [apply keeps_fetch_tls_client |].
  intros content. destruct (truthy content); [apply keeps_remember |].
  unfold fetch_from_cloudscraper.
  apply keeps_bind; [apply keeps_fetch_cloudscraper |].
  intros content'. destruct (truthy content'); [apply keeps_remember | apply Hbrowser].
Qed.

Lemma fetch_all_keeps (I : World -> Prop) :
  (forall net url method, keeps I (fetch net url method)) ->
  forall calls w, I w -> I (fetch_all calls w).
Proof.
  intros Hfetch calls. induction calls as [| [[net url] method] calls IH]; intros w Hw.
  - exact Hw.
  - simpl. apply IH, Hfetch, Hw.
Qed.

End Configured.

(** X7: an instance only ever goes through the proxies it was configured
    with.  After any run of [fetch] calls on a new instance, against any
    networks, every proxy test, every TLS-client, cloudscraper,
    FlareSolverr, browser and httpx request in the log either uses no proxy
    or uses one of the configured addresses; the address installed in the
    TLS session is a configured one, and the rotator still holds the
    configured list. *)
Theorem fetch_all_uses_configured_proxies (browser : bool) (configured : list string)
        (calls : list (Network * string * string)) :
  let w := fetch_all calls {| scraper := new_scraper browser configured; log := [] |} in
  Forall (fun ev => forall p, proxy_of ev = Some p -> p ∈ configured) (log w) /\
  (forall p, tls_session_proxies (scraper w) = Some p -> p ∈ configured) /\
  (forall r, proxy_rotator (scraper w) = Some r -> proxies r = configured).
Proof.
  assert (Hinit : proxies_from configured
                    {| scraper := new_scraper browser configured; log := [] |}).
  { split; [split |]; simpl.
    - destruct configured as [| c cs]; [intros r [=] |].
      intros r [= <-]. split; [reflexivity | apply RotationFacts.init_sound].
    - intros q [=].
    - constructor. }
  destruct (fetch_all_keeps (proxies_from configured) (keeps_fetch configured)
              calls _ Hinit) as [[Hrot Htls] Hlog].
  split; [exact Hlog |]. split; [exact Htls |].
  intros r Hr. apply (Hrot r Hr).
Qed.

(** ** Invariants of the cascade *)

Section Stable.

(** An invariant that the elementary steps of the cascade maintain. *)
Variable I : World -> Prop.
Hypothesis I_acquire : forall net, keeps I (acquire_proxy net).
Hypothesis I_report : forall p, keeps I (report_failed p).
Hypothesis I_count : keeps I count_success.
Hypothesis I_install : forall p, keeps I (update (with_tls_proxies p)).
Hypothesis I_request : forall A ev (answer : nat -> A), keeps I (request ev answer).
Hypothesis I_remember : forall key content, keeps I (remember key content).
Hypothesis I_exhausted : forall url, keeps I (exhausted url).

Lemma keeps_get_scraper : keeps I get_scraper.
Proof. intros w Hw. exact Hw. Qed.

Lemma stable_tls_except p : keeps I (tls_except p).
Proof.
  destruct p as [| p]; simpl; [apply keeps_raise |].
  apply keeps_bind; [apply I_report | intros ?; apply keeps_ret].
Qed.

Lemma stable_tls_try net url method p : keeps I (tls_try net url method p).
Proof.
  unfold tls_try.
  apply keeps_bind; [destruct (truthy p); simpl; [apply I_install | apply keeps_ret] |].
  intros _. apply keeps_bind; [destruct (has_netloc url); [apply keeps_ret | apply keeps_raise] |].
  intros _. apply keeps_bind; [apply keeps_get_scraper |].
  intros s. apply keeps_bind; [apply I_request |].
  intros [status text |]; [| apply keeps_raise].
  destruct (status =? 200).
  - apply keeps_bind; [apply I_count | intros ?; apply keeps_ret].
  - destruct (status =? 403); apply keeps_ret.
Qed.

Lemma stable_tls_attempt net url method p : keeps I (tls_attempt net url method p).
Proof.
  unfold tls_attempt.
  apply keeps_bind; [apply keeps_attempt, I_acquire |].
  intros [q | e].
  - apply keeps_bind; [apply keeps_attempt, stable_tls_try |].
    intros [st | e]; [apply keeps_ret |].
    apply keeps_bind; [apply stable_tls_except | intros ?; apply keeps_ret].
  - apply keeps_bind; [apply stable_tls_except | intros ?; apply keeps_ret].
Qed.

Lemma stable_tls_loop net url method n : forall p, keeps I (tls_loop net url method n p).
Proof.
  induction n as [| n IH]; intros p; simpl; [apply keeps_ret |].
  apply keeps_bind; [apply stable_tls_attempt |].
  intros [[v |] p']; [apply keeps_ret | apply IH].
Qed.

Lemma stable_fetch_cloudscraper net url : keeps I (_fetch_cloudscraper net url).
Proof.
  unfold _fetch_cloudscraper, bypass_cloudflare, _use_flaresolverr.
  apply keeps_bind; [| intros [v | e]; apply keeps_ret].
  apply keeps_attempt, keeps_bind; [apply I_acquire |].
  intros p. apply keeps_bind.
  - apply keeps_bind; [apply I_request |].
    intros [status text |]; [| apply I_request].
    destruct (status =? 200); [apply keeps_ret | apply I_request].
  - intros [content |]; [| apply keeps_ret].
    apply keeps_bind; [apply I_count | intros ?; apply keeps_ret].
Qed.

Lemma stable_fetch_browser net url : keeps I (_fetch_browser net url).
Proof.
  unfold _fetch_browser.
  apply keeps_bind; [| intros [v | e]; apply keeps_ret].
  apply keeps_attempt, keeps_bind; [apply I_acquire |].
  intros p. apply keeps_bind; [apply I_request |].
  intros [content |]; [| apply keeps_raise].
  apply keeps_bind; [apply I_count | intros ?; apply keeps_ret].
Qed.

Lemma stable_fetch_httpx net url method : keeps I (_fetch_httpx net url method).
Proof.
  apply keeps_retry. unfold httpx_attempt.
  apply keeps_bind; [apply I_acquire |].
  intros p. apply keeps_bind; [apply I_request |].
  intros [status text |]; [| apply keeps_raise].
  destruct (status =? 200); [| apply keeps_raise].
  apply keeps_bind; [apply I_count | intros ?; apply keeps_ret].
Qed.

Lemma stable_fetch net url method : keeps I (fetch net url method).
Proof.
  assert (Hhttpx : forall key, keeps I (fetch_from_httpx net url method key)).
  { intros key. unfold fetch_from_httpx.
    apply keeps_bind; [apply stable_fetch_httpx |].
    intros content. destruct (truthy content); [apply I_remember | apply I_exhausted]. }
  assert (Hbrowser : forall key, keeps I (fetch_from_browser net url method key)).
  { intros key. unfold fetch_from_browser.
    apply keeps_bind; [apply keeps_get_scraper |].
    intros s. destruct (use_browser s); [| apply Hhttpx].
    apply keeps_bind; [apply stable_fetch_browser |].
    intros content. destruct (truthy content); [apply I_remember | apply Hhttpx]. }
  unfold fetch.
  apply keeps_bind; [apply keeps_get_scraper |].
  intros s. destruct (session_cache s !! cache_key url method); [apply keeps_ret |].
  apply keeps_bind; [apply stable_tls_loop |].
  intros content. destruct (truthy content); [apply I_remember |].
  unfold fetch_from_cloudscraper.
  apply keeps_bind; [apply stable_fetch_cloudscraper |].
  intros content'. destruct (truthy content'); [apply I_remember | apply Hbrowser].
Qed.

End Stable.

(** ** A rotation past its end *)

(** X8: once the rotator of an instance is past the end of a non-empty
    rotation, [fetch] of any URL that is not cached raises
    [UnboundLocalError] -- from the exception handler of the first TLS
    turn, where [proxy] was never assigned -- and changes nothing: no
    request is sent, the URL is not recorded as failed, and the rotator
    stays as it is, so every later call for an uncached URL ends the same
    way. *)
Theorem fetch_raises_when_rotation_stuck net (url method : string) (w : World) :
  stuck (scraper w) = true ->
  session_cache (scraper w) !! cache_key url method = None ->
  fetch net url method w = (Raise UnboundLocalError, w).
Proof.
  intros Hstuck Hmiss.
  unfold fetch, bind at 1, get_scraper. rewrite Hmiss.
  assert (Htls : _fetch_tls_client net url method w = (Raise UnboundLocalError, w)).
  { unfold _fetch_tls_client. simpl tls_loop.
    unfold bind at 1, tls_attempt, bind at 1, attempt, acquire_proxy.
    unfold stuck in Hstuck.
    destruct w as [s l]. simpl in *.
    destruct (proxy_rotator s) as [r |] eqn:Er; [| discriminate].
    destruct (working_proxies r) as [| a ws] eqn:Hw; [discriminate |].
    apply Nat.leb_le in Hstuck.
    rewrite (RotationFacts.get_proxy_out_of_range net r l)
      by (rewrite Hw; first [discriminate | simpl in *; lia]).
    simpl. unfold bind, raise. simpl.
    destruct s; simpl in *. subst. reflexivity. }
  unfold bind. rewrite Htls. reflexivity.
Qed.

Lemma fetch_raises_when_rotation_stuck_witness :
  fetch net_proxied_fail "http://example/b" "GET" after_failed_fetch
  = (Raise UnboundLocalError, after_failed_fetch).
Proof.
  apply fetch_raises_when_rotation_stuck; vm_compute; reflexivity.
Defined.

(** The stuck state is reached by a failed [fetch]: the first proxy handed
    out fails and is removed while the index points past it. *)
Example stuck_after_failed_fetch :
  fst (fetch net_proxied_fail "http://example/a" "GET"
             {| scraper := new_scraper false ["http://p1:8080"; "http://p2:8080"];
                log := [] |}) = Raise RetryError /\
  stuck (scraper after_failed_fetch) = true /\
  failed_urls (scraper after_failed_fetch) = ∅.
Proof. vm_compute. repeat split. Qed.

(** ** A URL without a host part *)

Lemma tls_attempt_malformed net (url method : string) p w :
  has_netloc url = false ->
  (exists p' w', tls_attempt net url method p w = (Ok (Continue, Bound p'), w')) \/
  (p = Unbound /\ exists w', tls_attempt net url method p w = (Raise UnboundLocalError, w')).
Proof.
  intros Hurl.
  destruct (acquire_proxy net w) as [[q | e] w1] eqn:Eacq.
  - left. exists q. unfold tls_attempt, bind at 1, attempt. rewrite Eacq.
    unfold bind at 1, tls_try, bind at 1.
    destruct (when (truthy q) (update (with_tls_proxies q)) w1) as [[[] | e] w2] eqn:E.
    + unfold bind at 1. rewrite Hurl. unfold raise at 1. simpl.
      unfold bind, report_failed, update, ret. simpl. eauto.
    + destruct (truthy q); discriminate.
  - destruct p as [| p0]; [right; split; [reflexivity |] | left; exists p0];
      unfold tls_attempt, bind at 1, attempt; rewrite Eacq;
      unfold tls_except, bind, report_failed, update, ret, raise; simpl; eauto.
Qed.

Lemma tls_loop_malformed net (url method : string) n : forall p w,
  has_netloc url = false ->
  fst (tls_loop net url method n p w) = Ok None \/
  (p = Unbound /\ fst (tls_loop net url method n p w) = Raise UnboundLocalError).
Proof.
  induction n as [| n IH]; intros p w Hurl; simpl; [left; reflexivity |].
  unfold bind.
  destruct (tls_attempt_malformed net url method p w Hurl)
    as [(p' & w' & ->) | (-> & w' & ->)].
  - destruct (IH (Bound p') w' Hurl) as [H | [[=] _]]. left. exact H.
  - right. split; reflexivity.
Qed.

Lemma tls_loop_malformed_proxyless net (url method : string) n : forall p w,
  has_netloc url = false -> proxy_rotator (scraper w) = None ->
  tls_loop net url method n p w = (Ok None, w).
Proof.
  induction n as [| n IH]; intros p w Hurl Hrot; simpl; [reflexivity |].
  assert (Hturn : tls_attempt net url method p w = (Ok (Continue, Bound None), w)).
  { unfold tls_attempt, bind at 1, attempt, acquire_proxy. rewrite Hrot.
    unfold bind at 1, tls_try, bind at 1. simpl.
    unfold bind at 1. rewrite Hurl. unfold raise at 1. simpl.
    destruct w as [s l]. reflexivity. }
  unfold bind. rewrite Hturn. apply IH; assumption.
Qed.

Lemma get_proxy_failed net (r : ProxyRotator) log :
  failed_proxies (Rotator.get_proxy net r log).1.2 = failed_proxies r.
Proof.
  unfold Rotator.get_proxy.
  assert (Hpre : failed_proxies
                   (match working_proxies r with
                    | [] => Rotator.test_proxies net r log
                    | _ :: _ => (r, log)
                    end).1 = failed_proxies r).
  { destruct (working_proxies r); [apply RotationFacts.test_proxies_failed | reflexivity]. }
  destruct (match working_proxies r with
            | [] => Rotator.test_proxies net r log
            | _ :: _ => (r, log)
            end) as [r1 log1].
  simpl in Hpre. destruct (working_proxies r1); [exact Hpre |].
  destruct (_ !! _); exact Hpre.
Qed.

Lemma marked_acquire p net : keeps (marked p) (acquire_proxy net).
Proof.
  intros w (r & Hr & Hp). unfold acquire_proxy. rewrite Hr.
  pose proof (get_proxy_failed net r (log w)) as Hf.
  destruct (Rotator.get_proxy net r (log w)) as [[res r'] log']. simpl in *.
  exists r'. split; [reflexivity | rewrite Hf; exact Hp].
Qed.

Lemma marked_report p q : keeps (marked p) (report_failed q).
Proof.
  intros w (r & Hr & Hp). unfold report_failed, update, marked. simpl. rewrite Hr.
  destruct q as [q |]; [| eauto].
  destruct (PyStr.truthy q); [| eauto].
  eexists. split; [reflexivity |]. simpl. set_solver.
Qed.

Lemma marked_update p (f : BaseScraper -> BaseScraper) :
  (forall s, proxy_rotator (f s) = proxy_rotator s) -> keeps (marked p) (update f).
Proof. intros Hf w (r & Hr & Hp). exists r. simpl. rewrite Hf. auto. Qed.

Lemma marked_request p {A} (ev : event) (answer : nat -> A) :
  keeps (marked p) (request ev answer).
Proof. intros w Hw. exact Hw. Qed.

Lemma marked_tls_loop p net url method n q :
  keeps (marked p) (tls_loop net url method n q).
Proof.
  apply stable_tls_loop.
  - apply marked_acquire.
  - apply marked_report.
  - apply marked_update. reflexivity.
  - intros p0. apply marked_update. reflexivity.
  - intros A ev answer. apply marked_request.
Qed.

(** X9: a URL with fewer than two slashes has no third component for the
    Referer header, so every turn of the TLS client raises before anything
    is sent.  The strategy then issues no request at all (at most proxy
    tests), never returns a body -- it returns [None], or raises
    [UnboundLocalError] when the very first [get_proxy] raises; without
    a rotator it is a no-op; with one, a proxy that the first turn
    was handed ends up in the failed set without having been used. *)
Theorem tls_client_malformed_url net (url method : string) (w : World) :
  has_netloc url = false ->
  let res := fst (_fetch_tls_client net url method w) in
  let w' := snd (_fetch_tls_client net url method w) in
  (res = Ok None \/ res = Raise UnboundLocalError) /\
  (exists added, log w' = (added ++ log w)%list /\
                 tally (fun ev => negb (is_proxy_test ev)) added = 0%nat) /\
  (proxy_rotator (scraper w) = None -> res = Ok None /\ w' = w) /\
  (forall r p r1 log1,
     proxy_rotator (scraper w) = Some r ->
     Rotator.get_proxy net r (log w) = (Ok (Some p), r1, log1) ->
     PyStr.truthy p = true ->
     res = Ok None /\ marked p w').
Proof.
  intros Hurl. cbv zeta. unfold _fetch_tls_client.
  split; [| split; [| split]].
  - destruct (tls_loop_malformed net url method 5 Unbound w Hurl) as [H | [_ H]]; auto.
  - destruct (within_tls_loop (fun ev => negb (is_proxy_test ev)) url method 0
                ltac:(reflexivity) ltac:(intros E; congruence) net 5 Unbound w)
      as (added & Hlog & Hn).
    exists added. split; [exact Hlog | simpl in Hn; lia].
  - intros Hrot. rewrite tls_loop_malformed_proxyless by assumption. auto.
  - intros r p r1 log1 Hrot Hget Hp.
    change (tls_loop net url method 5 Unbound w)
      with (bind (tls_attempt net url method Unbound)
                 (fun turn => match turn with
                              | (Return v, _) => ret v
                              | (Continue, proxy') => tls_loop net url method 4 proxy'
                              end) w).
    assert (Hturn : exists w1, tls_attempt net url method Unbound w
                               = (Ok (Continue, Bound (Some p)), w1) /\ marked p w1).
    { unfold tls_attempt, bind at 1, attempt, acquire_proxy. rewrite Hrot, Hget.
      unfold bind at 1, tls_try, bind at 1, when, truthy. rewrite Hp.
      unfold update at 1. unfold bind at 1. rewrite Hurl. unfold raise at 1.
      simpl. eexists. split; [reflexivity |].
      eexists. simpl. rewrite Hp. split; [reflexivity |]. simpl. set_solver. }
    destruct Hturn as (w1 & Hturn & Hmark).
    unfold bind. rewrite Hturn.
    split.
    + destruct (tls_loop_malformed net url method 4 (Bound (Some p)) w1 Hurl)
        as [H | [[=] _]]. exact H.
    + apply marked_tls_loop, Hmark.
Qed.

Lemma tls_client_malformed_url_witness :
  let w := {| scraper := new_scraper false ["http://p1:8080"]; log := [] |} in
  let res := fst (_fetch_tls_client net_ok "example.com/page" "GET" w) in
  let w' := snd (_fetch_tls_client net_ok "example.com/page" "GET" w) in
  (res = Ok None \/ res = Raise UnboundLocalError) /\
  (exists added, log w' = (added ++ log w)%list /\
                 tally (fun ev => negb (is_proxy_test ev)) added = 0%nat) /\
  (proxy_rotator (scraper w) = None -> res = Ok None /\ w' = w) /\
  (forall r p r1 log1,
     proxy_rotator (scraper w) = Some r ->
     Rotator.get_proxy net_ok r (log w) = (Ok (Some p), r1, log1) ->
     PyStr.truthy p = true ->
     res = Ok None /\ marked p w').
Proof.
  apply (tls_client_malformed_url net_ok "example.com/page" "GET"). reflexivity.
Defined.

(** The one healthy proxy of a new instance is handed out, marked failed and --
    the rotation being empty again -- re-tested in each of the five turns,
    for a URL that was never requested. *)
Example proxy_lost_to_malformed_url :
  let w' := snd (_fetch_tls_client net_ok "example.com/page" "GET"
                   {| scraper := new_scraper false ["http://p1:8080"]; log := [] |}) in
  log w' = replicate 5 (ProxyTest "http://p1:8080") /\
  (exists r, proxy_rotator (scraper w') = Some r /\
             working_proxies r = [] /\ failed_proxies r = {[ "http://p1:8080" ]}).
Proof. vm_compute. split; [reflexivity |]. eexists. repeat split. Qed.

(** ** What the books of an instance hold *)

Lemma books_from_fetch (P : string -> string -> Prop) net url method w :
  P url method -> books_from P w -> books_from P (snd (fetch net url method w)).
Proof.
  intros HP [Hc Hf].
  destruct (session_cache (scraper w) !! cache_key url method) as [b |] eqn:Hhit.
  - rewrite (fetch_hit _ _ _ _ _ Hhit). split; assumption.
  - destruct (fetch net url method w) as [r w'] eqn:E.
    apply fetch_miss in E; [| exact Hhit]. simpl.
    destruct E as [(body & _ & Ht & Hc' & Hf') | [(_ & Hc' & Hf') | (e & _ & Hc' & Hf')]];
      split; rewrite ?Hc', ?Hf'; try assumption.
    + intros key b Hkey.
      destruct (decide (key = cache_key url method)) as [-> | Hne].
      * rewrite lookup_insert_eq in Hkey. injection Hkey as <-. eauto.
      * rewrite lookup_insert_ne in Hkey by congruence. eauto.
    + intros u Hu. apply elem_of_union in Hu as [Hu | Hu]; [eauto |].
      apply elem_of_singleton in Hu as ->. eauto.
Qed.

Lemma books_from_fetch_all (P : string -> string -> Prop) calls : forall w,
  (forall net url method, (net, url, method) ∈ calls -> P url method) ->
  books_from P w -> books_from P (fetch_all calls w).
Proof.
  induction calls as [| [[net url] method] calls IH]; intros w HP Hw; [exact Hw |].
  simpl. apply IH.
  - intros net' url' method' Hin. eapply HP, elem_of_cons. right. exact Hin.
  - apply books_from_fetch; [| exact Hw]. eapply HP, elem_of_cons. left. reflexivity.
Qed.

Lemma switches_fetch (b : bool) net url method :
  keeps (fun w => fail_count (scraper w) = 0%nat /\ use_browser (scraper w) = b)
        (fetch net url method).
Proof.
  apply stable_fetch.
  - intros net' w Hw. unfold acquire_proxy.
    destruct (proxy_rotator (scraper w)); [| exact Hw].
    destruct (Rotator.get_proxy net' p (log w)) as [[res r'] log']. exact Hw.
  - intros p w Hw. unfold report_failed, update. simpl.
    destruct p as [p |]; [| exact Hw].
    destruct (proxy_rotator (scraper w)); [| exact Hw].
    destruct (PyStr.truthy p); exact Hw.
  - intros w Hw. exact Hw.
  - intros p w Hw. exact Hw.
  - intros A ev answer w Hw. exact Hw.
  - intros key content w Hw. destruct content; exact Hw.
  - intros u w Hw. exact Hw.
Qed.

(** X10: the books of an instance after any run of [fetch] calls on a new
    instance, against any networks.  Every cached body is non-empty and
    filed under the key of a requested URL and method; every URL in the
    failed set was requested; [fail_count] is still 0 -- nothing ever
    increments it -- and the browser switch is as configured. *)
Theorem fetch_all_books (browser : bool) (configured : list string)
        (calls : list (Network * string * string)) :
  let w := fetch_all calls {| scraper := new_scraper browser configured; log := [] |} in
  (forall key body, session_cache (scraper w) !! key = Some body ->
     body <> "" /\
     exists net url method, (net, url, method) ∈ calls /\ key = cache_key url method) /\
  (forall url, url ∈ failed_urls (scraper w) ->
     exists net method, (net, url, method) ∈ calls) /\
  fail_count (scraper w) = 0%nat /\
  use_browser (scraper w) = browser.
Proof.
  cbv zeta.
  set (w0 := {| scraper := new_scraper browser configured; log := [] |}).
  set (P := fun url method => exists net, (net, url, method) ∈ calls).
  assert (Hbooks : books_from P (fetch_all calls w0)).
  { apply books_from_fetch_all.
    - intros net url method Hin. exists net. exact Hin.
    - split.
      + intros key body Hkey. simpl in Hkey. rewrite lookup_empty in Hkey. discriminate.
      + intros url Hu. simpl in Hu. apply elem_of_empty in Hu as []. }
  destruct Hbooks as [Hc Hf].
  pose proof (fetch_all_keeps _ (switches_fetch browser) calls w0
                (conj eq_refl eq_refl)) as [Hfail Hb].
  split; [| split; [| split; assumption]].
  - intros key body Hkey. destruct (Hc key body Hkey) as (Ht & url & method & [net Hin] & ->).
    split; [intros ->; discriminate | eauto].
  - intros url Hu. destruct (Hf url Hu) as (method & net & Hin). eauto.
Qed.

(** ** LLM: streaming *)

Lemma join_cons (s : string) (l : list string) :
  PyStr.join (s :: l) = s +:+ PyStr.join l.
Proof. reflexivity. Qed.

Lemma kept_chunks_join (f : LLM.delta -> option string) (deltas : list LLM.delta) :
  PyStr.join (omap (fun d => if truthy (f d) then f d else None) deltas)
  = PyStr.join ((fun d => default "" (f d)) <$> deltas).
Proof.
  induction deltas as [| d deltas IH]; [reflexivity |].
  rewrite fmap_cons, join_cons, <- IH. simpl.
  destruct (f d) as [[| c s] |]; simpl; rewrite ?PyStrFacts.app_nil; reflexivity.
Qed.

Lemma kept_chunks_none (f : LLM.delta -> option string) (deltas : list LLM.delta) :
  bool_decide (omap (fun d => if truthy (f d) then f d else None) deltas = [])
  = negb (PyStr.truthy (PyStr.join ((fun d => default "" (f d)) <$> deltas))).
Proof.
  induction deltas as [| d deltas IH]; [reflexivity |].
  rewrite fmap_cons, join_cons. simpl.
  destruct (f d) as [[| c s] |]; simpl; rewrite ?PyStrFacts.app_nil; try exact IH.
  reflexivity.
Qed.

(** X11: streaming changes nothing in what is returned.  For every stream
    of deltas, [fw_basic_call] with [stream=True] returns what the
    non-streaming path returns for the message that the stream carries --
    the content pieces put together, with the reasoning pieces put
    together as its [reasoning_content]; empty and missing pieces do not
    count. *)
Theorem stream_agrees_with_whole_message (deltas : list LLM.delta) :
  LLM.fw_basic_call_stream deltas
  = LLM.fw_basic_call (streamed_content deltas) (Some (streamed_reasoning deltas)).
Proof.
  unfold LLM.fw_basic_call_stream, LLM.fw_basic_call, LLM.final_text_chunks,
    LLM.final_reasoning_chunks, streamed_content, streamed_reasoning.
  rewrite (kept_chunks_join snd), (kept_chunks_none fst). reflexivity.
Qed.

Module ToolCallFacts.
Import ToolCalls.

Lemma app_nil_r (s : string) : s +:+ "" = s.
Proof.
  induction s as [| c s IH]; [reflexivity |].
  rewrite PyStrFacts.app_cons, IH. reflexivity.
Qed.

Lemma length_pad (acc : list tool_call) (idx : Z) :
  length (pad acc idx) = Nat.max (length acc) (Z.to_nat (idx + 1)).
Proof. unfold pad. rewrite length_app, length_replicate. lia. Qed.

Lemma lookup_pad (acc : list tool_call) (idx : Z) (i : nat) :
  default blank (pad acc idx !! i) = default blank (acc !! i).
Proof.
  unfold pad. destruct (decide (i < length acc)%nat) as [Hlt | Hge].
  - rewrite lookup_app_l by exact Hlt. reflexivity.
  - rewrite lookup_app_r by lia.
    rewrite (lookup_ge_None_2 acc i) by lia. simpl.
    destruct (replicate _ blank !! _) as [t |] eqn:E; [| reflexivity].
    apply lookup_replicate in E as [-> _]. reflexivity.
Qed.

Lemma merge_untouched (t : tool_call) (d : tool_call_delta) :
  touches d = false -> merge t d = t.
Proof.
  unfold touches, merge. destruct t as [i ty f], d as [ix [x |] [y |] [z |]];
    simpl; intros H; try discriminate; reflexivity.
Qed.

(** One fragment with a non-negative index: the list is padded up to the
    index, and the entry at the index is updated. *)
Lemma accumulate_nonnegative (acc : list tool_call) (d : tool_call_delta) :
  (forall idx, d_index d = Some idx -> 0 <= idx) ->
  exists acc',
    accumulate acc d = Ok acc' /\
    length acc' = match d_index d with
                  | Some idx => Nat.max (length acc) (Z.to_nat (idx + 1))
                  | None => length acc
                  end /\
    forall i, default blank (acc' !! i)
              = if bool_decide (d_index d = Some (Z.of_nat i))
                then merge (default blank (acc !! i)) d
                else default blank (acc !! i).
Proof.
  intros Hidx. unfold accumulate.
  destruct (d_index d) as [idx |] eqn:Ei.
  - specialize (Hidx idx eq_refl).
    destruct (touches d) eqn:Et.
    + assert (Hslot : slot (pad acc idx) idx = Some (Z.to_nat idx)).
      { unfold slot. rewrite length_pad.
        destruct (0 <=? idx) eqn:E0; [| apply Z.leb_gt in E0; lia].
        destruct (idx <? _) eqn:E1; [reflexivity | apply Z.ltb_ge in E1; lia]. }
      rewrite Hslot. eexists. split; [reflexivity |].
      split; [rewrite length_alter; apply length_pad |].
      intros i. case_bool_decide as Hi.
      * injection Hi as ->. rewrite Nat2Z.id.
        rewrite list_lookup_alter_eq.
        assert (Hin : (i < length (pad acc (Z.of_nat i)))%nat) by (rewrite length_pad; lia).
        pose proof (lookup_pad acc (Z.of_nat i) i) as Hp.
        destruct (pad acc (Z.of_nat i) !! i) as [t |] eqn:E.
        -- simpl in *. rewrite Hp. reflexivity.
        -- apply lookup_ge_None in E. lia.
      * rewrite list_lookup_alter_ne; [apply lookup_pad |].
        intros <-. apply Hi. rewrite Z2Nat.id by lia. reflexivity.
    + eexists. split; [reflexivity |]. split; [apply length_pad |].
      intros i. rewrite lookup_pad, merge_untouched by exact Et.
      destruct (bool_decide _); reflexivity.
  - eexists. split; [reflexivity |]. split; [reflexivity |].
    intros i. rewrite bool_decide_eq_false_2 by discriminate. reflexivity.
Qed.

Lemma accumulate_all_nonnegative (ds : list tool_call_delta) : forall acc,
  indices_nonnegative ds ->
  exists acc',
    accumulate_all acc ds = Ok acc' /\
    length acc' = Nat.max (length acc) (entries_needed ds) /\
    forall i, default blank (acc' !! i)
              = fold_left merge (fragments_for i ds) (default blank (acc !! i)).
Proof.
  induction ds as [| d ds IH]; intros acc Hds.
  - exists acc. split; [reflexivity |]. split; [simpl; lia | reflexivity].
  - apply Forall_cons in Hds as [Hd Hds].
    destruct (accumulate_nonnegative acc d Hd) as (acc1 & Hacc & Hlen & Hget).
    destruct (IH acc1 Hds) as (acc' & Hall & Hlen' & Hget').
    exists acc'. simpl. rewrite Hacc. split; [exact Hall |]. split.
    + rewrite Hlen', Hlen. destruct (d_index d); lia.
    + intros i. rewrite Hget', Hget. unfold fragments_for.
      case_bool_decide as Hi.
      * rewrite filter_cons_True by exact Hi. reflexivity.
      * rewrite filter_cons_False by exact Hi. reflexivity.
Qed.

(** A field that each fragment may replace holds what the last fragment
    that carried it said. *)
Lemma fold_last {A} (get : tool_call -> option A) (upd : tool_call_delta -> option A) :
  (forall t d, get (merge t d) = match upd d with Some x => Some x | None => get t end) ->
  forall frs t,
    get (fold_left merge frs t)
    = match last (omap upd frs) with Some x => Some x | None => get t end.
Proof.
  intros Hstep frs. induction frs as [| d frs IH]; intros t; [reflexivity |].
  cbn [fold_left]. rewrite IH, Hstep.
  change (omap upd (d :: frs))
    with (match upd d with Some y => y :: omap upd frs | None => omap upd frs end).
  destruct (upd d) as [x |]; [| reflexivity].
  rewrite last_cons. destruct (last (omap upd frs)); reflexivity.
Qed.

(** The arguments are the pieces received so far, in order. *)
Lemma fold_arguments (frs : list tool_call_delta) : forall t,
  function (fold_left merge frs t) ≫= arguments
  = match argument_pieces frs with
    | [] => function t ≫= arguments
    | ps => Some (default "" (function t ≫= arguments) +:+ PyStr.join ps)
    end.
Proof.
  induction frs as [| d frs IH]; intros t; [reflexivity |].
  cbn [fold_left]. rewrite IH. unfold argument_pieces.
  change (omap (fun d0 => d_function d0 ≫= d_arguments) (d :: frs))
    with (match d_function d ≫= d_arguments with
          | Some a => a :: omap (fun d0 => d_function d0 ≫= d_arguments) frs
          | None => omap (fun d0 => d_function d0 ≫= d_arguments) frs
          end).
  set (rest := omap (fun d0 => d_function d0 ≫= d_arguments) frs).
  unfold merge, merge_function. simpl.
  destruct (d_function d) as [fd |]; simpl; [| reflexivity].
  destruct (d_arguments fd) as [a |]; simpl.
  - destruct rest as [| p ps].
    + change (PyStr.join []) with "". rewrite app_nil_r.
      destruct (function t) as [f |]; reflexivity.
    + rewrite ?PyStrFacts.app_assoc.
      destruct (function t) as [f |]; reflexivity.
  - destruct rest as [| p ps]; destruct (function t) as [f |]; reflexivity.
Qed.

End ToolCallFacts.

(** X12: streamed tool calls are put together per index.  For a stream
    whose indices are non-negative the accumulation does not fail; the
    result has one entry for every position up to the highest index sent;
    the arguments of the entry at each position are the argument pieces
    sent for that position, concatenated in the order of arrival (absent
    when none was sent); its id and its function name are the ones sent
    last for that position. *)
Theorem tool_call_fragments_reassembled (ds : list ToolCalls.tool_call_delta) :
  ToolCalls.indices_nonnegative ds ->
  exists acc,
    ToolCalls.accumulate_all [] ds = Ok acc /\
    length acc = ToolCalls.entries_needed ds /\
    forall i,
      let t := default ToolCalls.blank (acc !! i) in
      let sent := ToolCalls.fragments_for i ds in
      ToolCalls.function t ≫= ToolCalls.arguments
      = match ToolCalls.argument_pieces sent with
        | [] => None
        | ps => Some (PyStr.join ps)
        end /\
      ToolCalls.id t = last (omap ToolCalls.d_id sent) /\
      ToolCalls.function t ≫= ToolCalls.name
      = last (omap (fun d => ToolCalls.d_function d ≫= ToolCalls.d_name) sent).
Proof.
  intros Hds.
  destruct (ToolCallFacts.accumulate_all_nonnegative ds [] Hds) as (acc & Hall & Hlen & Hget).
  exists acc. split; [exact Hall |]. split; [rewrite Hlen; simpl; lia |].
  intros i. cbv zeta. rewrite Hget. rewrite lookup_nil. simpl default.
  split; [| split].
  - rewrite ToolCallFacts.fold_arguments. simpl.
    destruct (ToolCalls.argument_pieces _); [reflexivity |].
    rewrite PyStrFacts.app_nil. reflexivity.
  - rewrite (ToolCallFacts.fold_last ToolCalls.id ToolCalls.d_id).
    + destruct (last _); reflexivity.
    + intros t d. reflexivity.
  - rewrite (ToolCallFacts.fold_last (fun t => ToolCalls.function t ≫= ToolCalls.name)
               (fun d => ToolCalls.d_function d ≫= ToolCalls.d_name)).
    + destruct (last _); reflexivity.
    + intros t d. unfold ToolCalls.merge, ToolCalls.merge_function. simpl.
      destruct (ToolCalls.d_function d) as [fd |]; simpl; [| reflexivity].
      destruct (ToolCalls.d_name fd); [reflexivity |].
      destruct (ToolCalls.function t); reflexivity.
Qed.

Lemma tool_call_fragments_reassembled_witness :
  exists acc,
    ToolCalls.accumulate_all [] sample_fragments = Ok acc /\
    length acc = ToolCalls.entries_needed sample_fragments /\
    forall i,
      let t := default ToolCalls.blank (acc !! i) in
      let sent := ToolCalls.fragments_for i sample_fragments in
      ToolCalls.function t ≫= ToolCalls.arguments
      = match ToolCalls.argument_pieces sent with
        | [] => None
        | ps => Some (PyStr.join ps)
        end /\
      ToolCalls.id t = last (omap ToolCalls.d_id sent) /\
      ToolCalls.function t ≫= ToolCalls.name
      = last (omap (fun d => ToolCalls.d_function d ≫= ToolCalls.d_name) sent).
Proof.
  apply (tool_call_fragments_reassembled sample_fragments).
  repeat constructor; simpl; intros idx [= <-]; lia.
Defined.

(** The sample call, put together. *)
Example sample_fragments_accumulated :
  ToolCalls.accumulate_all [] sample_fragments
  = Ok [ {| ToolCalls.id := Some "call_1"; ToolCalls.type := Some "function";
            ToolCalls.function :=
              Some {| ToolCalls.name := Some "search";
                      ToolCalls.arguments := Some "{q:1}" |} |} ].
Proof. reflexivity. Qed.

(** An index that skips ahead leaves empty entries behind; a negative
    index into an empty accumulator raises [IndexError], and one into a
    non-empty accumulator updates an entry counted from the end. *)
Example tool_call_index_edges :
  ToolCalls.accumulate_all [] [id_fragment 2 "c"]
  = Ok [ToolCalls.blank; ToolCalls.blank;
        {| ToolCalls.id := Some "c"; ToolCalls.type := None; ToolCalls.function := None |}] /\
  ToolCalls.accumulate_all [] [id_fragment (-1) "c"] = Raise IndexError /\
  ToolCalls.accumulate_all [] [id_fragment 1 "a"; id_fragment (-2) "b"]
  = Ok [{| ToolCalls.id := Some "b"; ToolCalls.type := None; ToolCalls.function := None |};
        {| ToolCalls.id := Some "a"; ToolCalls.type := None; ToolCalls.function := None |}].
Proof. repeat split. Qed.

(** ** Substrings *)

Module SubstringFacts.
Import PyStr.

Lemma ascii_eqb_true (a b : ascii) : Ascii.eqb a b = true -> a = b.
Proof. apply Ascii.eqb_eq. Qed.

Lemma startswith_split (needle : string) : forall s,
  startswith needle s = true -> exists post, s = needle +:+ post.
Proof.
  induction needle as [| a needle IH]; intros s H.
  - exists s. rewrite PyStrFacts.app_nil. reflexivity.
  - destruct s as [| b s]; simpl in H; [discriminate |].
    destruct (Ascii.eqb a b) eqn:E; [| discriminate].
    apply ascii_eqb_true in E as ->.
    destruct (IH s H) as (post & ->). exists post.
    rewrite PyStrFacts.app_cons. reflexivity.
Qed.

Lemma find_nat_split (needle : string) : forall s i,
  find_nat needle s = Some i -> exists pre post, s = pre +:+ needle +:+ post.
Proof.
  induction s as [| c s IH]; intros i H.
  - simpl in H. destruct (startswith needle "") eqn:E; [| discriminate].
    destruct (startswith_split _ _ E) as (post & Hpost).
    exists "", post. rewrite PyStrFacts.app_nil. exact Hpost.
  - simpl in H. destruct (startswith needle (String c s)) eqn:E.
    + destruct (startswith_split _ _ E) as (post & Hpost).
      exists "", post. rewrite PyStrFacts.app_nil. exact Hpost.
    + destruct (find_nat needle s) as [j |] eqn:Ej; [| discriminate].
      destruct (IH j eq_refl) as (pre & post & ->).
      exists (String c pre), post. rewrite PyStrFacts.app_cons. reflexivity.
Qed.

(** [needle in s] holds exactly when [s] has an occurrence of [needle]. *)
Lemma contains_iff (needle s : string) :
  contains needle s = true <-> exists pre post, s = pre +:+ needle +:+ post.
Proof.
  split.
  - unfold contains. destruct (find_nat needle s) as [i |] eqn:E; [| discriminate].
    intros _. eapply find_nat_split, E.
  - intros (pre & post & ->). apply PyStrFacts.contains_occurs.
Qed.

(** A string that holds [a b c] holds [b]. *)
Lemma contains_infix (a b c s : string) :
  contains (a +:+ b +:+ c) s = true -> contains b s = true.
Proof.
  intros H. apply contains_iff in H as (pre & post & ->).
  apply contains_iff. exists (pre +:+ a), (c +:+ post).
  rewrite !PyStrFacts.app_assoc. reflexivity.
Qed.

End SubstringFacts.

(** ** Which scraper a URL goes to *)

Section UniversalFacts.

Context {D : Type}.
Variables springfield eightflix subslikescript : string -> result (option D).

(** X13: the first loop of [UniversalScriptScraper.scrape] never selects
    by name.  A URL that holds any of the three domain markers goes to the
    first scraper of the list, Springfield, whichever marker it holds --
    also an 8flix or a subslikescript URL -- and no other scraper is asked;
    a URL that holds none of them is tried on all three in order, up to
    the first that returns a record or raises. *)
Theorem universal_scrape_goes_to_first (url : string) :
  let scrapers := Universal.scrapers_of springfield eightflix subslikescript in
  Universal.universal_scrape scrapers url
  = if Universal.any_domain url
    then (["springfield"], springfield url)
    else Universal.try_all scrapers url.
Proof.
  cbv zeta. unfold Universal.universal_scrape, Universal.scrapers_of.
  cbn [Universal.first_match Universal.name Universal.scrape].
  destruct (Universal.any_domain url) eqn:Eany.
  - rewrite orb_true_r. reflexivity.
  - rewrite !orb_false_r.
    unfold Universal.any_domain, Universal.domains in Eany. simpl in Eany.
    apply orb_false_iff in Eany as [E1 Eany].
    apply orb_false_iff in Eany as [E2 Eany].
    apply orb_false_iff in Eany as [E3 _].
    rewrite E1, E2.
    destruct (PyStr.contains "subslikescript" url) eqn:E4; [| reflexivity].
    apply (SubstringFacts.contains_infix "" "subslike" "script") in E4.
    congruence.
Qed.

End UniversalFacts.

(** An 8flix URL is scraped by the Springfield scraper. *)
Example eightflix_url_goes_to_springfield :
  Universal.universal_scrape
    (Universal.scrapers_of (fun _ => Ok None) (fun _ => Ok (Some "8flix record"))
                           (fun _ => Ok None))
    "https://8flix.com/transcript/1"
  = (["springfield"], Ok None).
Proof. reflexivity. Qed.

(** ** Captcha detection *)

Section DetectCaptchaFacts.

Variable lower : string -> string.

(** X14: three indicators decide.  Every page that holds
    [g-recaptcha], [h-captcha], [/recaptcha/api] or [hcaptcha.com] holds
    [captcha], so [_detect_captcha] answers exactly whether the lowered
    page holds [captcha], [cf-turnstile] or [challenge-form]; any page
    that merely mentions the word is taken for a captcha page. *)
Theorem detect_captcha_three_indicators (html : string) :
  _detect_captcha lower html
  = PyStr.contains "captcha" (lower html)
    || PyStr.contains "cf-turnstile" (lower html)
    || PyStr.contains "challenge-form" (lower html).
Proof.
  unfold _detect_captcha, captcha_indicators. cbn [existsb].
  set (page := lower html).
  pose proof (SubstringFacts.contains_infix "g-re" "captcha" "" page) as H1.
  pose proof (SubstringFacts.contains_infix "h-" "captcha" "" page) as H2.
  pose proof (SubstringFacts.contains_infix "/re" "captcha" "/api" page) as H3.
  pose proof (SubstringFacts.contains_infix "h" "captcha" ".com" page) as H4.
  change ("g-re" +:+ "captcha" +:+ "") with "g-recaptcha" in H1.
  change ("h-" +:+ "captcha" +:+ "") with "h-captcha" in H2.
  change ("/re" +:+ "captcha" +:+ "/api") with "/recaptcha/api" in H3.
  change ("h" +:+ "captcha" +:+ ".com") with "hcaptcha.com" in H4.
  destruct (PyStr.contains "captcha" page) eqn:Ec.
  - destruct (PyStr.contains "g-recaptcha" page), (PyStr.contains "h-captcha" page),
      (PyStr.contains "cf-turnstile" page); reflexivity.
  - destruct (PyStr.contains "g-recaptcha" page); [discriminate (H1 eq_refl) |].
    destruct (PyStr.contains "h-captcha" page); [discriminate (H2 eq_refl) |].
    destruct (PyStr.contains "/recaptcha/api" page); [discriminate (H3 eq_refl) |].
    destruct (PyStr.contains "hcaptcha.com" page); [discriminate (H4 eq_refl) |].
    simpl. rewrite !orb_false_r. reflexivity.
Qed.

End DetectCaptchaFacts.

(** ** The extraction pipeline *)

Module PipelineFacts.
Import Scenes SceneStore Extractor Pipeline.

Section RunFacts.

Variable lower : string -> string.
Variable _parse_episode_info : string -> option Z * option Z.
Variable _extract_participants : scene_data -> list string.
Variable db_ok : nat -> bool.
Variable clock : nat -> Z.

Local Abbreviation create := (_create_scene_object _parse_episode_info _extract_participants).
Local Abbreviation loop := (save_loop _parse_episode_info _extract_participants db_ok clock).

(** What the pipeline builds from a scene dictionary. *)
Lemma created_scene key info now sd :
  lookup_character TARGET_CHARACTERS key = Some info ->
  exists scene,
    create now sd key = Some scene /\
    scene_id scene = episode_id info key (_parse_episode_info (sd_title sd)) /\
    source_url scene = sd_url sd /\
    bindable scene = match sd_extracted_text sd with
                     | Some _ => false
                     | None => episode_fits (_parse_episode_info (sd_title sd))
                     end.
Proof.
  intros Hinfo. unfold _create_scene_object. rewrite Hinfo.
  destruct (_parse_episode_info (sd_title sd)) as [season episode].
  eexists. split; [reflexivity |]. split; [reflexivity |]. split; [reflexivity |].
  unfold bindable, episode_fits. simpl.
  destruct (sd_extracted_text sd); [reflexivity |]. simpl.
  rewrite !andb_true_r. reflexivity.
Qed.

(** Every dictionary that the extractor makes of a script carries the
    title and the URL of the script; it carries extracted text exactly
    when the script is raw text. *)
Lemma extracted_from key data sd :
  sd ∈ Extractor.extract_character_scenes lower data key ->
  sd_title sd = title data /\ sd_url sd = url data /\
  (if is_script data then sd_extracted_text sd <> None else sd_extracted_text sd = None).
Proof.
  unfold Extractor.extract_character_scenes, is_script.
  destruct (lookup_character TARGET_CHARACTERS key) as [info |];
    [| intros H; apply elem_of_nil in H as []].
  destruct (body data) as [text | scenes | dialogue].
  - destruct (mentions lower (names info) text); [| intros H; apply elem_of_nil in H as []].
    destruct (_extract_from_raw_script lower text (names info)) as [| l ls];
      [intros H; apply elem_of_nil in H as [] |].
    intros H. apply list_elem_of_singleton in H as ->. simpl. repeat split. discriminate.
  - intros H. apply list_elem_of_fmap in H as (scene & -> & _). simpl. auto.
  - destruct (List.filter _ dialogue) as [| e es]; [intros H; apply elem_of_nil in H as [] |].
    intros H. apply list_elem_of_singleton in H as ->. simpl. auto.
Qed.

Lemma is_processed_mark u v now db :
  Storage.is_processed u (Storage.mark_processed v now db)
  = Storage.is_processed u db || bool_decide (u = v).
Proof.
  unfold Storage.is_processed, Storage.mark_processed.
  destruct (Storage.processed_urls db !! v) as [t |] eqn:Ev; simpl.
  - case_bool_decide as E; [subst; rewrite Ev; reflexivity | rewrite orb_false_r; reflexivity].
  - case_bool_decide as E.
    + subst. rewrite lookup_insert_eq, Ev. reflexivity.
    + rewrite lookup_insert_ne by congruence. rewrite orb_false_r. reflexivity.
Qed.

(** The save loop: it does not raise for a known character; the counter
    moves by the number of saved scenes; a new row has the id of the
    episode of one of the titles; URLs are only added to the processed
    set, and only URLs of the dictionaries. *)
Lemma save_loop_spec key info :
  lookup_character TARGET_CHARACTERS key = Some info ->
  forall sds i n st,
  exists n' st',
    loop sds key i n st = Some (n', st') /\
    (n <= n' <= n + length sds)%nat /\
    (forall id, is_Some (scenes st' !! id) ->
       is_Some (scenes st !! id) \/
       exists sd, sd ∈ sds /\ id = episode_id info key (_parse_episode_info (sd_title sd))) /\
    (forall u, is_duplicate u st = true -> is_duplicate u st' = true) /\
    (forall u, is_duplicate u st' = true ->
       is_duplicate u st = true \/ exists sd, sd ∈ sds /\ u = sd_url sd).
Proof.
  intros Hinfo sds. induction sds as [| sd sds IH]; intros i n st.
  - exists n, st. simpl. repeat split; auto; lia.
  - destruct (created_scene key info (clock i) sd Hinfo) as (scene & Hmake & Hid & Hurl & Hbind).
    simpl. rewrite Hmake. unfold manager_save_scene, save_scene.
    destruct (bindable scene && db_ok i) eqn:Eok.
    + destruct (IH (S i) (S n)
                  {| scenes := <[scene_id scene := scene]> (scenes st);
                     tables := Storage.mark_processed (source_url scene) (clock i)
                                 (tables st) |})
        as (n' & st' & Hloop & Hn & Hrows & Hkeep & Hnew).
      exists n', st'. simpl in *. split; [exact Hloop |]. split; [lia |].
      split; [| split].
      * intros id Hsome. destruct (Hrows id Hsome) as [Hold | (sd' & Hin & ->)].
        -- destruct (decide (id = scene_id scene)) as [-> | Hne].
           ++ right. exists sd. split; [apply elem_of_cons; auto | exact Hid].
           ++ left. rewrite lookup_insert_ne in Hold by congruence. exact Hold.
        -- right. exists sd'. split; [apply elem_of_cons; auto | reflexivity].
      * intros u Hu. apply Hkeep. unfold is_duplicate. simpl.
        rewrite is_processed_mark. unfold is_duplicate in Hu. rewrite Hu. reflexivity.
      * intros u Hu. destruct (Hnew u Hu) as [Hold | (sd' & Hin & ->)].
        -- unfold is_duplicate in Hold. simpl in Hold. rewrite is_processed_mark in Hold.
           apply orb_true_iff in Hold as [Hold | Heq]; [left; exact Hold |].
           apply bool_decide_eq_true in Heq. subst u.
           right. exists sd. split; [apply elem_of_cons; auto | exact Hurl].
        -- right. exists sd'. split; [apply elem_of_cons; auto | reflexivity].
    + destruct (IH (S i) n st) as (n' & st' & Hloop & Hn & Hrows & Hkeep & Hnew).
      exists n', st'. simpl in *. split; [exact Hloop |]. split; [lia |].
      split; [| split].
      * intros id Hsome. destruct (Hrows id Hsome) as [Hold | (sd' & Hin & ->)]; [auto |].
        right. exists sd'. split; [apply elem_of_cons; auto | reflexivity].
      * exact Hkeep.
      * intros u Hu. destruct (Hnew u Hu) as [Hold | (sd' & Hin & ->)]; [auto |].
        right. exists sd'. split; [apply elem_of_cons; auto | reflexivity].
Qed.

(** When the database accepts every statement, every dictionary without
    extracted text whose season and episode can be bound is saved and its
    URL marked. *)
Lemma save_loop_all_saved key info :
  lookup_character TARGET_CHARACTERS key = Some info ->
  (forall j, db_ok j = true) ->
  forall sds i n st,
    (forall sd, sd ∈ sds ->
       sd_extracted_text sd = None /\
       episode_fits (_parse_episode_info (sd_title sd)) = true) ->
    exists st',
      loop sds key i n st = Some ((n + length sds)%nat, st') /\
      (forall sd, sd ∈ sds -> is_duplicate (sd_url sd) st' = true).
Proof.
  intros Hinfo Hok sds. induction sds as [| sd sds IH]; intros i n st Hnone.
  - exists st. simpl. split; [f_equal; f_equal; lia |].
    intros sd H. apply elem_of_nil in H as [].
  - destruct (created_scene key info (clock i) sd Hinfo) as (scene & Hmake & Hid & Hurl & Hbind).
    destruct (Hnone sd) as [Htext Hfits]; [apply elem_of_cons; auto |].
    rewrite Htext, Hfits in Hbind.
    simpl. rewrite Hmake. unfold manager_save_scene, save_scene. rewrite Hbind, Hok. simpl.
    set (st1 := {| scenes := _; tables := _ |}).
    destruct (IH (S i) (S n) st1) as (st' & Hloop & Hdup).
    { intros sd' Hin. apply Hnone, elem_of_cons. auto. }
    exists st'. split; [rewrite Hloop; f_equal; f_equal; lia |].
    intros sd' Hin. apply elem_of_cons in Hin as [-> | Hin]; [| apply Hdup, Hin].
    destruct (save_loop_spec key info Hinfo sds (S i) (S n) st1)
      as (n2 & st2 & Hloop2 & _ & _ & Hkeep & _).
    rewrite Hloop in Hloop2. injection Hloop2 as _ <-.
    apply Hkeep. unfold is_duplicate, st1. simpl.
    rewrite is_processed_mark, Hurl, bool_decide_eq_true_2 by reflexivity.
    apply orb_true_r.
Qed.

(** Dictionaries with extracted text, and dictionaries whose season or
    episode cannot be bound, are never saved. *)
Lemma save_loop_none_saved key info :
  lookup_character TARGET_CHARACTERS key = Some info ->
  forall sds i n st,
    (forall sd, sd ∈ sds ->
       sd_extracted_text sd <> None \/
       episode_fits (_parse_episode_info (sd_title sd)) = false) ->
    loop sds key i n st = Some (n, st).
Proof.
  intros Hinfo sds. induction sds as [| sd sds IH]; intros i n st Hsome; [reflexivity |].
  destruct (created_scene key info (clock i) sd Hinfo) as (scene & Hmake & Hid & Hurl & Hbind).
  assert (Hno : bindable scene = false).
  { rewrite Hbind. destruct (sd_extracted_text sd) as [lines |] eqn:E; [reflexivity |].
    destruct (Hsome sd) as [H | H]; [apply elem_of_cons; auto | contradiction | exact H]. }
  simpl. rewrite Hmake. unfold manager_save_scene, save_scene. rewrite Hno. simpl.
  apply IH. intros sd' Hin. apply Hsome, elem_of_cons. auto.
Qed.

(** What the first loop collects comes from scripts that are not yet
    marked. *)
Lemma collect_from key st (ds : list script_data) sd :
  sd ∈ fst (collect lower ds key st) ->
  exists data, data ∈ ds /\ is_duplicate (url data) st = false /\
               sd ∈ Extractor.extract_character_scenes lower data key.
Proof.
  induction ds as [| data ds IH]; simpl; [intros H; apply elem_of_nil in H as [] |].
  destruct (collect lower ds key st) as [all_scenes n]. simpl in IH.
  destruct (is_duplicate (url data) st) eqn:Edup; simpl.
  - intros H. destruct (IH H) as (d & Hin & Hdup & Hsd).
    exists d. split; [apply elem_of_cons; auto | auto].
  - intros H. apply elem_of_app in H as [H | H].
    + exists data. split; [apply elem_of_cons; auto | auto].
    + destruct (IH H) as (d & Hin & Hdup & Hsd).
      exists d. split; [apply elem_of_cons; auto | auto].
Qed.

Lemma collect_all key st (ds : list script_data) data sd :
  data ∈ ds -> is_duplicate (url data) st = false ->
  sd ∈ Extractor.extract_character_scenes lower data key ->
  sd ∈ fst (collect lower ds key st).
Proof.
  induction ds as [| d ds IH]; intros Hin Hdup Hsd; [apply elem_of_nil in Hin as [] |].
  simpl. destruct (collect lower ds key st) as [all_scenes n]. simpl in IH.
  apply elem_of_cons in Hin as [<- | Hin].
  - rewrite Hdup. simpl. apply elem_of_app. auto.
  - specialize (IH Hin Hdup Hsd).
    destruct (is_duplicate (url d) st); simpl; [exact IH | apply elem_of_app; auto].
Qed.

End RunFacts.

End PipelineFacts.

Section PipelineTheorems.

Variable lower : string -> string.
Variable _parse_episode_info : string -> option Z * option Z.
Variable _extract_participants : Extractor.scene_data -> list string.
Variable db_ok : nat -> bool.
Variable clock : nat -> Z.


(** X16: raw scripts are never stored.  A scene extracted from a script
    that came as raw text carries the extracted lines as a list, which the
    pipeline hands on as [raw_text]; the [INSERT] cannot bind it, so the
    save fails.  A run over scripts of that kind leaves the store as it
    was -- no scene, no URL marked as processed, so every later run
    extracts them again -- and counts no scene, whatever the database
    does. *)
Theorem raw_scripts_are_never_stored (script_data : list Extractor.script_data)
        (key : string) (s : Pipeline.stats) (st : SceneStore.Store) :
  Forall (fun data => is_script data = true) script_data ->
  exists s',
    Pipeline.extract_character_scenes lower _parse_episode_info _extract_participants
                                      db_ok clock script_data key s st = Some (s', st) /\
    Pipeline.scenes_extracted s' = Pipeline.scenes_extracted s /\
    Pipeline.errors s' = Pipeline.errors s.
Proof.
  intros Hraw. unfold Pipeline.extract_character_scenes.
  destruct (Extractor.lookup_character Extractor.TARGET_CHARACTERS key) as [info |] eqn:Hinfo;
    [| exists s; auto].
  destruct script_data as [| d ds]; [exists s; auto |].
  pose proof (PipelineFacts.collect_from lower key st (d :: ds)) as Hfrom.
  destruct (Pipeline.collect lower (d :: ds) key st) as [all_scenes m].
  rewrite (PipelineFacts.save_loop_none_saved _parse_episode_info _extract_participants
             db_ok clock key info Hinfo).
  - eexists. split; [reflexivity | auto].
  - intros sd Hin. destruct (Hfrom sd Hin) as (data & Hdata & _ & Hsd).
    apply PipelineFacts.extracted_from in Hsd as (_ & _ & H).
    rewrite Forall_forall in Hraw. rewrite (Hraw data Hdata) in H. left. exact H.
Qed.

(** X17: what a run marks.  With a database that accepts every statement
    and scripts that are not raw text and whose titles give a season and
    an episode that can be bound as SQLite integers (within 64 bits), a
    run saves and counts every scene found in the scripts that were not
    yet marked, and afterwards every script in which a scene was found is
    marked as processed -- a later run skips it -- while those that were
    marked before stay marked. *)
Theorem run_marks_scripts_with_scenes (script_data : list Extractor.script_data)
        (key : string) (info : Extractor.character_info)
        (s : Pipeline.stats) (st : SceneStore.Store) :
  Extractor.lookup_character Extractor.TARGET_CHARACTERS key = Some info ->
  (forall j, db_ok j = true) ->
  Forall (fun data => is_script data = false) script_data ->
  Forall (fun data => episode_fits (_parse_episode_info (Extractor.title data)) = true)
         script_data ->
  exists s' st',
    Pipeline.extract_character_scenes lower _parse_episode_info _extract_participants
                                      db_ok clock script_data key s st = Some (s', st') /\
    Pipeline.scenes_extracted s'
    = (Pipeline.scenes_extracted s + length (fst (Pipeline.collect lower script_data key st)))%nat /\
    (forall data, data ∈ script_data ->
       Extractor.extract_character_scenes lower data key <> [] ->
       SceneStore.is_duplicate (Extractor.url data) st' = true) /\
    (forall u, SceneStore.is_duplicate u st = true -> SceneStore.is_duplicate u st' = true).
Proof.
  intros Hinfo Hok Hplain Hfits. unfold Pipeline.extract_character_scenes. rewrite Hinfo.
  destruct script_data as [| d ds].
  { exists s, st. simpl. split; [reflexivity |]. split; [lia |]. split; [| auto].
    intros data H. apply elem_of_nil in H as []. }
  pose proof (PipelineFacts.collect_from lower key st (d :: ds)) as Hfrom.
  pose proof (PipelineFacts.collect_all lower key st (d :: ds)) as Hall.
  destruct (Pipeline.collect lower (d :: ds) key st) as [all_scenes m]. simpl fst in *.
  assert (Hnone : forall sd, sd ∈ all_scenes ->
            Extractor.sd_extracted_text sd = None /\
            episode_fits (_parse_episode_info (Extractor.sd_title sd)) = true).
  { intros sd Hin. destruct (Hfrom sd Hin) as (data & Hdata & _ & Hsd).
    apply PipelineFacts.extracted_from in Hsd as (Htitle & _ & H).
    rewrite Forall_forall in Hplain, Hfits. rewrite (Hplain data Hdata) in H.
    rewrite Htitle. split; [exact H | exact (Hfits data Hdata)]. }
  destruct (PipelineFacts.save_loop_all_saved _parse_episode_info _extract_participants
              db_ok clock key info Hinfo Hok all_scenes 0 (Pipeline.scenes_extracted s) st Hnone)
    as (st' & Hloop & Hdup).
  destruct (PipelineFacts.save_loop_spec _parse_episode_info _extract_participants
              db_ok clock key info Hinfo all_scenes 0 (Pipeline.scenes_extracted s) st)
    as (n2 & st2 & Hloop2 & _ & _ & Hkeep & _).
  rewrite Hloop in Hloop2. injection Hloop2 as _ <-.
  rewrite Hloop. eexists _, st'. split; [reflexivity |]. split; [reflexivity |].
  split; [| exact Hkeep].
  intros data Hdata Hfound.
  destruct (SceneStore.is_duplicate (Extractor.url data) st) eqn:Eold; [apply Hkeep, Eold |].
  destruct (Extractor.extract_character_scenes lower data key) as [| sd sds] eqn:E;
    [contradiction |].
  assert (Hsd : sd ∈ Extractor.extract_character_scenes lower data key)
    by (rewrite E; apply elem_of_cons; auto).
  pose proof (Hall data sd Hdata Eold Hsd) as Hin.
  apply PipelineFacts.extracted_from in Hsd as (_ & Hurl & _).
  rewrite <- Hurl. apply Hdup, Hin.
Qed.

End PipelineTheorems.


Lemma raw_scripts_are_never_stored_witness :
  exists s',
    Pipeline.extract_character_scenes
      (fun s => s) (fun _ => (Some 1, Some 7)) (fun _ => []) (fun _ => true) (fun _ => 0)
      [sample_script] "tywin_lannister"
      {| Pipeline.urls_processed := 0; Pipeline.scenes_extracted := 0; Pipeline.errors := 0 |}
      SceneStore.empty
    = Some (s', SceneStore.empty) /\
    Pipeline.scenes_extracted s' = 0%nat /\
    Pipeline.errors s' = 0%nat.
Proof.
  apply (raw_scripts_are_never_stored (fun s => s) (fun _ => (Some 1, Some 7)) (fun _ => [])
           (fun _ => true) (fun _ => 0) [sample_script] "tywin_lannister").
  repeat constructor.
Defined.

Lemma run_marks_scripts_with_scenes_witness :
  let lower := fun s : string => s in
  let parse := fun _ : string => (Some 1, Some 7) in
  let participants := fun _ : Extractor.scene_data => @nil string in
  let s0 := {| Pipeline.urls_processed := 0%nat; Pipeline.scenes_extracted := 0%nat;
               Pipeline.errors := 0%nat |} in
  exists s' st',
    Pipeline.extract_character_scenes lower parse participants (fun _ => true) (fun _ => 0)
                                      [sample_episode] "tywin_lannister" s0 SceneStore.empty
    = Some (s', st') /\
    Pipeline.scenes_extracted s'
    = (Pipeline.scenes_extracted s0
       + length (fst (Pipeline.collect lower [sample_episode] "tywin_lannister"
                                       SceneStore.empty)))%nat /\
    (forall data, data ∈ [sample_episode] ->
       Extractor.extract_character_scenes lower data "tywin_lannister" <> [] ->
       SceneStore.is_duplicate (Extractor.url data) st' = true) /\
    (forall u, SceneStore.is_duplicate u SceneStore.empty = true ->
               SceneStore.is_duplicate u st' = true).
Proof.
  intros lower parse participants s0.
  eapply (run_marks_scripts_with_scenes lower parse participants (fun _ => true) (fun _ => 0)
            [sample_episode] "tywin_lannister").
  - reflexivity.
  - intros j. reflexivity.
  - repeat constructor.
  - repeat constructor.
Defined.

(** The sample episode: two scenes found, two saves counted, one row. *)
Example sample_episode_run :
  match Pipeline.extract_character_scenes
          (fun s => s) (fun _ => (Some 1, Some 7)) (fun _ => []) (fun _ => true) (fun _ => 0)
          [sample_episode] "tywin_lannister"
          {| Pipeline.urls_processed := 0; Pipeline.scenes_extracted := 0;
             Pipeline.errors := 0 |}
          SceneStore.empty with
  | Some (s', st') =>
      Pipeline.scenes_extracted s' = 2%nat /\
      Pipeline.urls_processed s' = 1%nat /\
      size (SceneStore.scenes st') = 1%nat
  | None => False
  end.
Proof. vm_compute. repeat split. Qed.

(** A title that gives a season of 2^63: on a database that accepts every
    statement both saves fail; the script is counted as processed, but no
    scene is counted or stored and no URL is marked. *)
Example oversized_season_run :
  Pipeline.extract_character_scenes
    (fun s => s) (fun _ => (Some (2 ^ 63), Some 7)) (fun _ => []) (fun _ => true) (fun _ => 0)
    [sample_episode] "tywin_lannister"
    {| Pipeline.urls_processed := 0; Pipeline.scenes_extracted := 0; Pipeline.errors := 0 |}
    SceneStore.empty
  = Some ({| Pipeline.urls_processed := 1; Pipeline.scenes_extracted := 0;
             Pipeline.errors := 0 |}, SceneStore.empty).
Proof. vm_compute. reflexivity. Qed.

(** ** Extraction from a raw script *)

Module ExtractorFacts.
Import Extractor.

Lemma elem_of_concat {A} (x : A) (ls : list (list A)) :
  x ∈ concat ls <-> exists l, l ∈ ls /\ x ∈ l.
Proof.
  induction ls as [| l ls IH]; simpl.
  - split; [intros H; apply elem_of_nil in H as [] |
            intros (l & H & _); apply elem_of_nil in H as []].
  - rewrite elem_of_app, IH. split.
    + intros [H | (l' & Hin & H)].
      * exists l. split; [apply elem_of_cons; auto | exact H].
      * exists l'. split; [apply elem_of_cons; auto | exact H].
    + intros (l' & Hin & H). apply elem_of_cons in Hin as [-> | Hin]; eauto.
Qed.

(** A window holds lines of the text, at most twenty-one of them, and
    every line within ten lines of its centre. *)
Lemma window_lines (lines : list string) (i : nat) (l : string) :
  l ∈ window lines i -> l ∈ lines.
Proof.
  unfold window. intros H. apply elem_of_take in H as (k & Hk & _).
  rewrite lookup_drop in Hk. eapply list_elem_of_lookup_2, Hk.
Qed.

Lemma window_length (lines : list string) (i : nat) :
  (length (window lines i) <= 21)%nat.
Proof. unfold window. rewrite length_take, length_drop. lia. Qed.

Lemma window_covers (lines : list string) (i j : nat) (l : string) :
  lines !! j = Some l -> (i - 10 <= j <= i + 10)%nat -> l ∈ window lines i.
Proof.
  intros Hj Hnear. unfold window. apply elem_of_take.
  exists (j - (i - 10))%nat. rewrite lookup_drop.
  replace (i - 10 + (j - (i - 10)))%nat with j by lia.
  split; [exact Hj |].
  apply lookup_lt_Some in Hj. lia.
Qed.

Lemma concat_imap_length {A} (P : A -> bool) (f : nat -> A -> list A) (l : list A) (c : nat) :
  (forall i x, length (f i x) <= c)%nat ->
  (forall i x, P x = false -> f i x = []) ->
  (length (concat (imap f l)) <= c * length (List.filter P l))%nat.
Proof.
  revert f. induction l as [| x l IH]; intros f Hc Hoff; [simpl; lia |].
  rewrite imap_cons. simpl. rewrite length_app.
  specialize (IH (f ∘ S) (fun i y => Hc (S i) y) (fun i y H => Hoff (S i) y H)).
  destruct (P x) eqn:E.
  - simpl. specialize (Hc 0%nat x). lia.
  - rewrite (Hoff 0%nat x E). simpl. lia.
Qed.

End ExtractorFacts.

Section RawScript.

Variable lower : string -> string.

(** X18: what [_extract_from_raw_script] keeps.  Every extracted line is
    a line of the text; every line within ten lines of a line that
    mentions one of the names is extracted; the extract is empty exactly
    when no line mentions a name; and it holds at most twenty-one lines
    for every mentioning line -- windows of neighbouring mentions are
    not merged, their lines are repeated. *)
Theorem raw_script_extraction (text : string) (names : list string) :
  let lines := Extractor.split PyStr.newline text in
  let extracted := Extractor._extract_from_raw_script lower text names in
  (forall l, l ∈ extracted -> l ∈ lines) /\
  (forall i j line l,
     lines !! i = Some line -> Extractor.mentions lower names line = true ->
     lines !! j = Some l -> (i - 10 <= j <= i + 10)%nat -> l ∈ extracted) /\
  (extracted = [] <->
   forall line, line ∈ lines -> Extractor.mentions lower names line = false) /\
  (length extracted
   <= 21 * length (List.filter (Extractor.mentions lower names) lines))%nat.
Proof.
  cbv zeta. unfold Extractor._extract_from_raw_script.
  set (lines := Extractor.split PyStr.newline text).
  set (f := fun (i : nat) (line : string) =>
              if Extractor.mentions lower names line then Extractor.window lines i else []).
  assert (Hcover : forall i j line l,
             lines !! i = Some line -> Extractor.mentions lower names line = true ->
             lines !! j = Some l -> (i - 10 <= j <= i + 10)%nat ->
             l ∈ concat (imap f lines)).
  { intros i j line l Hi Hm Hj Hnear. apply ExtractorFacts.elem_of_concat.
    exists (f i line). split; [apply elem_of_lookup_imap_2, Hi |].
    unfold f. rewrite Hm. eapply ExtractorFacts.window_covers; eassumption. }
  split; [| split; [exact Hcover | split]].
  - intros l Hl. apply ExtractorFacts.elem_of_concat in Hl as (w & Hw & Hl).
    apply elem_of_lookup_imap_1 in Hw as (i & line & -> & Hi).
    unfold f in Hl. destruct (Extractor.mentions lower names line).
    + eapply ExtractorFacts.window_lines, Hl.
    + apply elem_of_nil in Hl as [].
  - split.
    + intros Hnil line Hline.
      destruct (Extractor.mentions lower names line) eqn:Hm; [| reflexivity].
      apply list_elem_of_lookup_1 in Hline as (i & Hi).
      assert (Hin : line ∈ concat (imap f lines))
        by (apply (Hcover i i line line Hi Hm Hi); lia).
      rewrite Hnil in Hin. apply elem_of_nil in Hin as [].
    + intros Hnone.
      destruct (concat (imap f lines)) as [| l rest] eqn:E; [reflexivity |].
      assert (Hl : l ∈ concat (imap f lines)) by (rewrite E; apply elem_of_cons; auto).
      apply ExtractorFacts.elem_of_concat in Hl as (w & Hw & Hl).
      apply elem_of_lookup_imap_1 in Hw as (i & line & -> & Hi).
      unfold f in Hl. rewrite (Hnone line) in Hl by (eapply list_elem_of_lookup_2, Hi).
      apply elem_of_nil in Hl as [].
  - apply ExtractorFacts.concat_imap_length.
    + intros i x. unfold f. destruct (Extractor.mentions lower names x);
        [apply ExtractorFacts.window_length | simpl; lia].
    + intros i x Hx. unfold f. rewrite Hx. reflexivity.
Qed.

End RawScript.

(** Two mentions on neighbouring lines: each line is extracted twice. *)
Example neighbouring_mentions_repeat :
  Extractor._extract_from_raw_script
    (fun s => s) (String "T" (String "y" (String PyStr.newline "Ty"))) ["Ty"]
  = ["Ty"; "Ty"; "Ty"; "Ty"].
Proof. reflexivity. Qed.

(** ** Saving a batch *)

(** X19: [save_batch] counts saves, not rows.  The number returned is the
    number of scenes that the database took; afterwards an id holds the
    last scene of the batch that was taken under it -- an earlier one is
    overwritten although it was counted -- and ids that the batch did not
    touch hold what they held; the cache and processed-URL tables are
    not touched. *)
Theorem save_batch_last_write_wins (db_ok : nat -> bool) (batch : list Scenes.Scene)
        (st : SceneStore.Store) :
  let r := SceneStore.save_batch db_ok batch st in
  fst r = length (accepted db_ok 0 batch) /\
  SceneStore.tables (snd r) = SceneStore.tables st /\
  forall id,
    SceneStore.get_scene id (snd r)
    = match last (List.filter (fun s => String.eqb (Scenes.scene_id s) id)
                              (accepted db_ok 0 batch)) with
      | Some s => Some s
      | None => SceneStore.get_scene id st
      end.
Proof.
  unfold SceneStore.save_batch. generalize 0%nat as from. revert st.
  induction batch as [| scene rest IH]; intros st from; [simpl; auto |].
  cbv zeta. cbn [SceneStore.save_batch_from accepted]. unfold SceneStore.save_scene.
  destruct (SceneStore.bindable scene && db_ok from) eqn:Eok.
  - set (st1 := {| SceneStore.scenes := _; SceneStore.tables := _ |}).
    specialize (IH st1 (S from)). cbv zeta in IH.
    destruct (SceneStore.save_batch_from db_ok (S from) rest st1) as [n st2].
    destruct IH as (Hn & Ht & Hget). simpl in *.
    split; [rewrite Hn; reflexivity |]. split; [exact Ht |].
    intros id. rewrite Hget. unfold SceneStore.get_scene, st1. simpl.
    destruct (String.eqb_spec (Scenes.scene_id scene) id) as [-> | Hne].
    + rewrite last_cons, lookup_insert_eq.
      destruct (last _); reflexivity.
    + rewrite lookup_insert_ne by exact Hne. reflexivity.
  - specialize (IH st (S from)). cbv zeta in IH.
    destruct (SceneStore.save_batch_from db_ok (S from) rest st) as [n st2].
    destruct IH as (Hn & Ht & Hget). simpl in *.
    split; [exact Hn |]. split; [exact Ht |]. exact Hget.
Qed.

(** ** A cache row without expiry *)

Lemma sweeps_keep_null_row (times : list Z) : forall (db : Storage.SQLiteStorage) url row,
  Storage.cache db !! url = Some row -> Storage.expiry row = None ->
  Storage.cache (sweeps times db) !! url = Some row.
Proof.
  induction times as [| t times IH]; intros db url row Hrow Hnull; [exact Hrow |].
  simpl. apply IH; [| exact Hnull].
  unfold Storage.cleanup_expired_cache. simpl.
  apply map_lookup_filter_Some. split; [exact Hrow |].
  unfold Storage.survives. simpl. rewrite Hnull. reflexivity.
Qed.

(** X20: a negative [expiry_hours] stores a row that no reader ever sees
    and no sweep ever removes.  The modifier that [cache_response] builds
    from a negative number is not one that SQLite accepts, so the expiry
    is NULL: [get_cached_response] does not return the row at any time,
    and the row survives any number of [cleanup_expired_cache] calls at
    any times. *)
Theorem negative_expiry_row_is_stranded (url body : string) (expiry_hours now : Z)
        (db : Storage.SQLiteStorage) :
  expiry_hours < 0 ->
  let db' := Storage.cache_response url body expiry_hours now db in
  (forall t, Storage.get_cached_response url t db' = None) /\
  (forall times t,
     Storage.cache (sweeps times db') !! url
     = Some {| Storage.content := body; Storage.scraped_at := now; Storage.expiry := None |} /\
     Storage.get_cached_response url t (sweeps times db') = None).
Proof.
  intros Hneg db'.
  assert (Hrow : Storage.cache db' !! url
                 = Some {| Storage.content := body; Storage.scraped_at := now;
                           Storage.expiry := None |}).
  { unfold db', Storage.cache_response, Storage.expiry_after. simpl.
    rewrite lookup_insert_eq.
    destruct (expiry_hours <? 0) eqn:E; [reflexivity | apply Z.ltb_ge in E; lia]. }
  split.
  - intros t. unfold Storage.get_cached_response. rewrite Hrow. reflexivity.
  - intros times t.
    pose proof (sweeps_keep_null_row times db' url _ Hrow eq_refl) as Hkept.
    split; [exact Hkept |].
    unfold Storage.get_cached_response. rewrite Hkept. reflexivity.
Qed.

Lemma negative_expiry_row_is_stranded_witness :
  let db' := Storage.cache_response "http://example/a" "body" (-1) 1000 Storage.empty in
  (forall t, Storage.get_cached_response "http://example/a" t db' = None) /\
  (forall times t,
     Storage.cache (sweeps times db') !! "http://example/a"
     = Some {| Storage.content := "body"; Storage.scraped_at := 1000;
               Storage.expiry := None |} /\
     Storage.get_cached_response "http://example/a" t (sweeps times db') = None).
Proof.
  apply (negative_expiry_row_is_stranded "http://example/a" "body" (-1) 1000 Storage.empty).
  lia.
Defined.

(** ** The statistics of a collection *)

Module CollectionFacts.
Import Scenes Collection.

Lemma count_show_insert (shows : gmap string nat) (scene : Scene) :
  count_show shows scene
  = <[show scene := (default 0 (shows !! show scene) + 1)%nat]> shows.
Proof.
  unfold count_show. destruct (shows !! show scene) as [n |] eqn:E.
  - rewrite E. reflexivity.
  - rewrite lookup_insert_eq, insert_insert_eq. reflexivity.
Qed.

Lemma total_insert_fresh (shows : gmap string nat) (k : string) (n : nat) :
  shows !! k = None -> total (<[k := n]> shows) = (n + total shows)%nat.
Proof.
  intros Hk. unfold total. apply map_fold_insert_L; [| exact Hk].
  intros. lia.
Qed.

Lemma total_count_show (shows : gmap string nat) (scene : Scene) :
  total (count_show shows scene) = S (total shows).
Proof.
  rewrite count_show_insert. set (k := show scene).
  destruct (shows !! k) as [n |] eqn:E; simpl.
  - rewrite <- (insert_delete_eq shows k).
    rewrite total_insert_fresh by apply lookup_delete_eq.
    rewrite <- (insert_delete_id shows k n E) at 2.
    rewrite total_insert_fresh by apply lookup_delete_eq. lia.
  - rewrite total_insert_fresh by exact E. lia.
Qed.

Lemma fold_count_lookup (l : list Scene) (k : string) : forall shows,
  fold_left count_show l shows !! k
  = match length (List.filter (fun s => String.eqb (show s) k) l) with
    | O => shows !! k
    | S n => Some (default 0 (shows !! k) + S n)%nat
    end.
Proof.
  induction l as [| scene l IH]; intros shows; [reflexivity |].
  cbn [fold_left List.filter]. rewrite IH, count_show_insert.
  destruct (String.eqb_spec (show scene) k) as [-> | Hne].
  - rewrite lookup_insert_eq. cbn [length default].
    destruct (length _); [reflexivity | f_equal; unfold id; lia].
  - rewrite lookup_insert_ne by exact Hne. reflexivity.
Qed.

Lemma fold_count_total (l : list Scene) : forall shows,
  total (fold_left count_show l shows) = (total shows + length l)%nat.
Proof.
  induction l as [| scene l IH]; intros shows; simpl; [lia |].
  rewrite IH, total_count_show. lia.
Qed.

End CollectionFacts.

(** X21: the statistics of a collection agree with its queries.  In
    [get_stats] the entry of a show in ['shows'] is the number of scenes
    that [get_by_show] returns for it, a show without scenes has no
    entry, and the entries add up to ['total_scenes']; adding a scene
    raises the entry of its show and the total by one. *)
Theorem collection_stats_agree (c : Collection.SceneCollection) :
  (forall show,
     Collection.stats_shows c !! show
     = match length (Collection.get_by_show show c) with
       | O => None
       | n => Some n
       end) /\
  Collection.total (Collection.stats_shows c) = Collection.stats_total_scenes c /\
  (forall scene,
     let c' := Collection.add_scene scene c in
     Collection.stats_shows c' !! Scenes.show scene
     = Some (S (length (Collection.get_by_show (Scenes.show scene) c))) /\
     Collection.stats_total_scenes c' = S (Collection.stats_total_scenes c)).
Proof.
  assert (Hshow : forall c show,
             Collection.stats_shows c !! show
             = match length (Collection.get_by_show show c) with
               | O => None
               | n => Some n
               end).
  { intros c0 show. unfold Collection.stats_shows, Collection.get_by_show.
    rewrite CollectionFacts.fold_count_lookup, lookup_empty.
    destruct (length _); reflexivity. }
  split; [apply Hshow |]. split.
  - unfold Collection.stats_shows, Collection.stats_total_scenes.
    rewrite CollectionFacts.fold_count_total. unfold Collection.total.
    rewrite map_fold_empty. reflexivity.
  - intros scene c'. split.
    + rewrite Hshow. unfold c', Collection.get_by_show, Collection.add_scene. simpl.
      rewrite List.filter_app, length_app. simpl. rewrite String.eqb_refl. simpl.
      rewrite Nat.add_1_r. reflexivity.
    + unfold c', Collection.stats_total_scenes, Collection.add_scene. simpl.
      rewrite length_app. simpl. lia.
Qed.

(** ** Asking the captcha vendors *)

(** X22: which vendors [solve_recaptcha_v2] asks.  A vendor that is not
    configured is never asked; naming a configured vendor means that it
    alone is asked and its answer returned as it is, with no fallback;
    otherwise 2captcha, if configured, is asked first, and AntiCaptcha, if
    configured, is asked after it exactly when 2captcha is not configured
    or gave nothing -- no vendor is asked twice, and 2captcha is never
    asked after AntiCaptcha; and what is returned, unless it is [None],
    is the answer of the vendor asked last. *)
Theorem solve_recaptcha_v2_vendors (twocaptcha_code anticaptcha_solution : option string)
        (solver : Captcha.CaptchaSolver) (service : string) :
  let asked := fst (Captcha.solve_recaptcha_v2 twocaptcha_code anticaptcha_solution
                                               solver service) in
  let result := snd (Captcha.solve_recaptcha_v2 twocaptcha_code anticaptcha_solution
                                                solver service) in
  (Captcha.TwoCaptcha ∈ asked -> Captcha.twocaptcha solver = true) /\
  (Captcha.AntiCaptcha ∈ asked -> truthy (Captcha.anticaptcha_key solver) = true) /\
  (service = "2captcha" -> Captcha.twocaptcha solver = true ->
   asked = [Captcha.TwoCaptcha] /\ result = twocaptcha_code) /\
  (service = "anticaptcha" -> truthy (Captcha.anticaptcha_key solver) = true ->
   asked = [Captcha.AntiCaptcha]) /\
  (asked = [Captcha.TwoCaptcha; Captcha.AntiCaptcha] ->
   service <> "2captcha" /\ truthy twocaptcha_code = false) /\
  (forall i j, asked !! i = Some Captcha.AntiCaptcha -> asked !! j = Some Captcha.TwoCaptcha ->
               (j < i)%nat) /\
  (length asked <= 2)%nat /\
  (asked <> [Captcha.TwoCaptcha; Captcha.TwoCaptcha] /\
   asked <> [Captcha.AntiCaptcha; Captcha.AntiCaptcha]) /\
  (~ (service = "2captcha" /\ Captcha.twocaptcha solver = true) ->
   ~ (service = "anticaptcha" /\ truthy (Captcha.anticaptcha_key solver) = true) ->
   asked = ((if Captcha.twocaptcha solver then [Captcha.TwoCaptcha] else [])
            ++ (if truthy (Captcha.anticaptcha_key solver)
                   && negb (Captcha.twocaptcha solver && truthy twocaptcha_code)
                then [Captcha.AntiCaptcha] else []))%list) /\
  (forall code, result = Some code ->
     match last asked with
     | Some Captcha.TwoCaptcha => twocaptcha_code = Some code
     | Some Captcha.AntiCaptcha => anticaptcha_solution = Some code /\ code <> ""
     | None => False
     end).
Proof.
  cbv zeta. unfold Captcha.solve_recaptcha_v2, Captcha._solve_2captcha_v2,
    Captcha._solve_anticaptcha_v2.
  destruct (String.eqb_spec service "2captcha") as [Hs2 | Hs2];
    destruct (String.eqb_spec service "anticaptcha") as [Hsa | Hsa];
    destruct (Captcha.twocaptcha solver);
    destruct (Captcha.anticaptcha_key solver) as [[| k ks] |];
    destruct twocaptcha_code as [[| c cs] |];
    destruct anticaptcha_solution as [[| a sol] |];
    simpl; repeat split; intros;
    repeat match goal with
           | H : _ ∈ [] |- _ => apply elem_of_nil in H; destruct H
           | H : _ ∈ _ :: _ |- _ => apply elem_of_cons in H; destruct H
           | H : [] !! _ = Some _ |- _ => rewrite lookup_nil in H; discriminate H
           | H : (_ :: _) !! ?i = Some _ |- _ => destruct i; simpl in H
           | H : ~ (_ /\ _) |- _ => try (exfalso; apply H; split; [reflexivity || assumption | reflexivity]); clear H
           end;
    subst; try discriminate; try contradiction; try congruence; try lia; auto.
  all: try (intros H; discriminate H).
Qed.

(** ** All sources *)

Section AllSourcesFacts.

Context {D : Type}.

Lemma length_valid_results (results : list (option D)) :
  (length (valid_results results) <= length results)%nat.
Proof.
  rewrite <- (length_fmap Some), valid_results_filter. apply length_filter.
Qed.

Lemma batch_of_spec (scrape : nat -> string -> result (option D)) (episodes : list string) :
  (length (batch_of scrape episodes) <= Nat.min 5 (length episodes))%nat /\
  forall r, r ∈ batch_of scrape episodes ->
            exists i url, take 5 episodes !! i = Some url /\ scrape i url = Ok (Some r).
Proof.
  assert (Hbatch : batch_of scrape episodes
                   = valid_results (gather scrape (take 5 episodes))) by reflexivity.
  rewrite Hbatch. split.
  - etransitivity; [apply length_valid_results |].
    unfold gather. rewrite length_imap, length_take. lia.
  - intros r Hr. unfold valid_results, gather in Hr.
    apply list_elem_of_omap in Hr as (o & Ho & Hid).
    apply elem_of_lookup_imap_1 in Ho as (i & url & -> & Hi).
    exists i, url. split; [exact Hi |].
    unfold scrape_with_semaphore in Hid. simpl in Hid.
    destruct (scrape i url) as [[d |] | e]; simpl in Hid; congruence.
Qed.

(** X23: what [scrape_all_sources] can return.  Whatever the scrapers
    find and however their calls end, the result holds at most eleven
    records -- five from Springfield, one from 8flix, whose search gives a
    single URL, and five from subslikescript -- each of them the record
    that a [scrape] call returned for one of the first five URLs found;
    a scraper whose search raises, or finds nothing, adds nothing and
    does not stop the others. *)
Theorem scrape_all_sources_bounded
        (springfield_episodes : result (list string))
        (eightflix_show : result (option string))
        (subslikescript_episodes : result (list string))
        (scrape_springfield scrape_eightflix scrape_subslikescript
           : nat -> string -> result (option D)) :
  let all_results :=
    scrape_all_sources springfield_episodes eightflix_show subslikescript_episodes
                       scrape_springfield scrape_eightflix scrape_subslikescript in
  (length all_results <= 11)%nat /\
  (forall r, r ∈ all_results ->
     (exists episodes i url,
        springfield_episodes = Ok episodes /\ take 5 episodes !! i = Some url /\
        scrape_springfield i url = Ok (Some r)) \/
     (exists show_url, eightflix_show = Ok (Some show_url) /\
                       scrape_eightflix 0%nat show_url = Ok (Some r)) \/
     (exists episodes i url,
        subslikescript_episodes = Ok episodes /\ take 5 episodes !! i = Some url /\
        scrape_subslikescript i url = Ok (Some r))) /\
  (forall e, springfield_episodes = Raise e ->
     all_results
     = (from_one scrape_eightflix eightflix_show
        ++ from_list scrape_subslikescript subslikescript_episodes)%list).
Proof.
  cbv zeta. unfold scrape_all_sources.
  assert (Hlist : forall scrape found,
             (length (from_list scrape found) <= 5)%nat /\
             forall r, r ∈ @from_list D scrape found ->
                       exists episodes i url,
                         found = Ok episodes /\ take 5 episodes !! i = Some url /\
                         scrape i url = Ok (Some r)).
  { intros scrape [episodes | e]; simpl.
    - destruct (batch_of_spec scrape episodes) as [Hlen Hin].
      split; [lia |]. intros r Hr. destruct (Hin r Hr) as (i & url & Hi & Hs). eauto 6.
    - split; [lia |]. intros r Hr. apply elem_of_nil in Hr as []. }
  assert (Hone : (length (from_one scrape_eightflix eightflix_show) <= 1)%nat /\
                 forall r, r ∈ from_one scrape_eightflix eightflix_show ->
                           exists show_url, eightflix_show = Ok (Some show_url) /\
                                            scrape_eightflix 0%nat show_url = Ok (Some r)).
  { destruct eightflix_show as [[show_url |] | e]; simpl;
      try (split; [lia | intros r Hr; apply elem_of_nil in Hr as []]).
    destruct (batch_of_spec scrape_eightflix [show_url]) as [Hlen Hin].
    split; [simpl in Hlen; lia |].
    intros r Hr. destruct (Hin r Hr) as (i & url & Hi & Hs).
    destruct i as [| i]; simpl in Hi; [| discriminate].
    injection Hi as <-. eauto. }
  destruct (Hlist scrape_springfield springfield_episodes) as [Hl1 Hin1].
  destruct (Hlist scrape_subslikescript subslikescript_episodes) as [Hl3 Hin3].
  destruct Hone as [Hl2 Hin2].
  split; [rewrite !length_app; lia |]. split.
  - intros r Hr. apply elem_of_app in Hr as [Hr | Hr]; [left; apply Hin1, Hr |].
    apply elem_of_app in Hr as [Hr | Hr]; [right; left; apply Hin2, Hr |].
    right; right. apply Hin3, Hr.
  - intros e ->. reflexivity.
Qed.

End AllSourcesFacts.

(** ** The cache statistics *)

Lemma unexpired_visible (url : string) (now : Z) (db : Storage.SQLiteStorage) :
  is_Some (Storage.get_cached_response url now db)
  <-> exists row, Storage.cache db !! url = Some row /\ unexpired now row = true.
Proof.
  unfold Storage.get_cached_response, unexpired.
  destruct (Storage.cache db !! url) as [row |].
  - destruct (Storage.expiry row) as [e |] eqn:Ee.
    + destruct (now <? e) eqn:E; split.
      * intros _. exists row. rewrite Ee. auto.
      * intros _. eexists. reflexivity.
      * intros [x Hx]. discriminate.
      * intros (row' & Hrow' & H). injection Hrow' as <-. rewrite Ee in H. congruence.
    + split.
      * intros [x Hx]. discriminate.
      * intros (row' & Hrow' & H). injection Hrow' as <-. rewrite Ee in H. discriminate.
  - split.
    + intros [x Hx]. discriminate.
    + intros (row' & Hrow' & _). discriminate.
Qed.

(** X24: the count of cached URLs is the count of URLs that a reader
    gets an answer for, and a sweep does not change it.  At any time,
    [cached_urls] of [get_stats] counts exactly the rows for which
    [get_cached_response] returns the content; [cleanup_expired_cache] run
    at that time or earlier leaves the count as it is, and leaves the
    count of processed URLs as it is. *)
Theorem cached_urls_counts_visible_rows (now swept : Z) (db : Storage.SQLiteStorage) :
  stats_cached_urls now db
  = size (filter (fun kv => is_Some (Storage.get_cached_response (fst kv) now db))
                 (Storage.cache db)) /\
  (swept <= now ->
   stats_cached_urls now (Storage.cleanup_expired_cache swept db) = stats_cached_urls now db) /\
  stats_processed_urls (Storage.cleanup_expired_cache swept db) = stats_processed_urls db.
Proof.
  split; [| split; [| reflexivity]].
  - unfold stats_cached_urls. f_equal. apply map_filter_ext.
    intros url row Hrow. simpl. rewrite unexpired_visible. split.
    + intros H. eauto.
    + intros (row' & Hrow' & H). congruence.
  - intros Hle. unfold stats_cached_urls, Storage.cleanup_expired_cache. simpl.
    f_equal. apply map_eq. intros url.
    destruct (Storage.cache db !! url) as [row |] eqn:Hrow.
    + destruct (unexpired now row) eqn:Hu.
      * assert (Hs : Storage.survives swept row = true).
        { unfold unexpired in Hu. unfold Storage.survives.
          destruct (Storage.expiry row) as [e |]; [| reflexivity].
          apply Z.ltb_lt in Hu. apply negb_true_iff, Z.leb_gt. lia. }
        transitivity (Some row).
        -- apply map_lookup_filter_Some. split; [| exact Hu].
           apply map_lookup_filter_Some. split; [exact Hrow | exact Hs].
        -- symmetry. apply map_lookup_filter_Some. split; [exact Hrow | exact Hu].
      * transitivity (@None Storage.cache_row).
        -- apply map_lookup_filter_None. right. intros row' Hrow'.
           apply map_lookup_filter_Some in Hrow' as [Hrow' _].
           simpl. rewrite Hrow in Hrow'. injection Hrow' as <-. rewrite Hu. discriminate.
        -- symmetry. apply map_lookup_filter_None. right. intros row' Hrow'.
           simpl. rewrite Hrow in Hrow'. injection Hrow' as <-. rewrite Hu. discriminate.
    + transitivity (@None Storage.cache_row).
      * apply map_lookup_filter_None. left.
        apply map_lookup_filter_None. left. exact Hrow.
      * symmetry. apply map_lookup_filter_None. left. exact Hrow.
Qed.
